(** * Shapetone: GIF sequencing, brightness sampling, shape rendering, mesh parsing

    A shallow embedding of the engine of the repository
    ([gifPlayer], [imageProcessor], [shapeDrawer], [renderer], [objectLoader])
    and of the pointer handlers of [CanvasView], with the properties its
    specification states about it and further properties of the code.

    Conventions of the embedding.
    - A JavaScript number that holds a measurement (time stamps, viewport
      coordinates, brightness, radii) is an exact rational [Q]: every value of
      the model is finite, rounding of the binary64 and float32 formats is not
      represented, and comparisons are the exact ones.
    - A JavaScript number used as an array index or a byte is an integer
      ([nat] for positions in an array, [Z] for pixel coordinates and bytes).
    - An exception ([TypeError], [RangeError], a thrown [Error]) is [None] in
      the option monad.
    - A canvas bitmap is a total function from pixel coordinates to RGBA
      values together with its size; drawing operations are clipped to it.
    - A string is a string of 8-bit characters; white space, digits and
      letter case are those of ASCII. *)

From Stdlib Require Import ZArith QArith Qround Qabs Lia Lqa Bool String Ascii List.
From stdpp Require Import base option list.
Import ListNotations.

Local Open Scope Z_scope.

(* ================================================================== *)
(** * Part I. The model                                                *)
(* ================================================================== *)

(** ** Numbers *)

(** [a < b] on rationals as a boolean test. *)
Definition Qlt_bool (a b : Q) : bool := negb (Qle_bool b a).

(** ** Canvas bitmaps (the part of the 2D context the engine uses) *)

Definition Pixel : Type := Z * Z * Z * Z.

Definition transparent : Pixel := (0, 0, 0, 0).

Definition pixelAlpha (p : Pixel) : Z := snd p.

Record Canvas := mkCanvas {
  cv_width : Z;
  cv_height : Z;
  cv_px : Z -> Z -> Pixel
}.

(** A canvas whose size was just assigned: transparent black everywhere. *)
Definition blankCanvas (w h : Z) : Canvas :=
  mkCanvas w h (fun _ _ => transparent).

(** The half-open rectangle with corner [(l, t)] and extent [w] by [h]; a
    negative extent runs to the other side, as the 2D context normalises it. *)
Definition inRect (l t w h x y : Z) : bool :=
  (Z.min l (l + w) <=? x) && (x <? Z.max l (l + w)) &&
  (Z.min t (t + h) <=? y) && (y <? Z.max t (t + h)).

Definition inCanvas (c : Canvas) (x y : Z) : bool :=
  inRect 0 0 (cv_width c) (cv_height c) x y.

(** [ctx.clearRect(l, t, w, h)] *)
Definition clearRect (c : Canvas) (l t w h : Z) : Canvas :=
  mkCanvas (cv_width c) (cv_height c)
    (fun x y => if inRect l t w h x y then transparent else cv_px c x y).

(** [ImageData]: [data] holds four bytes per pixel, row-major. *)
Record ImageData := mkImageData {
  id_width : Z;
  id_height : Z;
  id_data : list Z
}.

(** [ctx.createImageData(w, h)]: a zero extent raises [IndexSizeError]. *)
Definition createImageData (w h : Z) : option ImageData :=
  if (w =? 0) || (h =? 0) then None
  else Some (mkImageData (Z.abs w) (Z.abs h)
               (replicate (Z.to_nat (4 * Z.abs w * Z.abs h)) 0)).

(** [target.set(source)] on typed arrays: the source overwrites a prefix of
    the target; a source longer than the target raises [RangeError]. *)
Definition typedArraySet (target source : list Z) : option (list Z) :=
  if (length source <=? length target)%nat
  then Some (source ++ drop (length source) target)
  else None.

Definition byteAt (data : list Z) (i : Z) : Z :=
  default 0 (data !! Z.to_nat i).

Definition imageDataPixel (d : ImageData) (x y : Z) : Pixel :=
  let i := (y * id_width d + x) * 4 in
  (byteAt (id_data d) i, byteAt (id_data d) (i + 1),
   byteAt (id_data d) (i + 2), byteAt (id_data d) (i + 3)).

(** [ctx.putImageData(d, dx, dy)]: the pixels of [d] replace those of the
    canvas, without compositing. *)
Definition putImageData (c : Canvas) (d : ImageData) (dx dy : Z) : Canvas :=
  mkCanvas (cv_width c) (cv_height c)
    (fun x y =>
       if inCanvas c x y && inRect dx dy (id_width d) (id_height d) x y
       then imageDataPixel d (x - dx) (y - dy)
       else cv_px c x y).

Section Compositing.

(** Source-over compositing of a partially transparent source pixel onto a
    destination pixel is the browser's arithmetic; it is a parameter here.
    Opaque and fully transparent sources do not depend on it. *)
Variable blend : Pixel -> Pixel -> Pixel.

Definition sourceOver (src dst : Pixel) : Pixel :=
  if pixelAlpha src =? 255 then src
  else if pixelAlpha src =? 0 then dst
  else blend src dst.

(** [ctx.drawImage(src, dx, dy)] with a canvas as the source. *)
Definition drawImage (c src : Canvas) (dx dy : Z) : Canvas :=
  mkCanvas (cv_width c) (cv_height c)
    (fun x y =>
       if inCanvas c x y && inRect dx dy (cv_width src) (cv_height src) x y
       then sourceOver (cv_px src (x - dx) (y - dy)) (cv_px c x y)
       else cv_px c x y).

(** ** GifPlayer *)

Record FrameDims := mkDims {
  dims_width : Z;
  dims_height : Z;
  dims_top : Z;
  dims_left : Z
}.

Record DecompressedFrame := mkFrame {
  dims : FrameDims;
  patch : list Z;
  delay : Z;
  disposalType : Z
}.

Record GifPlayer := mkGifPlayer {
  frames : list DecompressedFrame;
  currentIndex : nat;
  lastFrameTime : Q;
  frameCanvas : Canvas;
  patchCanvas : Canvas;
  cachedPatchData : option ImageData;
  cachedPatchW : Z;
  cachedPatchH : Z;
  gif_width : Z;
  gif_height : Z
}.

(** The constructor: two fresh canvases of the default size. *)
Definition newGifPlayer : GifPlayer :=
  mkGifPlayer [] 0 0 (blankCanvas 300 150) (blankCanvas 300 150) None 0 0 0 0.

(** The scratch [ImageData] and the patch canvas for a frame of extent
    [w] by [h]: reallocated when absent or of another extent. *)
Definition patchScratch (p : GifPlayer) (w h : Z) : option (Canvas * ImageData) :=
  match cachedPatchData p with
  | Some d =>
      if negb (cachedPatchW p =? w) || negb (cachedPatchH p =? h)
      then d' ← createImageData w h; Some (blankCanvas w h, d')
      else Some (patchCanvas p, d)
  | None => d' ← createImageData w h; Some (blankCanvas w h, d')
  end.

(** The composite surface before the patch is painted: the rectangle of
    the frame listed before [index] is cleared when its disposal is 2. *)
Definition disposePrevious (p : GifPlayer) (index : nat) : option Canvas :=
  if (0 <? index)%nat then
    prevFrame ← frames p !! (index - 1)%nat;
    if disposalType prevFrame =? 2
    then Some (clearRect (frameCanvas p)
                 (dims_left (dims prevFrame)) (dims_top (dims prevFrame))
                 (dims_width (dims prevFrame)) (dims_height (dims prevFrame)))
    else Some (frameCanvas p)
  else Some (frameCanvas p).

Definition renderFrame (index : nat) (p : GifPlayer) : option GifPlayer :=
  frame ← frames p !! index;
  let d := dims frame in
  '(pc, scratch) ← patchScratch p (dims_width d) (dims_height d);
  data ← typedArraySet (id_data scratch) (patch frame);
  let scratch' := mkImageData (id_width scratch) (id_height scratch) data in
  let pc' := putImageData pc scratch' 0 0 in
  fc ← disposePrevious p index;
  Some (mkGifPlayer (frames p) (currentIndex p) (lastFrameTime p)
          (drawImage fc pc' (dims_left d) (dims_top d))
          pc' (Some scratch') (dims_width d) (dims_height d)
          (gif_width p) (gif_height p)).

(** [load], from the frames and the logical screen size the decoder
    returns; [now] is the reading of the clock. *)
Definition load (fs : list DecompressedFrame) (w h : Z) (now : Q)
    (p : GifPlayer) : option GifPlayer :=
  if (length fs =? 0)%nat then None
  else
    renderFrame 0
      (mkGifPlayer fs 0 now (clearRect (blankCanvas w h) 0 0 w h)
         (patchCanvas p) None (cachedPatchW p) (cachedPatchH p) w h).

(** [(frame.delay || 10) * 10], floored at 20. *)
Definition frameDelay (frame : DecompressedFrame) : Z :=
  Z.max 20 ((if delay frame =? 0 then 10 else delay frame) * 10).

Definition setCurrentIndex (i : nat) (p : GifPlayer) : GifPlayer :=
  mkGifPlayer (frames p) i (lastFrameTime p) (frameCanvas p) (patchCanvas p)
    (cachedPatchData p) (cachedPatchW p) (cachedPatchH p)
    (gif_width p) (gif_height p).

Definition setLastFrameTime (t : Q) (p : GifPlayer) : GifPlayer :=
  mkGifPlayer (frames p) (currentIndex p) t (frameCanvas p) (patchCanvas p)
    (cachedPatchData p) (cachedPatchW p) (cachedPatchH p)
    (gif_width p) (gif_height p).

(** [advance]; [now] is the reading of [performance.now()]. *)
Definition advance (now : Q) (p : GifPlayer) : option GifPlayer :=
  if (length (frames p) <=? 1)%nat then Some p
  else
    frame ← frames p !! currentIndex p;
    let delay := frameDelay frame in
    if Qle_bool (inject_Z delay) (now - lastFrameTime p) then
      let p1 := setCurrentIndex ((currentIndex p + 1) mod length (frames p))%nat p in
      p2 ← renderFrame (currentIndex p1) p1;
      Some (setLastFrameTime now p2)
    else Some p.

End Compositing.

(** ** Well-formed frames and players (what the decoder and [load] give) *)

(** A decoded frame covers a non-empty rectangle and carries four bytes for
    each of its pixels. *)
Definition wf_frame (f : DecompressedFrame) : Prop :=
  0 < dims_width (dims f) /\ 0 < dims_height (dims f) /\
  length (patch f) = Z.to_nat (4 * dims_width (dims f) * dims_height (dims f)).

(** The scratch [ImageData] and the patch canvas have the extent that the
    cache keys record. *)
Definition cache_ok (p : GifPlayer) : Prop :=
  match cachedPatchData p with
  | Some d =>
      id_width d = cachedPatchW p /\ id_height d = cachedPatchH p /\
      length (id_data d) = Z.to_nat (4 * cachedPatchW p * cachedPatchH p) /\
      cv_width (patchCanvas p) = cachedPatchW p /\
      cv_height (patchCanvas p) = cachedPatchH p
  | None => True
  end.

Definition wf_player (p : GifPlayer) : Prop :=
  Forall wf_frame (frames p) /\
  (currentIndex p < length (frames p))%nat /\
  cache_ok p.

(** The pixel of a frame's patch at patch coordinates [(x, y)]. *)
Definition framePixel (f : DecompressedFrame) (x y : Z) : Pixel :=
  imageDataPixel
    (mkImageData (dims_width (dims f)) (dims_height (dims f)) (patch f)) x y.

(** Painting frame [f] over a pixel [base] of a [cw] by [ch] surface. *)
Definition paintFrame (blend : Pixel -> Pixel -> Pixel) (cw ch : Z)
    (f : DecompressedFrame) (base : Pixel) (x y : Z) : Pixel :=
  if inRect 0 0 cw ch x y &&
     inRect (dims_left (dims f)) (dims_top (dims f))
       (dims_width (dims f)) (dims_height (dims f)) x y
  then sourceOver blend
         (framePixel f (x - dims_left (dims f)) (y - dims_top (dims f))) base
  else base.

(** A pixel after the rectangle of frame [f] was cleared. *)
Definition clearFrame (f : DecompressedFrame) (base : Pixel) (x y : Z) : Pixel :=
  if inRect (dims_left (dims f)) (dims_top (dims f))
       (dims_width (dims f)) (dims_height (dims f)) x y
  then transparent else base.

(** ** The sequencer as the specification words it *)



(** Compositing as the specification words it: the frame shown before the
    new one decides, by its disposal mode, whether its rectangle is cleared
    before [next] is painted. *)
Definition composite_spec (blend : Pixel -> Pixel -> Pixel) (surface : Canvas)
    (prev next : DecompressedFrame) (x y : Z) : Pixel :=
  paintFrame blend (cv_width surface) (cv_height surface) next
    (if disposalType prev =? 2 then clearFrame prev (cv_px surface x y) x y
     else cv_px surface x y) x y.

(** ** Example animation: two 1-by-1 frames on a 2-by-1 screen *)

Definition exBlend : Pixel -> Pixel -> Pixel := fun src _ => src.

Definition exRed : DecompressedFrame :=
  mkFrame (mkDims 1 1 0 0) [255; 0; 0; 255] 0 1.

Definition exGreen : DecompressedFrame :=
  mkFrame (mkDims 1 1 0 1) [0; 255; 0; 255] 5 2.

Definition exLoaded : option GifPlayer :=
  load exBlend [exRed; exGreen] 2 1 0 newGifPlayer.

(** The example player once loaded (frame 0 shown at time 0), and after its
    first step at time 100 (frame 1 shown). *)
Definition exPlayer0 : GifPlayer := default newGifPlayer exLoaded.

Definition exPlayer1 : GifPlayer :=
  default newGifPlayer (advance exBlend 100 exPlayer0).

(** The same two frames in the other order: the frame that asks for
    restore-to-background comes first. *)
Definition exPlayerRev : GifPlayer :=
  default newGifPlayer (load exBlend [exGreen; exRed] 2 1 0 newGifPlayer).

(** ** Loops *)

(** [for (let i = 0; i < n; i++) s = body(i, s)] *)
Definition forRange {S : Type} (n : Z) (body : Z -> S -> S) (s : S) : S :=
  fold_left (fun s i => body (Z.of_nat i) s) (seq 0 (Z.to_nat n)) s.

(** ** imageProcessor: the brightness grid *)

Local Open Scope Q_scope.

Record MediaTransform := mkMediaTransform {
  mt_scale : Q;
  mt_offsetX : Q;
  mt_offsetY : Q
}.

(** A media element as the sampler sees it: its intrinsic size, and the
    RGBA bytes that [getImageData] returns once the element has been drawn
    at that size onto the cleared offscreen canvas. *)
Inductive MediaElement :=
| HTMLImageElement (naturalWidth naturalHeight : Z) (pixels : list Z)
| HTMLVideoElement (videoWidth videoHeight : Z) (pixels : list Z)
| HTMLCanvasElement (width height : Z) (pixels : list Z).

Definition getMediaSize (media : MediaElement) : Z * Z :=
  match media with
  | HTMLVideoElement w h _ => (w, h)
  | HTMLCanvasElement w h _ => (w, h)
  | HTMLImageElement w h _ => (w, h)
  end.

Definition mediaPixels (media : MediaElement) : list Z :=
  match media with
  | HTMLVideoElement _ _ px | HTMLCanvasElement _ _ px
  | HTMLImageElement _ _ px => px
  end.

Record BrightnessGridResult := mkBrightnessGridResult {
  grid : list Q;
  cols : Z;
  rows : Z;
  imgOffsetX : Q;
  imgOffsetY : Q;
  imgDrawWidth : Q;
  imgDrawHeight : Q
}.

(** The reusable grid buffer of the module. *)
Record GridCache := mkGridCache {
  cachedGrid : option (list Q);
  cachedGridSize : Z
}.

(** [getGridBuffer]: the cached buffer when it has the requested size, else
    a fresh zeroed [Float32Array], whose constructor raises [RangeError] on
    a negative length. *)
Definition getGridBuffer (cache : GridCache) (size : Z)
    : option (list Q * GridCache) :=
  let fresh :=
    if (size <? 0)%Z then None
    else let g := replicate (Z.to_nat size) 0 in
         Some (g, mkGridCache (Some g) size) in
  match cachedGrid cache with
  | Some g => if negb (cachedGridSize cache =? size)%Z then fresh
              else Some (g, cache)
  | None => fresh
  end.

(** [x | 0]: truncation toward zero, then wrap-around to 32 signed bits. *)
Definition toInt32 (x : Q) : Z :=
  ((Z.quot (Qnum x) (Z.pos (Qden x)) + 2 ^ 31) mod 2 ^ 32 - 2 ^ 31)%Z.

(** [lum < 0 ? 0 : lum > 1 ? 1 : lum] *)
Definition clamp01 (x : Q) : Q :=
  if Qlt_bool x 0 then 0 else if Qlt_bool 1 x then 1 else x.

(** The aspect-ratio-preserving fit [(drawW, drawH, offsetX, offsetY)] of
    the media inside the canvas. *)
Definition aspectFit (mediaW mediaH : Z) (canvasWidth canvasHeight : Q)
    : Q * Q * Q * Q :=
  let imgAspect := inject_Z mediaW / inject_Z mediaH in
  let canvasAspect := canvasWidth / canvasHeight in
  if Qlt_bool canvasAspect imgAspect then
    let drawW := canvasWidth in
    let drawH := canvasWidth / imgAspect in
    (drawW, drawH, 0, (canvasHeight - drawH) / 2)
  else
    let drawH := canvasHeight in
    let drawW := canvasHeight * imgAspect in
    (drawW, drawH, (canvasWidth - drawW) / 2, 0).

Definition identityTransform : MediaTransform := mkMediaTransform 1 0 0.

(** The draw area after the media transform:
    [(finalOffsetX, finalOffsetY, scaledDrawW, scaledDrawH)]. *)
Definition transformedArea (mediaW mediaH : Z) (canvasWidth canvasHeight : Q)
    (mediaTransform : option MediaTransform) : Q * Q * Q * Q :=
  let '(drawW, drawH, offsetX, offsetY) :=
    aspectFit mediaW mediaH canvasWidth canvasHeight in
  let mt := default identityTransform mediaTransform in
  let scaledDrawW := drawW * mt_scale mt in
  let scaledDrawH := drawH * mt_scale mt in
  let finalOffsetX := offsetX + (drawW - scaledDrawW) / 2 + mt_offsetX mt in
  let finalOffsetY := offsetY + (drawH - scaledDrawH) / 2 + mt_offsetY mt in
  (finalOffsetX, finalOffsetY, scaledDrawW, scaledDrawH).

(** The media coordinate [(mx, my)] that the centre of cell [(row, col)]
    maps to. The product is exact here, where the code forms it in binary64:
    at a product that is a whole number, or within rounding of one, the code
    may get the neighbouring integer. The properties below that name a
    sampled pixel are conditional on the coordinate that picks it. *)
Definition mediaCoord (mediaW mediaH : Z) (area : Q * Q * Q * Q)
    (spacing : Q) (row col : Z) : Z * Z :=
  let '(finalOffsetX, finalOffsetY, scaledDrawW, scaledDrawH) := area in
  let scaleX := inject_Z mediaW / scaledDrawW in
  let scaleY := inject_Z mediaH / scaledDrawH in
  let vx := inject_Z col * spacing + spacing * 0.5 in
  let vy := inject_Z row * spacing + spacing * 0.5 in
  (toInt32 ((vx - finalOffsetX) * scaleX),
   toInt32 ((vy - finalOffsetY) * scaleY)).

Definition outOfBounds (mediaW mediaH mx my : Z) : bool :=
  ((mx <? 0) || (mx >=? mediaW) || (my <? 0) || (my >=? mediaH))%Z.

(** [(0.299 * r + 0.587 * g + 0.114 * b) / 255] of the pixel at byte [idx]. *)
Definition luminance (pixels : list Z) (idx : Z) : Q :=
  let r := inject_Z (byteAt pixels idx) in
  let g := inject_Z (byteAt pixels (idx + 1)) in
  let b := inject_Z (byteAt pixels (idx + 2)) in
  (0.299 * r + 0.587 * g + 0.114 * b) / 255.

(** [((lum - 0.5) * contrast) + 0.5 + brightness / 255], clamped. *)
Definition adjust (contrast brightness lum : Q) : Q :=
  clamp01 (((lum - 0.5) * contrast) + 0.5 + brightness / 255).

(** The value the loop body stores for cell [(row, col)]. *)
Definition sampleCell (pixels : list Z) (mediaW mediaH : Z)
    (area : Q * Q * Q * Q) (spacing contrast brightness bgBrightness : Q)
    (row col : Z) : Q :=
  let '(mx, my) := mediaCoord mediaW mediaH area spacing row col in
  if outOfBounds mediaW mediaH mx my then bgBrightness
  else
    let idx := ((my * mediaW + mx) * 4)%Z in
    let a := byteAt pixels (idx + 3) in
    if (a <? 10)%Z then bgBrightness
    else
      let lum := luminance pixels idx in
      let lum :=
        if (a <? 255)%Z then
          let alpha := inject_Z a / 255 in
          lum * alpha + bgBrightness * (1 - alpha)
        else lum in
      adjust contrast brightness lum.

(** [computeBrightnessGrid]. The optional [mediaTransform] is [None] when
    the caller leaves it out; a caller that leaves [bgBrightness] out
    passes 0. The buffer returned is the cached one, so the cache holds the
    grid afterwards. Divisions are the exact ones of [Q], where [x / 0] is
    0: a zero [spacing], which gives an infinite number of columns in
    JavaScript, is outside the model, and the properties below are stated
    for a positive spacing and a viewport of non-negative extent. *)
Definition computeBrightnessGrid (cache : GridCache) (media : MediaElement)
    (canvasWidth canvasHeight spacing contrast brightness : Q)
    (mediaTransform : option MediaTransform) (bgBrightness : Q)
    : option (BrightnessGridResult * GridCache) :=
  let '(mediaW, mediaH) := getMediaSize media in
  if ((mediaW =? 0) || (mediaH =? 0))%Z then
    Some (mkBrightnessGridResult [] 0 0 0 0 0 0, cache)
  else
    let area :=
      transformedArea mediaW mediaH canvasWidth canvasHeight mediaTransform in
    let '(finalOffsetX, finalOffsetY, scaledDrawW, scaledDrawH) := area in
    let pixels := mediaPixels media in
    let cols := Qceiling (canvasWidth / spacing) in
    let rows := Qceiling (canvasHeight / spacing) in
    '(buffer, cache1) ← getGridBuffer cache (cols * rows);
    let grid :=
      forRange rows (fun row grid =>
        forRange cols (fun col grid =>
          <[Z.to_nat (row * cols + col) :=
              sampleCell pixels mediaW mediaH area spacing contrast brightness
                bgBrightness row col]> grid) grid) buffer in
    Some (mkBrightnessGridResult grid cols rows
            finalOffsetX finalOffsetY scaledDrawW scaledDrawH,
          mkGridCache (Some grid) (cachedGridSize cache1)).

(** *** The sampler as the specification words it *)

(** A cell as the specification words it: only a fully transparent pixel
    (alpha 0) resolves to the background brightness, and every pixel with
    alpha strictly between 0 and 255 is blended. *)
Definition sampleCell_spec (pixels : list Z) (mediaW mediaH : Z)
    (area : Q * Q * Q * Q) (spacing contrast brightness bgBrightness : Q)
    (row col : Z) : Q :=
  let '(mx, my) := mediaCoord mediaW mediaH area spacing row col in
  if outOfBounds mediaW mediaH mx my then bgBrightness
  else
    let idx := ((my * mediaW + mx) * 4)%Z in
    let a := byteAt pixels (idx + 3) in
    if (a =? 0)%Z then bgBrightness
    else
      let lum := luminance pixels idx in
      let lum :=
        if (a <? 255)%Z then
          let alpha := inject_Z a / 255 in
          lum * alpha + bgBrightness * (1 - alpha)
        else lum in
      adjust contrast brightness lum.

(** *** Example media *)

Definition emptyCache : GridCache := mkGridCache None 0.

(** A single white pixel of alpha 5. *)
Definition exFaint : MediaElement := HTMLCanvasElement 1 1 [255; 255; 255; 5]%Z.

(** A single white pixel of alpha 128. *)
Definition exHalf : MediaElement := HTMLCanvasElement 1 1 [255; 255; 255; 128]%Z.

(** A single opaque white pixel. *)
Definition exWhite : MediaElement := HTMLImageElement 1 1 [255; 255; 255; 255]%Z.

Local Close Scope Q_scope.

(** The cached buffer has the length that the cache records. *)
Definition gridCache_ok (cache : GridCache) : Prop :=
  match cachedGrid cache with
  | Some g => length g = Z.to_nat (cachedGridSize cache)
  | None => True
  end.

(** The cell value in terms of the function's inputs. *)
Definition cellValue (media : MediaElement)
    (canvasWidth canvasHeight spacing contrast brightness : Q)
    (mediaTransform : option MediaTransform) (bgBrightness : Q)
    (row col : Z) : Q :=
  sampleCell (mediaPixels media)
    (fst (getMediaSize media)) (snd (getMediaSize media))
    (transformedArea (fst (getMediaSize media)) (snd (getMediaSize media))
       canvasWidth canvasHeight mediaTransform)
    spacing contrast brightness bgBrightness row col.

(** ** shapeDrawer and renderer: from a brightness grid to shapes *)

Local Open Scope Q_scope.

Inductive ShapeType := circle | square | triangle_up | text | custom.

Record BrightnessMapping := mkBrightnessMapping {
  invert : bool;
  minSize : Q;
  maxSize : Q;
  contrast : Q;
  brightness : Q
}.

Record ViewBox := mkViewBox {
  vb_width : Q;
  vb_height : Q
}.

Record ColorSettings := mkColorSettings {
  background : string;
  foreground : string
}.

(** The fields of [AppState] that the drawing passes read. *)
Record AppState := mkAppState {
  shape : ShapeType;
  customSvgPath : option string;
  customSvgViewBox : option ViewBox;
  customTextChar : string;
  density : Q;
  mapping : BrightnessMapping;
  colors : ColorSettings
}.

(** [Math.PI * 2] and [Math.sqrt(3)]: the binary64 values, which are
    rationals. *)
Definition TWO_PI : Q := 7074237752028440 # 1125899906842624.
Definition SQRT3 : Q := 7800463371553962 # 4503599627370496.

Definition Math_max (a b : Q) : Q := if Qlt_bool a b then b else a.
Definition Math_min (a b : Q) : Q := if Qlt_bool b a then b else a.

(** The operations of a path, and the drawing commands a 2D context
    receives. Rasterisation itself is the browser's. *)
Inductive PathOp :=
| MoveTo (x y : Q)
| LineTo (x y : Q)
| Arc (cx cy r startAngle endAngle : Q)
| ClosePath.

Inductive DrawCmd :=
| Fill (path : list PathOp)
| FillRect (x y w h : Q)
| FillText (fontPx : Q) (char : string) (x y : Q)
| FillPath2D (pathData : string) (tx ty scale tx' ty' : Q).

Definition drawCircle (cx cy r : Q) : list DrawCmd :=
  [Fill [Arc cx cy r 0 TWO_PI]].

Definition drawSquare (cx cy r : Q) : list DrawCmd :=
  [FillRect (cx - r) (cy - r) (r * 2) (r * 2)].

Definition drawTriangleUp (cx cy r : Q) : list DrawCmd :=
  let h := r * SQRT3 in
  [Fill [MoveTo cx (cy - r); LineTo (cx - h / 2) (cy + r);
         LineTo (cx + h / 2) (cy + r); ClosePath]].

Definition drawText (cx cy r : Q) (char : string) : list DrawCmd :=
  let fontSize := r * 2 in
  if Qlt_bool fontSize 1 then []
  else [FillText fontSize char cx cy].

(** [save; translate(cx, cy); scale(s, s); translate(-w/2, -h/2);
    fill(path); restore]. The [Path2D] of a path string is cached; the
    cache does not show in what is drawn. *)
Definition drawCustomSvg (cx cy r : Q) (pathData : string) (viewBox : ViewBox)
    : list DrawCmd :=
  let scale := (r * 2) / Math_max (vb_width viewBox) (vb_height viewBox) in
  [FillPath2D pathData cx cy scale
     (- vb_width viewBox / 2) (- vb_height viewBox / 2)].

(** A string is truthy when it is not empty. *)
Definition truthy (s : string) : bool :=
  match s with EmptyString => false | _ => true end.

(** [customSvgPath && customSvgViewBox] *)
Definition customShape (customSvgPath : option string)
    (customSvgViewBox : option ViewBox) : option (string * ViewBox) :=
  match customSvgPath, customSvgViewBox with
  | Some pathData, Some viewBox =>
      if truthy pathData then Some (pathData, viewBox) else None
  | _, _ => None
  end.

Definition drawShape (shape : ShapeType) (cx cy r : Q)
    (customSvgPath : option string) (customSvgViewBox : option ViewBox)
    (customTextChar : string) : list DrawCmd :=
  match shape with
  | circle => drawCircle cx cy r
  | square => drawSquare cx cy r
  | triangle_up => drawTriangleUp cx cy r
  | text => drawText cx cy r (if truthy customTextChar then customTextChar else "*"%string)
  | custom =>
      match customShape customSvgPath customSvgViewBox with
      | Some (pathData, viewBox) => drawCustomSvg cx cy r pathData viewBox
      | None => drawCircle cx cy r
      end
  end.

(** [grid[i]]. A read past the end of the array gives [undefined] in
    JavaScript; the passes below index a grid of [cols * rows] entries. *)
Definition gridAt (grid : list Q) (i : Z) : Q :=
  default 0 (grid !! Z.to_nat i).

(** The radius of the shape of cell [(row, col)], as the three raster loops
    compute it. *)
Definition cellRadius (grid : list Q) (cols : Z)
    (maxRadius minScale maxScale : Q) (invert : bool) (row col : Z) : Q :=
  let b := gridAt grid (row * cols + col) in
  let b := if invert then 1 - b else b in
  let size := minScale + b * (maxScale - minScale) in
  let cs := clamp01 size in
  maxRadius * cs.

Definition batchCircleCell (grid : list Q) (cols : Z)
    (spacing maxRadius minScale maxScale : Q) (invert : bool) (row col : Z)
    : list PathOp :=
  let r := cellRadius grid cols maxRadius minScale maxScale invert row col in
  if Qlt_bool r 0.3 then []
  else
    let cx := inject_Z col * spacing + spacing * 0.5 in
    let cy := inject_Z row * spacing + spacing * 0.5 in
    [MoveTo (cx + r) cy; Arc cx cy r 0 TWO_PI].

Definition batchDrawCircles (grid : list Q) (cols rows : Z)
    (spacing maxRadius minScale maxScale : Q) (invert : bool) : list DrawCmd :=
  let batch :=
    forRange rows (fun row batch =>
      forRange cols (fun col batch =>
        batch ++ batchCircleCell grid cols spacing maxRadius minScale maxScale
                   invert row col) batch) [] in
  [Fill batch].

Definition batchTriangleCell (grid : list Q) (cols : Z)
    (spacing maxRadius minScale maxScale : Q) (invert : bool) (row col : Z)
    : list PathOp :=
  let r := cellRadius grid cols maxRadius minScale maxScale invert row col in
  if Qlt_bool r 0.3 then []
  else
    let cx := inject_Z col * spacing + spacing * 0.5 in
    let cy := inject_Z row * spacing + spacing * 0.5 in
    let h := r * SQRT3 in
    [MoveTo cx (cy - r); LineTo (cx - h / 2) (cy + r);
     LineTo (cx + h / 2) (cy + r); ClosePath].

Definition batchDrawTriangles (grid : list Q) (cols rows : Z)
    (spacing maxRadius minScale maxScale : Q) (invert : bool) : list DrawCmd :=
  let batch :=
    forRange rows (fun row batch =>
      forRange cols (fun col batch =>
        batch ++ batchTriangleCell grid cols spacing maxRadius minScale
                   maxScale invert row col) batch) [] in
  [Fill batch].

(** The body of the general loop of [render] for one cell. *)
Definition renderCell (state : AppState) (grid : list Q) (cols : Z)
    (row col : Z) : list DrawCmd :=
  let spacing := density state in
  let maxRadius := spacing * 0.48 in
  let minScale := minSize (mapping state) / 100 in
  let maxScale := maxSize (mapping state) / 100 in
  let radius :=
    cellRadius grid cols maxRadius minScale maxScale (invert (mapping state))
      row col in
  if Qlt_bool radius 0.3 then []
  else
    let cx := inject_Z col * spacing + spacing * 0.5 in
    let cy := inject_Z row * spacing + spacing * 0.5 in
    drawShape (shape state) cx cy radius (customSvgPath state)
      (customSvgViewBox state) (customTextChar state).

(** [render], from the brightness grid on: what is drawn in the foreground
    colour. *)
Definition renderGrid (state : AppState) (grid : list Q) (cols rows : Z)
    : list DrawCmd :=
  let spacing := density state in
  let maxRadius := spacing * 0.48 in
  let minScale := minSize (mapping state) / 100 in
  let maxScale := maxSize (mapping state) / 100 in
  match shape state with
  | circle =>
      batchDrawCircles grid cols rows spacing maxRadius minScale maxScale
        (invert (mapping state))
  | triangle_up =>
      batchDrawTriangles grid cols rows spacing maxRadius minScale maxScale
        (invert (mapping state))
  | _ =>
      forRange rows (fun row cmds =>
        forRange cols (fun col cmds =>
          cmds ++ renderCell state grid cols row col) cmds) []
  end.

(** What the raster pass contributes for one cell, whichever loop runs. *)
Inductive RasterOutput :=
| Batched (ops : list PathOp)
| Drawn (cmds : list DrawCmd).

Definition rasterCell (state : AppState) (grid : list Q) (cols : Z)
    (row col : Z) : RasterOutput :=
  let spacing := density state in
  let maxRadius := spacing * 0.48 in
  let minScale := minSize (mapping state) / 100 in
  let maxScale := maxSize (mapping state) / 100 in
  match shape state with
  | circle =>
      Batched (batchCircleCell grid cols spacing maxRadius minScale maxScale
                 (invert (mapping state)) row col)
  | triangle_up =>
      Batched (batchTriangleCell grid cols spacing maxRadius minScale maxScale
                 (invert (mapping state)) row col)
  | _ => Drawn (renderCell state grid cols row col)
  end.

Definition rasterDraws (state : AppState) (grid : list Q) (cols : Z)
    (row col : Z) : bool :=
  match rasterCell state grid cols row col with
  | Batched [] | Drawn [] => false
  | _ => true
  end.

(** *** The SVG export *)

(** [x.toFixed(digits)] as the number its digits denote: the nearest
    multiple of [10^-digits], ties away from zero. *)
Definition toFixed (digits : nat) (x : Q) : Q :=
  let scale := inject_Z (10 ^ Z.of_nat digits) in
  let n := Qfloor (Qabs x * scale + (1 # 2)) in
  if Qlt_bool x 0 then - (inject_Z n / scale) else inject_Z n / scale.

Inductive SvgElement :=
| SvgOpen (w h : Q)
| SvgBackground (w h : Q) (fill : string)
| SvgCircle (cx cy r : Q) (fill : string)
| SvgRect (x y width height : Q) (fill : string)
| SvgPolygon (points : list (Q * Q)) (fill : string)
| SvgText (x y fontSize : Q) (fill : string) (content : string)
| SvgPath (d : string) (tx ty scale : Q) (fill : string)
| SvgClose.

(** The radius as [toSVG] computes it. *)
Definition svgRadius (grid : list Q) (cols : Z)
    (maxRadius minScale maxScale : Q) (invert : bool) (row col : Z) : Q :=
  let brightness := gridAt grid (row * cols + col) in
  let brightness := if invert then 1 - brightness else brightness in
  let size := minScale + brightness * (maxScale - minScale) in
  let clampedSize := Math_max 0 (Math_min 1 size) in
  maxRadius * clampedSize.

(** The body of the loop of [toSVG] for one cell. *)
Definition svgCell (state : AppState) (grid : list Q) (cols : Z)
    (row col : Z) : list SvgElement :=
  let spacing := density state in
  let maxRadius := spacing * 0.48 in
  let minScale := minSize (mapping state) / 100 in
  let maxScale := maxSize (mapping state) / 100 in
  let fg := foreground (colors state) in
  let r :=
    svgRadius grid cols maxRadius minScale maxScale (invert (mapping state))
      row col in
  if Qlt_bool r 0.3 then []
  else
    let cx := toFixed 1 (inject_Z col * spacing + spacing / 2) in
    let cy := toFixed 1 (inject_Z row * spacing + spacing / 2) in
    let rs := toFixed 1 r in
    match shape state with
    | circle => [SvgCircle cx cy rs fg]
    | square =>
        let x := toFixed 1 (cx - r) in
        let y := toFixed 1 (cy - r) in
        let s := toFixed 1 (r * 2) in
        [SvgRect x y s s fg]
    | triangle_up =>
        let h2 := r * SQRT3 in
        [SvgPolygon [(cx, toFixed 1 (cy - r));
                     (toFixed 1 (cx - h2 / 2), toFixed 1 (cy + r));
                     (toFixed 1 (cx + h2 / 2), toFixed 1 (cy + r))] fg]
    | text =>
        let fontSize := toFixed 1 (r * 2) in
        [SvgText cx cy fontSize fg (customTextChar state)]
    | custom =>
        match customShape (customSvgPath state) (customSvgViewBox state) with
        | Some (pathData, viewBox) =>
            let scale :=
              (r * 2) / Math_max (vb_width viewBox) (vb_height viewBox) in
            let tx := cx - (vb_width viewBox * scale) / 2 in
            let ty := cy - (vb_height viewBox * scale) / 2 in
            [SvgPath pathData (toFixed 1 tx) (toFixed 1 ty) (toFixed 4 scale) fg]
        | None => [SvgCircle cx cy rs fg]
        end
    end.

(** [toSVG], from the brightness grid on: the elements that are joined
    into the document. *)
Definition toSVG (state : AppState) (w h : Q) (grid : list Q) (cols rows : Z)
    : list SvgElement :=
  let elements := [SvgOpen w h; SvgBackground w h (background (colors state))] in
  let elements :=
    forRange rows (fun row elements =>
      forRange cols (fun col elements =>
        elements ++ svgCell state grid cols row col) elements) elements in
  elements ++ [SvgClose].

Definition svgEmits (state : AppState) (grid : list Q) (cols : Z)
    (row col : Z) : bool :=
  match svgCell state grid cols row col with
  | [] => false
  | _ => true
  end.

Definition setInvert (b : bool) (state : AppState) : AppState :=
  mkAppState (shape state) (customSvgPath state) (customSvgViewBox state)
    (customTextChar state) (density state)
    (mkBrightnessMapping b (minSize (mapping state)) (maxSize (mapping state))
       (contrast (mapping state)) (brightness (mapping state)))
    (colors state).

(** *** Example state: glyphs on a grid of spacing 5, sizes from 0 to 20% *)

Definition exGlyphs : AppState :=
  mkAppState text None None "A"%string 5
    (mkBrightnessMapping false 0 20 1 0)
    (mkColorSettings "#000000"%string "#ffffff"%string).

Definition exDiscs : AppState :=
  mkAppState circle None None "*"%string 20
    (mkBrightnessMapping false 0 100 1 0)
    (mkColorSettings "#000000"%string "#ffffff"%string).

Local Close Scope Q_scope.

(** ** objectLoader: mesh parsing *)

(** [for (let i = lo; i < hi; i++) s = body(i, s)] *)
Definition forFromTo {S : Type} (lo hi : Z) (body : Z -> S -> S) (s : S) : S :=
  forRange (hi - lo) (fun k => body (lo + k)) s.

(** A loop whose body may throw: the exception ends it. *)
Definition forRangeM {S : Type} (n : Z) (body : Z -> S -> option S) (s : S)
    : option S :=
  forRange n (fun i acc => acc ≫= body i) (Some s).

(** How the normals of a geometry are given: as an attribute, or left to
    the library's [computeVertexNormals]. *)
Inductive Normals (F : Type) :=
| NormalAttribute (values : list F)
| ComputeVertexNormals.
Arguments NormalAttribute {F} values.
Arguments ComputeVertexNormals {F}.

(** A [BufferGeometry]: flat position triples, normals, and the index
    triples when the geometry is indexed. An index that is [None] is [NaN]. *)
Record BufferGeometry (F : Type) := mkBufferGeometry {
  position : list F;
  normal : Normals F;
  index : option (list (option Z))
}.
Arguments mkBufferGeometry {F} position normal index.
Arguments position {F} b.
Arguments normal {F} b.
Arguments index {F} b.

(** *** Binary STL *)

(** [view.getUint32(byteOffset, true)]: four bytes, least significant
    first; a read outside the buffer raises [RangeError]. *)
Definition getUint32 (buffer : list Z) (byteOffset : Z) : option Z :=
  if byteOffset <? 0 then None
  else
    let o := Z.to_nat byteOffset in
    b0 ← buffer !! o;
    b1 ← buffer !! (o + 1)%nat;
    b2 ← buffer !! (o + 2)%nat;
    b3 ← buffer !! (o + 3)%nat;
    Some (b0 + b1 * 2 ^ 8 + b2 * 2 ^ 16 + b3 * 2 ^ 24).

(** A binary32 number is kept as its 32 bits; [view.getFloat32(byteOffset,
    true)] reads them least significant byte first, and a [Float32Array]
    stores them unchanged. *)
Definition float32 : Type := Z.

Definition getFloat32 (buffer : list Z) (byteOffset : Z) : option float32 :=
  getUint32 buffer byteOffset.

(** The bytes of ["solid"]. *)
Definition solid : list Z := [115; 111; 108; 105; 100].

(** Writing the three components of a triple at [idx], [idx + 1], [idx + 2]. *)
Definition setTriple (a : list float32) (idx : Z) (x y z : float32)
    : list float32 :=
  <[Z.to_nat (idx + 2) := z]>
    (<[Z.to_nat (idx + 1) := y]> (<[Z.to_nat idx := x]> a)).

Section ParseSTL.

(** The textual variant is handed to [parseSTLAscii], a scan by regular
    expressions that the properties below do not depend on. *)
Variable parseSTLAscii : list Z -> BufferGeometry float32.

(** The body of the loop over triangles. *)
Definition stlTriangle (buffer : list Z) (i : Z)
    (arrays : list float32 * list float32)
    : option (list float32 * list float32) :=
  let offset := 84 + i * 50 in
  nx ← getFloat32 buffer offset;
  ny ← getFloat32 buffer (offset + 4);
  nz ← getFloat32 buffer (offset + 8);
  forRangeM 3 (fun v '(vertices, normals) =>
    let vOffset := offset + 12 + v * 12 in
    let idx := i * 9 + v * 3 in
    x ← getFloat32 buffer vOffset;
    y ← getFloat32 buffer (vOffset + 4);
    z ← getFloat32 buffer (vOffset + 8);
    Some (setTriple vertices idx x y z, setTriple normals idx nx ny nz))
    arrays.

Definition parseSTL (buffer : list Z) : option (BufferGeometry float32) :=
  if (length buffer <? 5)%nat then None
  else
    let headerText := take 5 buffer in
    let isAscii := bool_decide (headerText = solid) in
    if isAscii then Some (parseSTLAscii buffer)
    else
      triangleCount ← getUint32 buffer 80;
      let vertices := replicate (Z.to_nat (triangleCount * 9)) 0 in
      let normals := replicate (Z.to_nat (triangleCount * 9)) 0 in
      '(vertices, normals) ←
        forRangeM triangleCount (stlTriangle buffer) (vertices, normals);
      Some (mkBufferGeometry vertices (NormalAttribute normals) None).

End ParseSTL.

(** The positions of the attribute bytes, the last two of each record. *)
Definition attributeByte (count : Z) (j : nat) : Prop :=
  exists i, 0 <= i < count /\
    (Z.of_nat j = 84 + i * 50 + 48 \/ Z.of_nat j = 84 + i * 50 + 49).

(** *** OBJ *)

(** White space as [trim] and [\s] see it, within ASCII. *)
Definition isWhite (c : ascii) : bool :=
  let n := nat_of_ascii c in
  ((n =? 9) || (n =? 10) || (n =? 11) || (n =? 12) || (n =? 13) || (n =? 32))%nat.

Fixpoint dropWhite (s : string) : string :=
  match s with
  | String c rest => if isWhite c then dropWhite rest else s
  | EmptyString => EmptyString
  end.

Fixpoint revString (s acc : string) : string :=
  match s with
  | String c rest => revString rest (String c acc)
  | EmptyString => acc
  end.

(** [s.trim()] *)
Definition trim (s : string) : string :=
  revString (dropWhite (revString (dropWhite s) EmptyString)) EmptyString.

(** [s.split(sep)] for a separator of one character. *)
Fixpoint splitOn (sep : ascii) (s : string) : list string :=
  match s with
  | EmptyString => [EmptyString]
  | String c rest =>
      if Ascii.eqb c sep then EmptyString :: splitOn sep rest
      else match splitOn sep rest with
           | cur :: more => String c cur :: more
           | [] => [String c EmptyString]
           end
  end.

(** [s.split(/\s+/)]: [cur] is the piece being read, reversed, and [inRun]
    tells that a run of white space is being skipped. *)
Fixpoint splitWhite (inRun : bool) (cur : string) (s : string) : list string :=
  match s with
  | EmptyString => [revString cur EmptyString]
  | String c rest =>
      if isWhite c then
        if inRun then splitWhite true cur rest
        else revString cur EmptyString :: splitWhite true EmptyString rest
      else splitWhite false (String c cur) rest
  end.

Definition isDigit (c : ascii) : bool :=
  let n := nat_of_ascii c in ((48 <=? n) && (n <=? 57))%nat.

(** The value of the leading decimal digits of [s], and whether there is
    one at least. *)
Fixpoint leadingDigits (s : string) (acc : Z) (seen : bool) : option Z :=
  match s with
  | String c rest =>
      if isDigit c
      then leadingDigits rest (acc * 10 + Z.of_nat (nat_of_ascii c - 48)) true
      else if seen then Some acc else None
  | EmptyString => if seen then Some acc else None
  end.

(** [parseInt(s, 10)]; [None] is [NaN]. *)
Definition parseInt (s : string) : option Z :=
  match dropWhite s with
  | String "-"%char rest => Z.opp <$> leadingDigits rest 0 false
  | String "+"%char rest => leadingDigits rest 0 false
  | rest => leadingDigits rest 0 false
  end.

(** [idx > 0 ? idx - 1 : tempVerts.length + idx] *)
Definition resolveIndex (vertexCount : nat) (idx : option Z) : option Z :=
  match idx with
  | Some idx => Some (if 0 <? idx then idx - 1 else Z.of_nat vertexCount + idx)
  | None => None
  end.

Section ParseOBJ.

(** Coordinates are read by [parseFloat]; the properties below do not
    interpret them. *)
Variable F : Type.
Variable parseFloat : string -> F.

Record ObjState := mkObjState {
  tempVerts : list (F * F * F);
  tempNormals : list (F * F * F);
  indices : list (option Z)
}.

(** [parts[i]]; the lines below read within the bounds they have tested. *)
Definition part (parts : list string) (i : nat) : string :=
  default EmptyString (parts !! i).

(** The vertex references of a face line, resolved against the vertices
    read so far. *)
Definition faceVertices (vertexCount : nat) (parts : list string)
    : list (option Z) :=
  forFromTo 1 (Z.of_nat (length parts)) (fun i faceVerts =>
    let idx := parseInt (default EmptyString (head (splitOn "/"%char (part parts (Z.to_nat i))))) in
    faceVerts ++ [resolveIndex vertexCount idx]) [].

Definition faceVert (faceVerts : list (option Z)) (i : Z) : option Z :=
  default None (faceVerts !! Z.to_nat i).

(** The fan: triangles [(faceVerts[0], faceVerts[i], faceVerts[i + 1])]. *)
Definition fanTriangles (faceVerts : list (option Z))
    (indices : list (option Z)) : list (option Z) :=
  forFromTo 1 (Z.of_nat (length faceVerts) - 1) (fun i indices =>
    indices ++ [faceVert faceVerts 0; faceVert faceVerts i;
                faceVert faceVerts (i + 1)]) indices.

(** The body of the loop over lines. *)
Definition objLine (st : ObjState) (line : string) : ObjState :=
  let parts := splitWhite false EmptyString (trim line) in
  if String.eqb (part parts 0) "v"%string && (4 <=? length parts)%nat then
    mkObjState
      (tempVerts st ++ [(parseFloat (part parts 1), parseFloat (part parts 2),
                         parseFloat (part parts 3))])
      (tempNormals st) (indices st)
  else if String.eqb (part parts 0) "vn"%string && (4 <=? length parts)%nat then
    mkObjState (tempVerts st)
      (tempNormals st ++ [(parseFloat (part parts 1), parseFloat (part parts 2),
                           parseFloat (part parts 3))])
      (indices st)
  else if String.eqb (part parts 0) "f"%string then
    let faceVerts := faceVertices (length (tempVerts st)) parts in
    mkObjState (tempVerts st) (tempNormals st)
      (fanTriangles faceVerts (indices st))
  else st.

Definition flatten (triples : list (F * F * F)) : list F :=
  triples ≫= (fun '(x, y, z) => [x; y; z]).

Definition parseOBJ (text : string) : BufferGeometry F :=
  let lines := splitOn "010"%char text in
  let st := fold_left objLine lines (mkObjState [] [] []) in
  let vertices := flatten (tempVerts st) in
  let normals :=
    if (0 <? length (tempNormals st))%nat then
      let flatNormals := flatten (tempNormals st) in
      if (length flatNormals =? length vertices)%nat
      then NormalAttribute flatNormals
      else ComputeVertexNormals
    else ComputeVertexNormals in
  mkBufferGeometry vertices normals (Some (indices st)).

End ParseOBJ.

Arguments mkObjState {F} tempVerts tempNormals indices.
Arguments tempVerts {F} o.
Arguments tempNormals {F} o.
Arguments indices {F} o.
Arguments objLine {F} parseFloat st line.
Arguments parseOBJ {F} parseFloat text.

(** A vertex reference resolved: the integer before the first [/], then
    [resolveIndex]. *)
Definition resolveReference (vertexCount : nat) (reference : string)
    : option Z :=
  resolveIndex vertexCount
    (parseInt (default EmptyString (head (splitOn "/"%char reference)))).

(** One triangle of the fan over [faceVerts]. *)
Definition fanTriangle (faceVerts : list (option Z)) (i : nat)
    : list (option Z) :=
  [faceVert faceVerts 0; faceVert faceVerts (Z.of_nat i);
   faceVert faceVerts (Z.of_nat i + 1)].

(** *** Example meshes *)

(** The four bytes of a small number, least significant first. *)
Definition le32 (n : Z) : list Z := [n; 0; 0; 0].

(** A binary STL of one triangle: a header of 80 zero bytes, the count 1,
    the normal [(1, 2, 3)], nine coordinates [4 .. 12] (each number stands
    for the bits of a binary32), and the attribute bytes [0xAA 0xBB]. *)
Definition exStl : list Z :=
  replicate 80 0 ++ le32 1 ++
  (le32 1 ++ le32 2 ++ le32 3) ++
  (le32 4 ++ le32 5 ++ le32 6) ++
  (le32 7 ++ le32 8 ++ le32 9) ++
  (le32 10 ++ le32 11 ++ le32 12) ++ [170; 187].

(** Two vertices are known when the face line is read. *)
Definition exObjState : ObjState string :=
  mkObjState [("0", "0", "0"); ("1", "0", "0")]%string [] [].

Definition exFaceLine : string := "f 1/1/1 2//2 -1 -2  "%string.

(** A buffer holds bytes. *)
Definition bytes (buffer : list Z) : Prop :=
  Forall (fun b => 0 <= b < 256) buffer.

(** ** GifPlayer: what the rest of the engine reads and drives *)

(** [getCurrentFrame]: the composite surface. *)
Definition getCurrentFrame (p : GifPlayer) : Canvas := frameCanvas p.

(** The getter [frameCount]. *)
Definition frameCount (p : GifPlayer) : nat := length (frames p).

(** The render loop calls [advance] once per tick; [nows] are the clock
    readings of successive ticks. *)
Definition advanceAll (blend : Pixel -> Pixel -> Pixel) (nows : list Q)
    (p : GifPlayer) : option GifPlayer :=
  fold_left (fun acc now => acc ≫= advance blend now) nows (Some p).

(** The cells of a grid in the order the loops visit them: row by row,
    each row from its first column. *)
Definition gridCells (rows cols : Z) : list (Z * Z) :=
  flat_map (fun row =>
              map (fun col => (Z.of_nat row, Z.of_nat col))
                (seq 0 (Z.to_nat cols)))
    (seq 0 (Z.to_nat rows)).

(** ** ShapetoneRenderer: the render loop *)

Inductive MediaType := image | video | gif | obj3d.

(** The fields of the renderer that decide whether a tick redraws;
    [mediaType] is [state.mediaType], [animId] is 0 when no frame is
    requested. *)
Record ShapetoneRenderer := mkShapetoneRenderer {
  running : bool;
  dirty : bool;
  animId : Z;
  mediaType : option MediaType
}.

(** [resize]: the backing size follows the container, and the next tick
    redraws. *)
Definition resize (r : ShapetoneRenderer) : ShapetoneRenderer :=
  mkShapetoneRenderer (running r) true (animId r) (mediaType r).

(** [updateState(state)] *)
Definition updateState (newMediaType : option MediaType)
    (r : ShapetoneRenderer) : ShapetoneRenderer :=
  mkShapetoneRenderer (running r) true (animId r) newMediaType.

(** [state.mediaType === 'video' || ... === 'gif' || ... === 'obj3d'] *)
Definition animatedType (t : option MediaType) : bool :=
  match t with
  | Some video | Some gif | Some obj3d => true
  | _ => false
  end.

(** One run of [loop]. [animating] is what [isAnimating()] answers and
    [frameId] the identifier [requestAnimationFrame] returns; the result
    tells whether [render] was called. *)
Definition loop (animating : bool) (frameId : Z) (r : ShapetoneRenderer)
    : ShapetoneRenderer * bool :=
  if negb (running r) then (r, false)
  else if dirty r || animatedType (mediaType r) || animating
  then (mkShapetoneRenderer (running r) false frameId (mediaType r), true)
  else (mkShapetoneRenderer (running r) (dirty r) frameId (mediaType r), false).

(** [start]: the first run of [loop] happens at once. *)
Definition start (animating : bool) (frameId : Z) (r : ShapetoneRenderer)
    : ShapetoneRenderer * bool :=
  loop animating frameId
    (mkShapetoneRenderer true (dirty r) (animId r) (mediaType r)).

(** [stop] *)
Definition stop (r : ShapetoneRenderer) : ShapetoneRenderer :=
  mkShapetoneRenderer false (dirty r) 0 (mediaType r).

(** The ticks of the display, each with the answer of [isAnimating()] and
    the identifier of the next request; the count is the number of calls
    of [render]. *)
Definition runTicks (ticks : list (bool * Z)) (r : ShapetoneRenderer)
    : ShapetoneRenderer * nat :=
  fold_left (fun acc tick =>
               let '(r', rendered) := loop (fst tick) (snd tick) (fst acc) in
               (r', if rendered then S (snd acc) else snd acc))
    ticks (r, 0%nat).

(** ** objectLoader: valid indices *)

(** A vertex reference that names one of the [vertexCount] vertices read so
    far: [1 .. vertexCount] counted from the first, or
    [-vertexCount .. -1] counted from the last. *)
Definition referenceInRange (vertexCount : nat) (reference : string) : Prop :=
  exists k,
    parseInt (default EmptyString (head (splitOn "/"%char reference))) = Some k /\
    (1 <= k <= Z.of_nat vertexCount \/ - Z.of_nat vertexCount <= k <= -1).

(** An index that addresses one of [vertexCount] vertices. *)
Definition indexInRange (vertexCount : nat) (i : option Z) : Prop :=
  exists z, i = Some z /\ 0 <= z < Z.of_nat vertexCount.


(** The face lines of [lines] refer to vertices defined above them: each
    reference of a face line is in range for the vertices read when the
    loop, started in [st], reaches the line. *)
Definition facesReferToEarlierVertices {F : Type} (parseFloat : string -> F)
    (st : ObjState F) (lines : list string) : Prop :=
  forall before line after refs,
    lines = before ++ line :: after ->
    splitWhite false EmptyString (trim line) = "f"%string :: refs ->
    Forall (referenceInRange
              (length (tempVerts (fold_left (objLine parseFloat) before st))))
      refs.

(** A triangle and a square over four vertices; the square is given by
    references counted from the end. *)
Definition exObjText : string :=
  String.concat (String "010"%char EmptyString)
    ["v 0 0 0"; "v 1 0 0"; "v 1 1 0"; "f 1 2 3"; "v 0 1 0";
     "f -4 -3 -2 -1"]%string.


(** ** objectLoader: the loaded object and its rotation *)

(** [s.toLowerCase()], within ASCII. *)
Definition toLowerChar (c : ascii) : ascii :=
  let n := nat_of_ascii c in
  if ((65 <=? n) && (n <=? 90))%nat then ascii_of_nat (n + 32) else c.

Fixpoint toLowerCase (s : string) : string :=
  match s with
  | String c rest => String (toLowerChar c) (toLowerCase rest)
  | EmptyString => EmptyString
  end.

(** [name.split('.').pop()?.toLowerCase()]; [split] returns one piece at
    least, so [pop] always finds one. *)
Definition extension (name : string) : string :=
  toLowerCase (List.last (splitOn "."%char name) EmptyString).

(** A [File]: its name and its content, as [text()] and as
    [arrayBuffer()] give it. *)
Record File := mkFile {
  file_name : string;
  file_text : string;
  file_arrayBuffer : list Z
}.

(** [ROTATION_SPEED] *)
Definition ROTATION_SPEED : Q := 0.005.

Section ObjectLoader.

Variable F : Type.
Variable parseFloat : string -> F.
Variable parseSTLAscii : list Z -> BufferGeometry float32.

(** The geometry of a mesh comes from one of the two parsers. *)
Inductive Geometry :=
| ObjGeometry (g : BufferGeometry F)
| StlGeometry (g : BufferGeometry float32).

(** A [THREE.Mesh] as the module uses it: its geometry, whether it has been
    added to the scene ([parent]), and its rotation about the two axes. *)
Record Mesh := mkMesh {
  geometry : Geometry;
  parent : bool;
  rotation_x : Q;
  rotation_y : Q
}.

(** The variables of the module. The renderer, the lights, the camera and
    the render target are the library's and the browser's; of the scene the
    model keeps whether it has been created. *)
Record ObjectLoader := mkObjectLoader {
  scene : bool;
  currentMesh : option Mesh;
  autoRotationY : Q
}.

(** The module as it is first loaded. *)
Definition initialObjectLoader : ObjectLoader := mkObjectLoader false None 0.

(** [load3DObject(file)]; [None] is a rejected promise, which happens before
    any variable of the module is assigned. *)
Definition load3DObject (file : File) (st : ObjectLoader) : option ObjectLoader :=
  let ext := extension (file_name file) in
  geometry ←
    (if String.eqb ext "obj" then
       Some (ObjGeometry (parseOBJ parseFloat (file_text file)))
     else if String.eqb ext "stl" then
       StlGeometry <$> parseSTL parseSTLAscii (file_arrayBuffer file)
     else None);
  Some (mkObjectLoader (scene st) (Some (mkMesh geometry false 0 0)) 0).

(** What [render3DToCanvas] hands back: the render target, of the size asked
    for, showing the mesh under the rotation just applied. *)
Record Frame3D := mkFrame3D {
  frame_width : Q;
  frame_height : Q;
  frame_geometry : Geometry;
  frame_rotation_x : Q;
  frame_rotation_y : Q
}.

(** [render3DToCanvas(width, height, autoRotate, manualRotX, manualRotY)] *)
Definition render3DToCanvas (width height : Q) (autoRotate : bool)
    (manualRotX manualRotY : Q) (st : ObjectLoader)
    : ObjectLoader * option Frame3D :=
  match currentMesh st with
  | None => (st, None)
  | Some mesh =>
      (* ensureRenderer creates the scene; a mesh without parent is added *)
      let autoRotationY' :=
        if autoRotate then (autoRotationY st + ROTATION_SPEED)%Q
        else autoRotationY st in
      let mesh' := mkMesh (geometry mesh) true manualRotX
                     (autoRotationY' + manualRotY)%Q in
      (mkObjectLoader true (Some mesh') autoRotationY',
       Some (mkFrame3D width height (geometry mesh') (rotation_x mesh')
               (rotation_y mesh')))
  end.

(** [has3DObject()] *)
Definition has3DObject (st : ObjectLoader) : bool :=
  match currentMesh st with Some _ => true | None => false end.

(** [clear3DObject()] *)
Definition clear3DObject (st : ObjectLoader) : ObjectLoader :=
  match currentMesh st with
  | Some _ =>
      if scene st then mkObjectLoader (scene st) None (autoRotationY st)
      else st
  | None => st
  end.

(** [get3DCanvasSize()] *)
Definition get3DCanvasSize : Q * Q := (512, 512)%Q.

(** The arguments of one call of [render3DToCanvas]. *)
Record RenderCall := mkRenderCall {
  call_width : Q;
  call_height : Q;
  call_autoRotate : bool;
  call_manualRotX : Q;
  call_manualRotY : Q
}.

Definition renderCall (c : RenderCall) (st : ObjectLoader)
    : ObjectLoader * option Frame3D :=
  render3DToCanvas (call_width c) (call_height c) (call_autoRotate c)
    (call_manualRotX c) (call_manualRotY c) st.

(** The module after a series of calls of [render3DToCanvas]. *)
Definition renderCalls (calls : list RenderCall) (st : ObjectLoader)
    : ObjectLoader :=
  fold_left (fun st c => fst (renderCall c st)) calls st.

End ObjectLoader.

Arguments ObjGeometry {F} g.
Arguments StlGeometry {F} g.
Arguments mkMesh {F} geometry parent rotation_x rotation_y.
Arguments geometry {F} m.
Arguments parent {F} m.
Arguments rotation_x {F} m.
Arguments rotation_y {F} m.
Arguments mkObjectLoader {F} scene currentMesh autoRotationY.
Arguments scene {F} o.
Arguments currentMesh {F} o.
Arguments autoRotationY {F} o.
Arguments initialObjectLoader {F}.
Arguments load3DObject {F} parseFloat parseSTLAscii file st.
Arguments mkFrame3D {F} frame_width frame_height frame_geometry
  frame_rotation_x frame_rotation_y.
Arguments frame_width {F} f.
Arguments frame_height {F} f.
Arguments frame_geometry {F} f.
Arguments frame_rotation_x {F} f.
Arguments frame_rotation_y {F} f.
Arguments render3DToCanvas {F} width height autoRotate manualRotX manualRotY st.
Arguments has3DObject {F} st.
Arguments clear3DObject {F} st.
Arguments renderCall {F} c st.
Arguments renderCalls {F} calls st.

(** The number of calls that ask for automatic rotation. *)
Definition autoRotateCount (calls : list RenderCall) : nat :=
  length (List.filter call_autoRotate calls).



(** ** CanvasView: zooming and dragging *)

Record ViewTransform := mkViewTransform {
  view_scale : Q;
  view_offsetX : Q;
  view_offsetY : Q
}.

Record Obj3dSettings := mkObj3dSettings {
  autoRotate : bool;
  rotationX : Q;
  rotationY : Q;
  obj3d_bgBrightness : Q
}.

(** The fields of [stateRef.current] that the handlers read and hand back
    through the callbacks [onViewChange], [onMediaTransformChange] and
    [onObj3dChange]; the application stores what a callback receives in the
    field of the same name, and the next event reads it there. *)
Record CanvasState := mkCanvasState {
  canvas_mediaType : option MediaType;
  view : ViewTransform;
  mediaTransform : MediaTransform;
  obj3dSettings : Obj3dSettings
}.

(** The variables the handlers share. *)
Record Pointer := mkPointer {
  bKeyDown : bool;
  isPanning : bool;
  isMediaPanning : bool;
  is3dRotating : bool;
  lastX : Q;
  lastY : Q
}.

(** [handleWheel]; [rectLeft] and [rectTop] are the corner of the canvas's
    bounding rectangle. *)
Definition handleWheel (metaKey : bool)
    (deltaY clientX clientY rectLeft rectTop : Q) (st : CanvasState)
    : CanvasState :=
  if metaKey then
    let mt := mediaTransform st in
    let delta := (if Qlt_bool 0 deltaY then 0.95 else 1.05)%Q in
    let newScale := (Math_max 0.1 (Math_min 20 (mt_scale mt * delta)))%Q in
    mkCanvasState (canvas_mediaType st) (view st)
      (mkMediaTransform newScale (mt_offsetX mt) (mt_offsetY mt)) (obj3dSettings st)
  else
    let v := view st in
    let delta := (if Qlt_bool 0 deltaY then 0.9 else 1.1)%Q in
    let newScale := (Math_max 0.1 (Math_min 10 (view_scale v * delta)))%Q in
    let mx := (clientX - rectLeft)%Q in
    let my := (clientY - rectTop)%Q in
    let newOffsetX :=
      (mx - (mx - view_offsetX v) * (newScale / view_scale v))%Q in
    let newOffsetY :=
      (my - (my - view_offsetY v) * (newScale / view_scale v))%Q in
    mkCanvasState (canvas_mediaType st)
      (mkViewTransform newScale newOffsetX newOffsetY)
      (mediaTransform st) (obj3dSettings st).

Definition isKeyB (key : string) : bool :=
  String.eqb key "b" || String.eqb key "B".

(** [handleKeyDown] and [handleKeyUp] *)
Definition handleKeyDown (key : string) (ptr : Pointer) : Pointer :=
  if isKeyB key
  then mkPointer true (isPanning ptr) (isMediaPanning ptr) (is3dRotating ptr)
         (lastX ptr) (lastY ptr)
  else ptr.

Definition handleKeyUp (key : string) (ptr : Pointer) : Pointer :=
  if isKeyB key
  then mkPointer false (isPanning ptr) (isMediaPanning ptr) (is3dRotating ptr)
         (lastX ptr) (lastY ptr)
  else ptr.

(** [handleMouseDown] *)
Definition handleMouseDown (metaKey : bool) (clientX clientY : Q)
    (st : CanvasState) (ptr : Pointer) : Pointer :=
  if metaKey && bKeyDown ptr &&
     match canvas_mediaType st with Some obj3d => true | _ => false end
  then mkPointer (bKeyDown ptr) (isPanning ptr) (isMediaPanning ptr) true
         clientX clientY
  else if metaKey
  then mkPointer (bKeyDown ptr) (isPanning ptr) true (is3dRotating ptr)
         clientX clientY
  else mkPointer (bKeyDown ptr) true (isMediaPanning ptr) (is3dRotating ptr)
         clientX clientY.

(** [handleMouseMove] *)
Definition handleMouseMove (clientX clientY : Q)
    (s : Pointer * CanvasState) : Pointer * CanvasState :=
  let '(ptr, st) := s in
  let dx := (clientX - lastX ptr)%Q in
  let dy := (clientY - lastY ptr)%Q in
  let ptr' := mkPointer (bKeyDown ptr) (isPanning ptr) (isMediaPanning ptr)
                (is3dRotating ptr) clientX clientY in
  if is3dRotating ptr then
    let o := obj3dSettings st in
    (ptr', mkCanvasState (canvas_mediaType st) (view st) (mediaTransform st)
             (mkObj3dSettings (autoRotate o)
                (rotationX o + dy * 0.01)%Q (rotationY o + dx * 0.01)%Q
                (obj3d_bgBrightness o)))
  else if isMediaPanning ptr then
    let mt := mediaTransform st in
    (ptr', mkCanvasState (canvas_mediaType st) (view st)
             (mkMediaTransform (mt_scale mt) (mt_offsetX mt + dx)%Q
                (mt_offsetY mt + dy)%Q)
             (obj3dSettings st))
  else if isPanning ptr then
    let v := view st in
    (ptr', mkCanvasState (canvas_mediaType st)
             (mkViewTransform (view_scale v) (view_offsetX v + dx)%Q
                (view_offsetY v + dy)%Q)
             (mediaTransform st) (obj3dSettings st))
  else (ptr', st).

(** [handleMouseUp] *)
Definition handleMouseUp (ptr : Pointer) : Pointer :=
  mkPointer (bKeyDown ptr) false false false (lastX ptr) (lastY ptr).

(** A pointer moved through a series of positions. *)
Definition mouseMoves (positions : list (Q * Q)) (s : Pointer * CanvasState)
    : Pointer * CanvasState :=
  fold_left (fun s p => handleMouseMove (fst p) (snd p) s) positions s.

(** A drag: the button goes down at [(x0, y0)], then the pointer moves. *)
Definition drag (metaKey : bool) (x0 y0 : Q) (positions : list (Q * Q))
    (s : Pointer * CanvasState) : Pointer * CanvasState :=
  mouseMoves positions (handleMouseDown metaKey x0 y0 (snd s) (fst s), snd s).

(** No drag is under way. *)
Definition idle (ptr : Pointer) : Prop :=
  isPanning ptr = false /\ isMediaPanning ptr = false /\
  is3dRotating ptr = false.


(** A series of wheel events with the cursor held still: each event has its
    [metaKey] and its [deltaY]. *)
Definition wheels (events : list (bool * Q))
    (clientX clientY rectLeft rectTop : Q) (st : CanvasState) : CanvasState :=
  fold_left (fun st e =>
               handleWheel (fst e) (snd e) clientX clientY rectLeft rectTop st)
    events st.


(** ** objectLoader: textual STL *)

(** The class [[\d.eE+-]]. *)
Definition isNumberChar (c : ascii) : bool :=
  isDigit c || Ascii.eqb c "."%char || Ascii.eqb c "e"%char ||
  Ascii.eqb c "E"%char || Ascii.eqb c "+"%char || Ascii.eqb c "-"%char.

(** A literal at the head of [s]: what follows it. *)
Fixpoint literal (lit s : string) : option string :=
  match lit with
  | EmptyString => Some s
  | String a lit' =>
      match s with
      | String b s' => if Ascii.eqb a b then literal lit' s' else None
      | EmptyString => None
      end
  end.

(** The longest prefix of [s] made of characters of a class, and the
    rest. *)
Fixpoint span (cls : ascii -> bool) (s : string) : string * string :=
  match s with
  | String c rest =>
      if cls c then let '(m, r) := span cls rest in (String c m, r)
      else (EmptyString, s)
  | EmptyString => (EmptyString, EmptyString)
  end.

(** [cls+] at the head of [s]. What follows a [+] in the two patterns
    starts with a character outside the class, or is the end of the
    pattern, so taking the longest run is what the matcher settles on. *)
Definition oneOrMore (cls : ascii -> bool) (s : string)
    : option (string * string) :=
  match span cls s with
  | (EmptyString, _) => None
  | (m, rest) => Some (m, rest)
  end.

(** [\s+([\d.eE+-]+)\s+([\d.eE+-]+)\s+([\d.eE+-]+)]: the three captures and
    what follows the match. *)
Definition threeNumbers (s : string)
    : option ((string * string * string) * string) :=
  '(_, s) ← oneOrMore isWhite s;
  '(a, s) ← oneOrMore isNumberChar s;
  '(_, s) ← oneOrMore isWhite s;
  '(b, s) ← oneOrMore isNumberChar s;
  '(_, s) ← oneOrMore isWhite s;
  '(c, s) ← oneOrMore isNumberChar s;
  Some ((a, b, c), s).

(** [facePattern] and [vertexPattern], tried at the head of [s]. *)
Definition facePattern (s : string)
    : option ((string * string * string) * string) :=
  s ← literal "facet" s;
  '(_, s) ← oneOrMore isWhite s;
  s ← literal "normal" s;
  threeNumbers s.

Definition vertexPattern (s : string)
    : option ((string * string * string) * string) :=
  s ← literal "vertex" s;
  threeNumbers s.

(** The first match of a pattern at or after the head of [s]. *)
Fixpoint search {C : Type} (pattern : string -> option (C * string))
    (s : string) : option (C * string) :=
  match pattern s with
  | Some r => Some r
  | None =>
      match s with
      | String _ rest => search pattern rest
      | EmptyString => None
      end
  end.

(** [pattern.exec(text)] for a pattern with the flag [g]. Its [lastIndex]
    is kept as the part of the text that starts there: a match leaves it
    after the match, a failure puts it back at the start of the text. *)
Definition exec {C : Type} (pattern : string -> option (C * string))
    (text lastIndex : string) : option C * string :=
  match search pattern lastIndex with
  | Some (c, rest) => (Some c, rest)
  | None => (None, text)
  end.

Section ParseSTLAscii.

Variable F : Type.
Variable parseFloat : string -> F.

(** The body of the loop over the three vertices of a facet. *)
Definition stlVertex (text : string) (n : F * F * F)
    (acc : string * list F * list F) : string * list F * list F :=
  let '(vertexLast, vertices, normals) := acc in
  let '(nx, ny, nz) := n in
  match exec vertexPattern text vertexLast with
  | (Some (x, y, z), vertexLast') =>
      (vertexLast', vertices ++ [parseFloat x; parseFloat y; parseFloat z],
       normals ++ [nx; ny; nz])
  | (None, vertexLast') => (vertexLast', vertices, normals)
  end.

(** The loop [while (faceMatch)]; each turn of it moves the [lastIndex] of
    [facePattern] forward, and [fuel] bounds the number of turns. *)
Fixpoint facetLoop (fuel : nat) (text : string)
    (faceMatch : option (string * string * string))
    (faceLast : string) (acc : string * list F * list F)
    : option (list F * list F) :=
  match faceMatch with
  | None => Some (snd (fst acc), snd acc)
  | Some (a, b, c) =>
      match fuel with
      | O => None
      | S fuel' =>
          let n := (parseFloat a, parseFloat b, parseFloat c) in
          let acc' := forRange 3 (fun _ acc => stlVertex text n acc) acc in
          let '(faceMatch', faceLast') := exec facePattern text faceLast in
          facetLoop fuel' text faceMatch' faceLast' acc'
      end
  end.

(** [parseSTLAscii(text)]; the text is not longer than the number of turns
    allowed. *)
Definition parseSTLAscii (text : string) : option (BufferGeometry F) :=
  let '(faceMatch, faceLast) := exec facePattern text text in
  '(vertices, normals) ←
    facetLoop (String.length text) text faceMatch faceLast (text, [], []);
  Some (mkBufferGeometry vertices (NormalAttribute normals) None).

End ParseSTLAscii.

Arguments stlVertex {F} parseFloat text n acc.
Arguments facetLoop {F} parseFloat fuel text faceMatch faceLast acc.
Arguments parseSTLAscii {F} parseFloat text.

(** All the matches of a pattern in [s], from left to right, none
    overlapping another. *)
Fixpoint matchesFrom {C : Type} (pattern : string -> option (C * string))
    (fuel : nat) (s : string) : list C :=
  match fuel with
  | O => []
  | S fuel' =>
      match search pattern s with
      | Some (c, rest) => c :: matchesFrom pattern fuel' rest
      | None => []
      end
  end.

Definition allMatches {C : Type} (pattern : string -> option (C * string))
    (text : string) : list C :=
  matchesFrom pattern (String.length text) text.

(** A small textual mesh: one facet and its three vertices. *)
Definition exStlText : string :=
  String.concat (String "010"%char EmptyString)
    ["solid t"; "facet normal 0 0 1"; " outer loop";
     "  vertex 0 0 0"; "  vertex 1 0 0"; "  vertex 0 1e0 0";
     " endloop"; "endfacet"; "endsolid t"]%string.


(** The [lastIndex] of a pattern after [k] calls of [exec] on [text], and
    what call number [k] (counting from 0) returns. *)
Fixpoint lastIndexAfter {C : Type} (pattern : string -> option (C * string))
    (text : string) (k : nat) : string :=
  match k with
  | O => text
  | S k' => snd (exec pattern text (lastIndexAfter pattern text k'))
  end.

Definition execResult {C : Type} (pattern : string -> option (C * string))
    (text : string) (k : nat) : option C :=
  fst (exec pattern text (lastIndexAfter pattern text k)).


(** The three captures of a match, read by [parseFloat]. *)
Definition captures {F : Type} (parseFloat : string -> F)
    (c : string * string * string) : list F :=
  let '(x, y, z) := c in [parseFloat x; parseFloat y; parseFloat z].


(** ** GifPlayer: the pace of the animation *)

(** The clock readings, among those of the ticks [nows], at which the frame
    shown changes. *)
Fixpoint frameChanges (blend : Pixel -> Pixel -> Pixel) (nows : list Q)
    (p : GifPlayer) : list Q :=
  match nows with
  | [] => []
  | now :: rest =>
      match advance blend now p with
      | Some p' =>
          (if (currentIndex p' =? currentIndex p)%nat then [] else [now])
          ++ frameChanges blend rest p'
      | None => []
      end
  end.

(** Successive readings of a list are [d] apart at least. *)
Fixpoint gapsAtLeast (d : Q) (times : list Q) : Prop :=
  match times with
  | t :: (t' :: _) as rest => (d <= t' - t)%Q /\ gapsAtLeast d rest
  | _ => True
  end.


(** ** Custom shapes: where a point of the path lands *)

(** The canvas point that [translate(tx, ty); scale(s, s);
    translate(tx', ty')] gives to the point [(u, v)] of a filled path. *)
Definition canvasPoint (cmd : DrawCmd) (u v : Q) : option (Q * Q) :=
  match cmd with
  | FillPath2D _ tx ty s tx' ty' =>
      Some (tx + s * (u + tx'), ty + s * (v + ty'))%Q
  | _ => None
  end.

(** The point that [transform="translate(tx,ty) scale(s)"] gives to the
    point [(u, v)] of an exported path. *)
Definition svgPoint (e : SvgElement) (u v : Q) : option (Q * Q) :=
  match e with
  | SvgPath _ tx ty s _ => Some (tx + s * u, ty + s * v)%Q
  | _ => None
  end.

(** A star drawn in a box of 24 by 12 units. *)
Definition exCustom : AppState :=
  mkAppState custom (Some "M0 0L24 6L0 12Z"%string) (Some (mkViewBox 24 12))
    "*"%string 20
    (mapping exDiscs) (colors exDiscs).


(** ** Example animation with delays as the decoder stores them *)

(** Three 1-by-1 frames side by side on a 3-by-1 screen. The decoder never
    stores a delay of 0: these frames carry 100, 50 and 50. The second asks
    for restore-to-background. *)
Definition exRedMs : DecompressedFrame :=
  mkFrame (mkDims 1 1 0 0) [255; 0; 0; 255] 100 1.

Definition exGreenMs : DecompressedFrame :=
  mkFrame (mkDims 1 1 0 1) [0; 255; 0; 255] 50 2.

Definition exBlueMs : DecompressedFrame :=
  mkFrame (mkDims 1 1 0 2) [0; 0; 255; 255] 50 1.

(** The player once loaded at time 0 (frame 0 shown), and after its first
    step at time 1000 (frame 1 shown). *)
Definition exWide0 : GifPlayer :=
  default newGifPlayer
    (load exBlend [exRedMs; exGreenMs; exBlueMs] 3 1 0 newGifPlayer).

Definition exWide1 : GifPlayer :=
  default newGifPlayer (advance exBlend 1000 exWide0).

(* ================================================================== *)
(** * Part II. Properties                                              *)
(* ================================================================== *)

Example exLoaded_state :
  fmap (fun p => (currentIndex p, cv_px (frameCanvas p) 0 0,
                  cv_px (frameCanvas p) 1 0)) exLoaded
  = Some (0%nat, (255, 0, 0, 255), transparent).
Proof. vm_compute. reflexivity. Qed.

(** ** GifPlayer: rendering a frame *)

Lemma typedArraySet_same_length (target source : list Z) :
  length source = length target -> typedArraySet target source = Some source.
Proof.
  intros Hlen. unfold typedArraySet.
  rewrite Hlen, Nat.leb_refl, drop_all. now rewrite app_nil_r.
Qed.

Lemma createImageData_pos (w h : Z) :
  0 < w -> 0 < h ->
  createImageData w h =
    Some (mkImageData w h (replicate (Z.to_nat (4 * w * h)) 0)).
Proof.
  intros Hw Hh. unfold createImageData.
  destruct (Z.eqb_spec w 0); [lia|]. destruct (Z.eqb_spec h 0); [lia|].
  simpl. now rewrite !Z.abs_eq by lia.
Qed.

Lemma patchScratch_wf (p : GifPlayer) (w h : Z) :
  0 < w -> 0 < h -> cache_ok p ->
  exists pc d,
    patchScratch p w h = Some (pc, d) /\
    id_width d = w /\ id_height d = h /\
    length (id_data d) = Z.to_nat (4 * w * h) /\
    cv_width pc = w /\ cv_height pc = h.
Proof.
  intros Hw Hh Hc. unfold patchScratch, cache_ok in *.
  destruct (cachedPatchData p) as [d|].
  - destruct (Z.eqb_spec (cachedPatchW p) w) as [Ew|Ew];
      destruct (Z.eqb_spec (cachedPatchH p) h) as [Eh|Eh]; simpl;
      rewrite ?createImageData_pos by assumption; simpl;
      try (eexists _, _; split; [reflexivity|]; simpl;
           rewrite ?length_replicate; tauto).
    subst w h. exists (patchCanvas p), d. tauto.
  - rewrite createImageData_pos by assumption. simpl.
    eexists _, _; split; [reflexivity|]; simpl.
    rewrite length_replicate; tauto.
Qed.

Lemma disposePrevious_size (p : GifPlayer) (index : nat) (fc : Canvas) :
  disposePrevious p index = Some fc ->
  cv_width fc = cv_width (frameCanvas p) /\
  cv_height fc = cv_height (frameCanvas p).
Proof.
  unfold disposePrevious.
  destruct (0 <? index)%nat; [|intros [= <-]; auto].
  destruct (frames p !! (index - 1)%nat) as [prev|]; simpl; [|discriminate].
  destruct (disposalType prev =? 2); intros [= <-]; auto.
Qed.

Lemma disposePrevious_total (p : GifPlayer) (index : nat) :
  (index < length (frames p))%nat ->
  exists fc, disposePrevious p index = Some fc.
Proof.
  intros Hlt. unfold disposePrevious.
  destruct (0 <? index)%nat; [|eauto].
  destruct (lookup_lt_is_Some_2 (frames p) (index - 1)%nat) as [prev ->]; [lia|].
  simpl. destruct (disposalType prev =? 2); eauto.
Qed.

Lemma inRect_pos (l t w h x y : Z) :
  0 < w -> 0 < h ->
  inRect l t w h x y = true <-> l <= x < l + w /\ t <= y < t + h.
Proof.
  intros Hw Hh. unfold inRect.
  rewrite !andb_true_iff, !Z.leb_le, !Z.ltb_lt. lia.
Qed.

(** What [renderFrame] does to a well-formed player: it returns, keeps the
    sequence and the clock, and every pixel of the composite surface is the
    frame's patch painted over the surface [disposePrevious] left. *)
Lemma renderFrame_wf (blend : Pixel -> Pixel -> Pixel) (p : GifPlayer)
    (index : nat) (frame : DecompressedFrame) :
  Forall wf_frame (frames p) -> cache_ok p ->
  frames p !! index = Some frame ->
  exists p' fc,
    renderFrame blend index p = Some p' /\
    disposePrevious p index = Some fc /\
    frames p' = frames p /\ currentIndex p' = currentIndex p /\
    lastFrameTime p' = lastFrameTime p /\ cache_ok p' /\
    cv_width (frameCanvas p') = cv_width (frameCanvas p) /\
    cv_height (frameCanvas p') = cv_height (frameCanvas p) /\
    forall x y,
      cv_px (frameCanvas p') x y =
      paintFrame blend (cv_width (frameCanvas p)) (cv_height (frameCanvas p))
        frame (cv_px fc x y) x y.
Proof.
  intros Hfs Hc Hfr.
  assert (Hwf : wf_frame frame).
  { rewrite Forall_lookup in Hfs. exact (Hfs _ _ Hfr). }
  destruct Hwf as (Hw & Hh & Hlen).
  destruct (patchScratch_wf p _ _ Hw Hh Hc)
    as (pc & d & Hps & Hdw & Hdh & Hdl & Hpw & Hph).
  destruct (disposePrevious_total p index) as [fc Hfc].
  { apply lookup_lt_is_Some_1; eauto. }
  destruct (disposePrevious_size _ _ _ Hfc) as [Hfw Hfh].
  unfold renderFrame. rewrite Hfr. simpl. rewrite Hps. simpl.
  rewrite typedArraySet_same_length by congruence. simpl.
  rewrite Hfc. simpl. eexists _, fc.
  split; [reflexivity|]. simpl.
  repeat (split; [first [reflexivity | assumption]|]).
  split.
  { unfold cache_ok. simpl. rewrite Hdw, Hdh. auto. }
  split; [assumption|]. split; [assumption|].
  intros x y. unfold paintFrame, inCanvas. rewrite Hpw, Hph, Hfw, Hfh.
  destruct (inRect 0 0 (cv_width (frameCanvas p)) (cv_height (frameCanvas p)) x y);
    simpl; [|reflexivity].
  destruct (inRect (dims_left (dims frame)) (dims_top (dims frame))
              (dims_width (dims frame)) (dims_height (dims frame)) x y) eqn:Hin;
    [|reflexivity].
  apply inRect_pos in Hin; [|assumption..].
  rewrite Hdw, Hdh.
  assert (Hin' : inRect 0 0 (dims_width (dims frame)) (dims_height (dims frame))
                   (x - dims_left (dims frame)) (y - dims_top (dims frame)) = true).
  { apply inRect_pos; [assumption..|]. lia. }
  rewrite Hin'. simpl.
  unfold framePixel. now rewrite !Z.sub_0_r.
Qed.

(** ** GifPlayer: stepping the sequencer *)

Lemma advance_static (blend : Pixel -> Pixel -> Pixel) (now : Q) (p : GifPlayer) :
  (length (frames p) <= 1)%nat -> advance blend now p = Some p.
Proof.
  intros Hle. unfold advance.
  destruct (Nat.leb_spec (length (frames p)) 1); [reflexivity|lia].
Qed.

Lemma advance_wait (blend : Pixel -> Pixel -> Pixel) (now : Q) (p : GifPlayer)
    (frame : DecompressedFrame) :
  frames p !! currentIndex p = Some frame ->
  (now - lastFrameTime p < inject_Z (frameDelay frame))%Q ->
  advance blend now p = Some p.
Proof.
  intros Hfr Hlt. unfold advance.
  destruct (length (frames p) <=? 1)%nat; [reflexivity|].
  rewrite Hfr. simpl.
  destruct (Qle_bool (inject_Z (frameDelay frame)) (now - lastFrameTime p)) eqn:E;
    [|reflexivity].
  apply Qle_bool_iff in E. exfalso. exact (Qlt_not_le _ _ Hlt E).
Qed.

(** A due step of a well-formed player with several frames: the target is
    the next index modulo the frame count, the target frame is painted over
    the surface [disposePrevious] leaves, and the clock is reset to [now]. *)
Lemma advance_due (blend : Pixel -> Pixel -> Pixel) (now : Q) (p : GifPlayer)
    (frame : DecompressedFrame) :
  wf_player p -> (1 < length (frames p))%nat ->
  frames p !! currentIndex p = Some frame ->
  (inject_Z (frameDelay frame) <= now - lastFrameTime p)%Q ->
  let next := ((currentIndex p + 1) mod length (frames p))%nat in
  exists p' target fc,
    advance blend now p = Some p' /\
    frames p !! next = Some target /\
    disposePrevious p next = Some fc /\
    currentIndex p' = next /\ lastFrameTime p' = now /\
    frames p' = frames p /\ wf_player p' /\
    forall x y,
      cv_px (frameCanvas p') x y =
      paintFrame blend (cv_width (frameCanvas p)) (cv_height (frameCanvas p))
        target (cv_px fc x y) x y.
Proof.
  intros (Hfs & Hidx & Hc) Hlen Hfr Hdue next.
  assert (Hnext : (next < length (frames p))%nat).
  { apply Nat.mod_upper_bound. lia. }
  destruct (lookup_lt_is_Some_2 _ _ Hnext) as [target Htarget].
  destruct (renderFrame_wf blend (setCurrentIndex next p) next target)
    as (p2 & fc & Hr & Hd & Hf2 & Hi2 & Ht2 & Hc2 & Hw2 & Hh2 & Hpx);
    [exact Hfs | exact Hc | exact Htarget |].
  exists (setLastFrameTime now p2), target, fc.
  split.
  { unfold advance.
    destruct (Nat.leb_spec (length (frames p)) 1); [lia|].
    rewrite Hfr. simpl.
    apply Qle_bool_iff in Hdue. rewrite Hdue.
    change (currentIndex (setCurrentIndex _ p)) with next.
    fold next. rewrite Hr. reflexivity. }
  split; [exact Htarget|]. split; [exact Hd|].
  simpl in *. repeat (split; [first [assumption | reflexivity]|]).
  split.
  { unfold wf_player, cache_ok in *. simpl. rewrite Hf2, Hi2. auto. }
  exact Hpx.
Qed.

Lemma advance_wf (blend : Pixel -> Pixel -> Pixel) (now : Q) (p p' : GifPlayer) :
  wf_player p -> advance blend now p = Some p' -> wf_player p'.
Proof.
  intros Hwf Hadv.
  destruct (Nat.leb_spec (length (frames p)) 1) as [Hle|Hgt].
  { rewrite advance_static in Hadv by assumption. now injection Hadv as <-. }
  destruct (lookup_lt_is_Some_2 (frames p) (currentIndex p)) as [frame Hfr].
  { apply Hwf. }
  destruct (Qlt_le_dec (now - lastFrameTime p) (inject_Z (frameDelay frame)))
    as [Hlt|Hdue].
  - rewrite (advance_wait _ _ _ _ Hfr Hlt) in Hadv. now injection Hadv as <-.
  - destruct (advance_due blend now p frame Hwf Hgt Hfr Hdue)
      as (q & ? & ? & Hq & _ & _ & _ & _ & _ & Hwq & _).
    rewrite Hq in Hadv. now injection Hadv as <-.
Qed.

Lemma exPlayer0_wf : wf_player exPlayer0.
Proof.
  unfold wf_player, cache_ok. vm_compute.
  repeat split; try discriminate; repeat constructor.
Qed.

Lemma exPlayer1_wf : wf_player exPlayer1.
Proof.
  apply (advance_wf exBlend 100 exPlayer0); [exact exPlayer0_wf|].
  vm_compute. reflexivity.
Qed.

Lemma exPlayerRev_wf : wf_player exPlayerRev.
Proof.
  unfold wf_player, cache_ok. vm_compute.
  repeat split; try discriminate; repeat constructor.
Qed.

Lemma exWide0_wf : wf_player exWide0.
Proof.
  unfold wf_player, cache_ok. vm_compute.
  repeat split; try discriminate; repeat constructor.
Qed.

Lemma exWide1_wf : wf_player exWide1.
Proof.
  apply (advance_wf exBlend 1000 exWide0); [exact exWide0_wf|].
  vm_compute. reflexivity.
Qed.




(** C4 (amended). Compositing the frame at an index greater than 0: when
    the frame listed before it asks for restore-to-background (disposal 2),
    that frame's rectangle is cleared on the composite surface and the new
    patch is painted over the result; for any other disposal the prior
    pixels stay and the new patch is painted over them. Compositing frame 0
    clears nothing. *)
Theorem renderFrame_disposal (blend : Pixel -> Pixel -> Pixel) (p : GifPlayer)
    (index : nat) (frame : DecompressedFrame) :
  Forall wf_frame (frames p) -> cache_ok p ->
  frames p !! index = Some frame ->
  exists p',
    renderFrame blend index p = Some p' /\
    (forall prev, (0 < index)%nat -> frames p !! (index - 1)%nat = Some prev ->
       forall x y,
         cv_px (frameCanvas p') x y =
         paintFrame blend (cv_width (frameCanvas p)) (cv_height (frameCanvas p))
           frame
           (if disposalType prev =? 2
            then clearFrame prev (cv_px (frameCanvas p) x y) x y
            else cv_px (frameCanvas p) x y) x y) /\
    (index = 0%nat ->
       forall x y,
         cv_px (frameCanvas p') x y =
         paintFrame blend (cv_width (frameCanvas p)) (cv_height (frameCanvas p))
           frame (cv_px (frameCanvas p) x y) x y).
Proof.
  intros Hfs Hc Hfr.
  destruct (renderFrame_wf blend p index frame Hfs Hc Hfr)
    as (p' & fc & Hr & Hd & _ & _ & _ & _ & _ & _ & Hpx).
  exists p'. split; [exact Hr|]. split.
  - intros prev Hpos Hprev x y. rewrite Hpx.
    unfold disposePrevious in Hd.
    destruct (Nat.ltb_spec 0 index); [|lia].
    rewrite Hprev in Hd. simpl in Hd.
    destruct (disposalType prev =? 2); injection Hd as <-; reflexivity.
  - intros -> x y. rewrite Hpx.
    unfold disposePrevious in Hd. simpl in Hd.
    injection Hd as <-. reflexivity.
Qed.

Lemma renderFrame_disposal_witness :
  exists p',
    renderFrame exBlend 1 exPlayerRev = Some p' /\
    cv_px (frameCanvas exPlayerRev) 1 0 = (0, 255, 0, 255) /\
    cv_px (frameCanvas p') 1 0 = transparent /\
    cv_px (frameCanvas p') 0 0 = (255, 0, 0, 255).
Proof.
  destruct (renderFrame_disposal exBlend exPlayerRev 1 exRed
              (proj1 exPlayerRev_wf) (proj2 (proj2 exPlayerRev_wf)) eq_refl)
    as (p' & Hr & Hpos & _).
  exists p'. split; [exact Hr|]. split; [reflexivity|].
  split; rewrite (Hpos exGreen); try reflexivity; lia.
Defined.

(** Counterexample to C4 as stated: in the example the last frame asks for
    restore-to-background; when the sequencer wraps to frame 0 the pixel
    [(1, 0)] of the last frame's rectangle keeps its colour, where the
    specification clears it. *)
Lemma composite_spec_fails_at_wrap :
  ~ (forall now p p' prev next x y,
       wf_player p ->
       frames p !! currentIndex p = Some prev ->
       frames p !! ((currentIndex p + 1) mod length (frames p))%nat = Some next ->
       advance exBlend now p = Some p' ->
       currentIndex p' <> currentIndex p ->
       cv_px (frameCanvas p') x y =
       composite_spec exBlend (frameCanvas p) prev next x y).
Proof.
  intros H.
  specialize (H 200%Q exPlayer1
                (default newGifPlayer (advance exBlend 200 exPlayer1))
                exGreen exRed 1 0 exPlayer1_wf eq_refl eq_refl eq_refl).
  assert (Hne : currentIndex (default newGifPlayer (advance exBlend 200 exPlayer1))
                <> currentIndex exPlayer1) by (vm_compute; discriminate).
  specialize (H Hne). vm_compute in H. discriminate.
Qed.

(** C10. When [advance] wraps from the last frame to frame 0 no disposal is
    applied: whatever the disposal mode of the last frame, every pixel of
    the composite surface is frame 0's patch painted over the pixel that
    was there, and the pixels outside frame 0's rectangle are unchanged. *)
Theorem advance_wrap_no_disposal (blend : Pixel -> Pixel -> Pixel) (now : Q)
    (p : GifPlayer) (last first : DecompressedFrame) :
  wf_player p -> (1 < length (frames p))%nat ->
  currentIndex p = (length (frames p) - 1)%nat ->
  frames p !! currentIndex p = Some last ->
  frames p !! 0%nat = Some first ->
  (inject_Z (frameDelay last) <= now - lastFrameTime p)%Q ->
  exists p',
    advance blend now p = Some p' /\ currentIndex p' = 0%nat /\
    (forall x y,
       cv_px (frameCanvas p') x y =
       paintFrame blend (cv_width (frameCanvas p)) (cv_height (frameCanvas p))
         first (cv_px (frameCanvas p) x y) x y) /\
    (forall x y,
       inRect (dims_left (dims first)) (dims_top (dims first))
         (dims_width (dims first)) (dims_height (dims first)) x y = false ->
       cv_px (frameCanvas p') x y = cv_px (frameCanvas p) x y).
Proof.
  intros Hwf Hlen Hlast Hfr Hfirst Hdue.
  destruct (advance_due blend now p last Hwf Hlen Hfr Hdue)
    as (p' & target & fc & Hadv & Htarget & Hd & Hidx & _ & _ & _ & Hpx).
  assert (Hnext : ((currentIndex p + 1) mod length (frames p))%nat = 0%nat).
  { rewrite Hlast. replace (length (frames p) - 1 + 1)%nat with (length (frames p)) by lia.
    apply Nat.Div0.mod_same. }
  rewrite Hnext in *.
  assert (target = first) as -> by congruence.
  unfold disposePrevious in Hd. simpl in Hd. injection Hd as <-.
  exists p'. split; [exact Hadv|]. split; [exact Hidx|]. split; [exact Hpx|].
  intros x y Hout. rewrite Hpx. unfold paintFrame.
  rewrite Hout, andb_false_r. reflexivity.
Qed.

Lemma advance_wrap_no_disposal_witness :
  disposalType exGreen = 2 /\
  exists p',
    advance exBlend 200 exPlayer1 = Some p' /\ currentIndex p' = 0%nat /\
    cv_px (frameCanvas p') 1 0 = (0, 255, 0, 255).
Proof.
  split; [reflexivity|].
  destruct (advance_wrap_no_disposal exBlend 200 exPlayer1 exGreen exRed
              exPlayer1_wf) as (p' & Hadv & Hidx & _ & Hout).
  - vm_compute. lia.
  - reflexivity.
  - reflexivity.
  - reflexivity.
  - vm_compute. discriminate.
  - exists p'. split; [exact Hadv|]. split; [exact Hidx|].
    rewrite (Hout 1 0); reflexivity.
Defined.

(** ** Loops: an invariant rule *)

Lemma forRange_nonpos {S : Type} (n : Z) (body : Z -> S -> S) (s : S) :
  n <= 0 -> forRange n body s = s.
Proof.
  intros Hn. unfold forRange.
  replace (Z.to_nat n) with 0%nat by lia. reflexivity.
Qed.

Lemma forRange_succ {S : Type} (n : Z) (body : Z -> S -> S) (s : S) :
  0 <= n -> forRange (n + 1) body s = body n (forRange n body s).
Proof.
  intros Hn. unfold forRange.
  replace (Z.to_nat (n + 1)) with (Datatypes.S (Z.to_nat n)) by lia.
  rewrite seq_S, fold_left_app. simpl. now rewrite Z2Nat.id by lia.
Qed.

(** An invariant that holds before the loop and is kept by each iteration
    holds after it. *)
Lemma forRange_invariant {S : Type} (P : Z -> S -> Prop) (n : Z)
    (body : Z -> S -> S) (s : S) :
  0 <= n -> P 0 s ->
  (forall i t, 0 <= i < n -> P i t -> P (i + 1) (body i t)) ->
  P n (forRange n body s).
Proof.
  intros Hn H0 Hstep.
  assert (H : forall k, 0 <= k -> k <= n -> P k (forRange k body s)).
  { intros k Hk. pattern k. apply natlike_ind; [| |exact Hk].
    - intros _. now rewrite forRange_nonpos by lia.
    - intros i Hi IH Hle. unfold Z.succ. rewrite forRange_succ by lia.
      apply Hstep; [lia|]. apply IH. lia. }
  apply H; lia.
Qed.

(** ** The row-major fill of the grid buffer *)

Lemma cell_index_lt (rows cols row col : Z) :
  0 <= row < rows -> 0 <= col < cols ->
  (Z.to_nat (row * cols + col) < Z.to_nat (cols * rows))%nat.
Proof. intros Hr Hc. apply Z2Nat.inj_lt; nia. Qed.

Lemma cell_index_inj (cols row col row' col' : Z) :
  0 <= row -> 0 <= col < cols -> 0 <= row' -> 0 <= col' < cols ->
  Z.to_nat (row * cols + col) = Z.to_nat (row' * cols + col') ->
  row = row' /\ col = col'.
Proof.
  intros Hr Hc Hr' Hc' E. apply Z2Nat.inj in E; [|nia..].
  assert (Hrow : row = row').
  { apply (f_equal (fun z => z / cols)) in E.
    rewrite !Z.div_add_l, !Z.div_small in E by lia. lia. }
  subst row'. split; [reflexivity|lia].
Qed.

(** After the two loops every cell holds the value computed for it, whatever
    the buffer held before. *)
Lemma fill_lookup (f : Z -> Z -> Q) (rows cols : Z) (buffer : list Q) :
  0 <= rows -> 0 <= cols -> length buffer = Z.to_nat (cols * rows) ->
  let filled :=
    forRange rows (fun row g =>
      forRange cols (fun col g =>
        <[Z.to_nat (row * cols + col) := f row col]> g) g) buffer in
  length filled = Z.to_nat (cols * rows) /\
  forall row col, 0 <= row < rows -> 0 <= col < cols ->
    filled !! Z.to_nat (row * cols + col) = Some (f row col).
Proof.
  intros Hrows Hcols Hlen filled. subst filled.
  apply (forRange_invariant
    (fun k g => length g = Z.to_nat (cols * rows) /\
       forall row col, 0 <= row < k -> 0 <= col < cols ->
         g !! Z.to_nat (row * cols + col) = Some (f row col))).
  - exact Hrows.
  - split; [exact Hlen|]. intros; lia.
  - intros k g Hk [Hg Hdone].
    set (inner := forRange cols _ g).
    assert (Hinner : length inner = Z.to_nat (cols * rows) /\
         (forall row col, 0 <= row < k -> 0 <= col < cols ->
            inner !! Z.to_nat (row * cols + col) = Some (f row col)) /\
         (forall col, 0 <= col < cols ->
            inner !! Z.to_nat (k * cols + col) = Some (f k col))).
    { subst inner.
      apply (forRange_invariant
        (fun j g' => length g' = Z.to_nat (cols * rows) /\
           (forall row col, 0 <= row < k -> 0 <= col < cols ->
              g' !! Z.to_nat (row * cols + col) = Some (f row col)) /\
           (forall col, 0 <= col < j ->
              g' !! Z.to_nat (k * cols + col) = Some (f k col)))).
      - exact Hcols.
      - split; [exact Hg|]. split; [exact Hdone|]. intros; lia.
      - intros j g' Hj (Hg' & Hprev & Hrow).
        split; [now rewrite length_insert|]. split.
        + intros row col Hrow' Hcol. rewrite list_lookup_insert_ne.
          { apply Hprev; assumption. }
          intros E. apply cell_index_inj in E; lia.
        + intros col Hcol. destruct (Z.eq_dec col j) as [->|Hne].
          { rewrite list_lookup_insert_eq; [reflexivity|].
            rewrite Hg'. apply cell_index_lt; lia. }
          rewrite list_lookup_insert_ne.
          { apply Hrow; lia. }
          intros E. apply cell_index_inj in E; lia. }
    destruct Hinner as (Hg' & Hprev & Hrow).
    split; [exact Hg'|]. intros row col Hrow' Hcol.
    destruct (Z.eq_dec row k) as [->|Hne]; [apply Hrow; lia|].
    apply Hprev; lia.
Qed.

(** ** computeBrightnessGrid: the grid cell by cell *)

Lemma Qceiling_nonneg (q : Q) : (0 <= q)%Q -> 0 <= Qceiling q.
Proof.
  intros Hq. change 0 with (Qceiling (inject_Z 0)) at 1.
  now apply Qceiling_resp_le.
Qed.

Lemma Qdiv_nonneg (a b : Q) : (0 <= a)%Q -> (0 < b)%Q -> (0 <= a / b)%Q.
Proof.
  intros Ha Hb. apply Qle_shift_div_l; [exact Hb|].
  now rewrite Qmult_0_l.
Qed.

Lemma getGridBuffer_ok (cache : GridCache) (size : Z) :
  gridCache_ok cache -> 0 <= size ->
  exists buffer cache1,
    getGridBuffer cache size = Some (buffer, cache1) /\
    length buffer = Z.to_nat size /\ cachedGridSize cache1 = size.
Proof.
  intros Hc Hs. unfold getGridBuffer, gridCache_ok in *.
  destruct (Z.ltb_spec size 0); [lia|].
  destruct (cachedGrid cache) as [g|].
  - destruct (Z.eqb_spec (cachedGridSize cache) size) as [E|E]; simpl.
    + exists g, cache. rewrite <- E. auto.
    + eexists _, _. split; [reflexivity|]. simpl.
      now rewrite length_replicate.
  - eexists _, _. split; [reflexivity|]. simpl.
    now rewrite length_replicate.
Qed.

(** On a viewport of non-negative extent with a positive spacing the
    function returns, the grid has [cols * rows] entries, and entry
    [row * cols + col] is the value computed for cell [(row, col)]. *)
Lemma computeBrightnessGrid_cells (cache : GridCache) (media : MediaElement)
    (canvasWidth canvasHeight spacing contrast brightness : Q)
    (mediaTransform : option MediaTransform) (bgBrightness : Q) :
  gridCache_ok cache ->
  (0 < spacing)%Q -> (0 <= canvasWidth)%Q -> (0 <= canvasHeight)%Q ->
  exists res cache',
    computeBrightnessGrid cache media canvasWidth canvasHeight spacing
      contrast brightness mediaTransform bgBrightness = Some (res, cache') /\
    gridCache_ok cache' /\
    0 <= cols res /\ 0 <= rows res /\
    length (grid res) = Z.to_nat (cols res * rows res) /\
    forall row col, 0 <= row < rows res -> 0 <= col < cols res ->
      grid res !! Z.to_nat (row * cols res + col) =
      Some (cellValue media canvasWidth canvasHeight spacing contrast
              brightness mediaTransform bgBrightness row col).
Proof.
  intros Hc Hs Hw Hh. unfold computeBrightnessGrid, cellValue.
  destruct (getMediaSize media) as [mediaW mediaH]. simpl fst. simpl snd.
  destruct ((mediaW =? 0) || (mediaH =? 0)).
  { eexists _, _. split; [reflexivity|]. simpl.
    repeat split; try lia; try assumption. }
  destruct (transformedArea mediaW mediaH canvasWidth canvasHeight mediaTransform)
    as [[[fx fy] sw] sh] eqn:Harea.
  set (nc := Qceiling (canvasWidth / spacing)).
  set (nr := Qceiling (canvasHeight / spacing)).
  assert (Hnc : 0 <= nc) by (apply Qceiling_nonneg, Qdiv_nonneg; assumption).
  assert (Hnr : 0 <= nr) by (apply Qceiling_nonneg, Qdiv_nonneg; assumption).
  destruct (getGridBuffer_ok cache (nc * nr) Hc) as (buffer & cache1 & Hb & Hlen & Hsz);
    [nia|].
  rewrite Hb. simpl.
  destruct (fill_lookup
              (sampleCell (mediaPixels media) mediaW mediaH (fx, fy, sw, sh)
                 spacing contrast brightness bgBrightness)
              nr nc buffer Hnr Hnc Hlen) as [Hfl Hcells].
  eexists _, _. split; [reflexivity|]. simpl.
  split; [unfold gridCache_ok; simpl; now rewrite Hsz|].
  split; [exact Hnc|]. split; [exact Hnr|].
  split; [exact Hfl|]. exact Hcells.
Qed.

(** Each position of the grid is the index of a cell. *)
Lemma grid_position_is_cell (rows cols : Z) (i : nat) :
  0 <= rows -> 0 <= cols -> (i < Z.to_nat (cols * rows))%nat ->
  exists row col, 0 <= row < rows /\ 0 <= col < cols /\
    i = Z.to_nat (row * cols + col).
Proof.
  intros Hr Hc Hi.
  assert (Hcpos : 0 < cols) by nia.
  exists (Z.of_nat i / cols), (Z.of_nat i mod cols).
  pose proof (Z.mod_pos_bound (Z.of_nat i) cols Hcpos) as Hmod.
  pose proof (Z.div_mod (Z.of_nat i) cols ltac:(lia)) as Hdm.
  assert (Hdiv : 0 <= Z.of_nat i / cols) by (apply Z.div_pos; lia).
  assert (Hi' : Z.of_nat i < cols * rows) by lia.
  assert (Hrow : Z.of_nat i / cols < rows)
    by (apply Z.div_lt_upper_bound; lia).
  repeat split; lia.
Qed.

(** The grid does not depend on what the cached buffer held. *)
Lemma computeBrightnessGrid_cache_independent (cache1 cache2 : GridCache)
    (media : MediaElement)
    (canvasWidth canvasHeight spacing contrast brightness : Q)
    (mediaTransform : option MediaTransform) (bgBrightness : Q) :
  gridCache_ok cache1 -> gridCache_ok cache2 ->
  (0 < spacing)%Q -> (0 <= canvasWidth)%Q -> (0 <= canvasHeight)%Q ->
  fst <$> computeBrightnessGrid cache1 media canvasWidth canvasHeight spacing
            contrast brightness mediaTransform bgBrightness =
  fst <$> computeBrightnessGrid cache2 media canvasWidth canvasHeight spacing
            contrast brightness mediaTransform bgBrightness.
Proof.
  intros Hc1 Hc2 Hs Hw Hh.
  destruct (computeBrightnessGrid_cells cache1 media canvasWidth canvasHeight
              spacing contrast brightness mediaTransform bgBrightness
              Hc1 Hs Hw Hh) as (r1 & c1 & E1 & _ & Hnc1 & Hnr1 & Hl1 & Hcell1).
  destruct (computeBrightnessGrid_cells cache2 media canvasWidth canvasHeight
              spacing contrast brightness mediaTransform bgBrightness
              Hc2 Hs Hw Hh) as (r2 & c2 & E2 & _ & Hnc2 & Hnr2 & Hl2 & Hcell2).
  rewrite E1, E2. simpl. f_equal.
  assert (Hsame : cols r1 = cols r2 /\ rows r1 = rows r2 /\
                  imgOffsetX r1 = imgOffsetX r2 /\ imgOffsetY r1 = imgOffsetY r2 /\
                  imgDrawWidth r1 = imgDrawWidth r2 /\
                  imgDrawHeight r1 = imgDrawHeight r2).
  { unfold computeBrightnessGrid in E1, E2.
    destruct (getMediaSize media) as [mediaW mediaH].
    destruct ((mediaW =? 0) || (mediaH =? 0)).
    { injection E1 as <- _. injection E2 as <- _. simpl. tauto. }
    destruct (transformedArea mediaW mediaH canvasWidth canvasHeight mediaTransform)
      as [[[fx fy] sw] sh].
    destruct (getGridBuffer cache1 _) as [[b1 k1]|]; [|discriminate].
    destruct (getGridBuffer cache2 _) as [[b2 k2]|]; [|discriminate].
    simpl in E1, E2. injection E1 as <- _. injection E2 as <- _. simpl. tauto. }
  destruct Hsame as (Ec & Er & Ex & Ey & Ew & Eh).
  assert (Hgrid : grid r1 = grid r2).
  { apply list_eq. intros i.
    destruct (Nat.lt_ge_cases i (Z.to_nat (cols r1 * rows r1))) as [Hi|Hi].
    - destruct (grid_position_is_cell _ _ i Hnr1 Hnc1 Hi)
        as (row & col & Hrow & Hcol & ->).
      rewrite Hcell1 by assumption. rewrite Ec.
      rewrite Hcell2 by lia. reflexivity.
    - rewrite !lookup_ge_None_2; [reflexivity| |]; lia. }
  destruct r1, r2. simpl in *. congruence.
Qed.

Lemma emptyCache_ok : gridCache_ok emptyCache.
Proof. exact I. Qed.

Lemma clamp01_bounds (x : Q) : (0 <= clamp01 x <= 1)%Q.
Proof.
  unfold clamp01, Qlt_bool.
  destruct (Qle_bool 0 x) eqn:E0; simpl.
  - destruct (Qle_bool x 1) eqn:E1; simpl.
    + apply Qle_bool_iff in E0, E1. split; assumption.
    + split; [discriminate | apply Qle_refl].
  - split; [apply Qle_refl | discriminate].
Qed.

Lemma sampleCell_bounds (pixels : list Z) (mediaW mediaH : Z)
    (area : Q * Q * Q * Q) (spacing contrast brightness bgBrightness : Q)
    (row col : Z) :
  (0 <= bgBrightness <= 1)%Q ->
  (0 <= sampleCell pixels mediaW mediaH area spacing contrast brightness
          bgBrightness row col <= 1)%Q.
Proof.
  intros Hbg. unfold sampleCell, adjust.
  destruct (mediaCoord mediaW mediaH area spacing row col) as [mx my].
  destruct (outOfBounds mediaW mediaH mx my); [exact Hbg|].
  destruct (byteAt pixels ((my * mediaW + mx) * 4 + 3) <? 10); [exact Hbg|].
  apply clamp01_bounds.
Qed.

(** C2 (amended). In the grid [computeBrightnessGrid] returns, a cell whose
    mapped source coordinate is out of bounds, or lands on a source pixel of
    alpha below 10 (a fully transparent pixel among them), holds exactly
    [bgBrightness]; a cell that lands on a pixel of alpha from 10 to 254
    holds the contrast/brightness adjustment of its luminance blended with
    [bgBrightness], weighted by [alpha / 255]. *)
Theorem computeBrightnessGrid_background_and_blend (cache : GridCache)
    (media : MediaElement)
    (canvasWidth canvasHeight spacing contrast brightness : Q)
    (mediaTransform : option MediaTransform) (bgBrightness : Q) :
  gridCache_ok cache ->
  (0 < spacing)%Q -> (0 <= canvasWidth)%Q -> (0 <= canvasHeight)%Q ->
  exists res cache',
    computeBrightnessGrid cache media canvasWidth canvasHeight spacing
      contrast brightness mediaTransform bgBrightness = Some (res, cache') /\
    forall row col, 0 <= row < rows res -> 0 <= col < cols res ->
      let mediaW := fst (getMediaSize media) in
      let mediaH := snd (getMediaSize media) in
      let area :=
        transformedArea mediaW mediaH canvasWidth canvasHeight mediaTransform in
      let mx := fst (mediaCoord mediaW mediaH area spacing row col) in
      let my := snd (mediaCoord mediaW mediaH area spacing row col) in
      let idx := (my * mediaW + mx) * 4 in
      let a := byteAt (mediaPixels media) (idx + 3) in
      let cell := grid res !! Z.to_nat (row * cols res + col) in
      (outOfBounds mediaW mediaH mx my = true -> cell = Some bgBrightness) /\
      (outOfBounds mediaW mediaH mx my = false -> a < 10 ->
       cell = Some bgBrightness) /\
      (outOfBounds mediaW mediaH mx my = false -> 10 <= a < 255 ->
       cell = Some (adjust contrast brightness
                      (luminance (mediaPixels media) idx * (inject_Z a / 255)
                       + bgBrightness * (1 - inject_Z a / 255))%Q)).
Proof.
  intros Hc Hs Hw Hh.
  destruct (computeBrightnessGrid_cells cache media canvasWidth canvasHeight
              spacing contrast brightness mediaTransform bgBrightness
              Hc Hs Hw Hh) as (res & cache' & E & _ & _ & _ & _ & Hcell).
  exists res, cache'. split; [exact E|].
  intros row col Hrow Hcol mediaW mediaH area mx my idx a cell.
  subst cell. rewrite (Hcell row col Hrow Hcol).
  unfold cellValue, sampleCell. fold mediaW mediaH. fold area.
  subst mx my. destruct (mediaCoord mediaW mediaH area spacing row col) as [mx my].
  simpl fst in *. simpl snd in *. subst a idx.
  repeat split.
  - intros ->. reflexivity.
  - intros -> Ha.
    destruct (Z.ltb_spec (byteAt (mediaPixels media) ((my * mediaW + mx) * 4 + 3)) 10);
      [reflexivity | lia].
  - intros -> [Ha Hb].
    destruct (Z.ltb_spec (byteAt (mediaPixels media) ((my * mediaW + mx) * 4 + 3)) 10);
      [lia|].
    destruct (Z.ltb_spec (byteAt (mediaPixels media) ((my * mediaW + mx) * 4 + 3)) 255);
      [reflexivity | lia].
Qed.

Lemma computeBrightnessGrid_background_and_blend_witness :
  exists res cache',
    computeBrightnessGrid emptyCache exHalf 30 10 10 1 0 None (1 # 2)
      = Some (res, cache') /\
    grid res !! 2%nat = Some (1 # 2)%Q /\
    grid res !! 1%nat =
      Some (adjust 1 0 (luminance (mediaPixels exHalf) 0 * (inject_Z 128 / 255)
                        + (1 # 2) * (1 - inject_Z 128 / 255))%Q).
Proof.
  destruct (computeBrightnessGrid_background_and_blend emptyCache exHalf
              30 10 10 1 0 None (1 # 2) emptyCache_ok)
    as (res & cache' & E & Hcell); try (vm_compute; discriminate); try reflexivity.
  assert (Hdims : rows res = 1 /\ cols res = 3).
  { vm_compute in E. injection E as <- _. split; reflexivity. }
  destruct Hdims as [Hr Hc].
  exists res, cache'. split; [exact E|]. split.
  - destruct (Hcell 0 2) as (Hout & _ & _); [lia..|].
    rewrite Hc in Hout. apply Hout. reflexivity.
  - destruct (Hcell 0 1) as (_ & _ & Hblend); [lia..|].
    rewrite Hc in Hblend. apply Hblend; [reflexivity | vm_compute; split; [discriminate | reflexivity]].
Defined.

(** Counterexample to C2 as stated: a white pixel of alpha 5 is strictly
    between fully transparent and opaque, and the code stores the
    background brightness 0 for it, not the blend (which is 5/255). *)
Lemma sampleCell_spec_fails_on_faint_pixel :
  ~ (forall cache media canvasWidth canvasHeight spacing contrast brightness
            mediaTransform bgBrightness res cache' row col v,
       computeBrightnessGrid cache media canvasWidth canvasHeight spacing
         contrast brightness mediaTransform bgBrightness = Some (res, cache') ->
       grid res !! Z.to_nat (row * cols res + col) = Some v ->
       (v == sampleCell_spec (mediaPixels media)
               (fst (getMediaSize media)) (snd (getMediaSize media))
               (transformedArea (fst (getMediaSize media))
                  (snd (getMediaSize media)) canvasWidth canvasHeight
                  mediaTransform)
               spacing contrast brightness bgBrightness row col)%Q).
Proof.
  intros H.
  destruct (computeBrightnessGrid emptyCache exFaint 10 10 10 1 0 None 0)
    as [[res cache']|] eqn:E; [|vm_compute in E; discriminate].
  assert (Hres : grid res = [0%Q] /\ cols res = 1).
  { vm_compute in E. injection E as <- _. split; reflexivity. }
  destruct Hres as [Hgrid Hcols].
  specialize (H emptyCache exFaint 10%Q 10%Q 10%Q 1%Q 0%Q None 0%Q
                res cache' 0 0 0%Q E).
  rewrite Hgrid, Hcols in H. specialize (H eq_refl).
  vm_compute in H. discriminate.
Qed.

(** C5. Every value of the grid that [computeBrightnessGrid] returns lies
    in [0, 1], for any contrast and brightness: the adjusted luminance is
    clamped, and the background brightness that the other cells hold is a
    setting of [0, 1] (the range its type documents and its slider has; the
    call sites pass it, or 0). *)
Theorem computeBrightnessGrid_unit_interval (cache : GridCache)
    (media : MediaElement)
    (canvasWidth canvasHeight spacing contrast brightness : Q)
    (mediaTransform : option MediaTransform) (bgBrightness : Q) :
  gridCache_ok cache ->
  (0 < spacing)%Q -> (0 <= canvasWidth)%Q -> (0 <= canvasHeight)%Q ->
  (0 <= bgBrightness <= 1)%Q ->
  exists res cache',
    computeBrightnessGrid cache media canvasWidth canvasHeight spacing
      contrast brightness mediaTransform bgBrightness = Some (res, cache') /\
    Forall (fun v => (0 <= v <= 1)%Q) (grid res).
Proof.
  intros Hc Hs Hw Hh Hbg.
  destruct (computeBrightnessGrid_cells cache media canvasWidth canvasHeight
              spacing contrast brightness mediaTransform bgBrightness
              Hc Hs Hw Hh) as (res & cache' & E & _ & Hnc & Hnr & Hlen & Hcell).
  exists res, cache'. split; [exact E|].
  apply Forall_lookup. intros i v Hv.
  assert (Hi : (i < Z.to_nat (cols res * rows res))%nat).
  { rewrite <- Hlen. apply lookup_lt_is_Some_1; eauto. }
  destruct (grid_position_is_cell _ _ i Hnr Hnc Hi)
    as (row & col & Hrow & Hcol & ->).
  rewrite (Hcell row col Hrow Hcol) in Hv. injection Hv as <-.
  apply sampleCell_bounds, Hbg.
Qed.

Lemma computeBrightnessGrid_unit_interval_witness :
  exists res cache',
    computeBrightnessGrid emptyCache exHalf 30 10 10 3 100 None (1 # 2)
      = Some (res, cache') /\
    Forall (fun v => (0 <= v <= 1)%Q) (grid res).
Proof.
  apply (computeBrightnessGrid_unit_interval emptyCache exHalf 30 10 10 3 100
           None (1 # 2) emptyCache_ok);
    try (vm_compute; discriminate); try reflexivity.
  split; vm_compute; discriminate.
Defined.

(** C9. Passing the media transform [{scale: 1, offsetX: 0, offsetY: 0}]
    gives the result that leaving the media transform out gives; and with it
    the sampled area is the aspect-fit rectangle itself. *)
Theorem computeBrightnessGrid_identity_transform (cache : GridCache)
    (media : MediaElement)
    (canvasWidth canvasHeight spacing contrast brightness bgBrightness : Q) :
  computeBrightnessGrid cache media canvasWidth canvasHeight spacing contrast
    brightness (Some (mkMediaTransform 1 0 0)) bgBrightness =
  computeBrightnessGrid cache media canvasWidth canvasHeight spacing contrast
    brightness None bgBrightness /\
  let mediaW := fst (getMediaSize media) in
  let mediaH := snd (getMediaSize media) in
  let '(drawW, drawH, offsetX, offsetY) :=
    aspectFit mediaW mediaH canvasWidth canvasHeight in
  let '(finalOffsetX, finalOffsetY, scaledDrawW, scaledDrawH) :=
    transformedArea mediaW mediaH canvasWidth canvasHeight
      (Some (mkMediaTransform 1 0 0)) in
  (finalOffsetX == offsetX /\ finalOffsetY == offsetY /\
   scaledDrawW == drawW /\ scaledDrawH == drawH)%Q.
Proof.
  split; [reflexivity|].
  unfold transformedArea.
  destruct (aspectFit (fst (getMediaSize media)) (snd (getMediaSize media))
              canvasWidth canvasHeight) as [[[drawW drawH] offsetX] offsetY].
  simpl. repeat split; field.
Qed.

(** ** Raster pass and SVG export *)

Lemma forRange_ext {S : Type} (n : Z) (body1 body2 : Z -> S -> S) (s : S) :
  (forall i t, 0 <= i < n -> body1 i t = body2 i t) ->
  forRange n body1 s = forRange n body2 s.
Proof.
  intros Hext. destruct (Z.le_gt_cases n 0) as [Hn|Hn].
  { now rewrite !forRange_nonpos by assumption. }
  apply (forRange_invariant (fun k t => t = forRange k body2 s)); [lia| |].
  - now rewrite forRange_nonpos by lia.
  - intros i t Hi ->. rewrite forRange_succ by lia. now apply Hext.
Qed.

Lemma Qlt_bool_iff (a b : Q) : Qlt_bool a b = true <-> (a < b)%Q.
Proof.
  unfold Qlt_bool. rewrite negb_true_iff. split.
  - intros E. apply Qnot_le_lt. intros Hle.
    apply Qle_bool_iff in Hle. congruence.
  - intros Hlt. destruct (Qle_bool b a) eqn:E; [|reflexivity].
    apply Qle_bool_iff in E. exfalso. exact (Qlt_not_le _ _ Hlt E).
Qed.

Lemma Qlt_bool_compat (a a' b : Q) :
  (a == a')%Q -> Qlt_bool a b = Qlt_bool a' b.
Proof. intros E. unfold Qlt_bool. now rewrite E. Qed.

(** The two spellings of the clamp agree. *)
Lemma Math_clamp_eq (x : Q) : (Math_max 0 (Math_min 1 x) == clamp01 x)%Q.
Proof.
  unfold Math_max, Math_min, clamp01.
  destruct (Qlt_bool x 1) eqn:E1; destruct (Qlt_bool x 0) eqn:E0;
    destruct (Qlt_bool 1 x) eqn:E2;
    repeat match goal with
           | |- context [Qlt_bool ?a ?b] => destruct (Qlt_bool a b) eqn:?
           end;
    repeat match goal with
           | H : Qlt_bool _ _ = true |- _ => apply Qlt_bool_iff in H
           | H : Qlt_bool _ _ = false |- _ =>
               apply not_true_iff_false in H; rewrite Qlt_bool_iff in H;
               apply Qnot_lt_le in H
           end;
    try reflexivity; lra.
Qed.

(** Both passes compute the radius by the same formula,
    [0.48 * spacing * clamp (minScale + b * (maxScale - minScale))]. *)
Lemma svgRadius_cellRadius (grid : list Q) (cols : Z)
    (maxRadius minScale maxScale : Q) (inv : bool) (row col : Z) :
  (svgRadius grid cols maxRadius minScale maxScale inv row col ==
   cellRadius grid cols maxRadius minScale maxScale inv row col)%Q.
Proof.
  unfold svgRadius, cellRadius. now rewrite Math_clamp_eq.
Qed.

(** The radius is [0.48 * spacing] times the clamped size, where the size
    is [minScale + b * (maxScale - minScale)] and [b] is the brightness of
    the cell, inverted on demand. *)
Lemma cellRadius_formula (state : AppState) (grid : list Q) (cols : Z)
    (row col : Z) :
  let b0 := gridAt grid (row * cols + col) in
  let b := if invert (mapping state) then (1 - b0)%Q else b0 in
  let minScale := (minSize (mapping state) / 100)%Q in
  let maxScale := (maxSize (mapping state) / 100)%Q in
  (cellRadius grid cols (density state * 0.48) minScale maxScale
     (invert (mapping state)) row col ==
   0.48 * density state * clamp01 (minScale + b * (maxScale - minScale)))%Q.
Proof. intros. unfold cellRadius. fold b0. fold b. ring. Qed.

(** For every shape but the glyph, the SVG export emits an element for
    exactly the cells for which the raster pass draws. *)
Lemma svg_raster_same_cells (state : AppState) (grid : list Q) (cols : Z)
    (row col : Z) :
  shape state <> text ->
  svgEmits state grid cols row col = rasterDraws state grid cols row col.
Proof.
  intros Hshape. unfold svgEmits, rasterDraws, rasterCell, svgCell, renderCell,
    batchCircleCell, batchTriangleCell.
  rewrite (Qlt_bool_compat _ _ _ (svgRadius_cellRadius _ _ _ _ _ _ _ _)).
  destruct (Qlt_bool (cellRadius _ _ _ _ _ _ _ _) 0.3);
    destruct (shape state); try reflexivity; try congruence.
  unfold drawShape.
  destruct (customShape (customSvgPath state) (customSvgViewBox state))
    as [[pathData viewBox]|]; reflexivity.
Qed.

(** For glyphs the raster pass has a second threshold: it draws a cell when
    its radius is at least 0.3 and the font size [2r] is at least 1, while
    the export emits a [<text>] element as soon as the radius is at least
    0.3. *)
Lemma svg_raster_glyph_cells (state : AppState) (grid : list Q) (cols : Z)
    (row col : Z) :
  shape state = text ->
  let r := cellRadius grid cols (density state * 0.48)
             (minSize (mapping state) / 100) (maxSize (mapping state) / 100)
             (invert (mapping state)) row col in
  svgEmits state grid cols row col = negb (Qlt_bool r 0.3) /\
  rasterDraws state grid cols row col =
    negb (Qlt_bool r 0.3) && negb (Qlt_bool (r * 2) 1).
Proof.
  intros Hshape r. unfold svgEmits, rasterDraws, rasterCell, svgCell, renderCell.
  rewrite (Qlt_bool_compat _ _ _ (svgRadius_cellRadius _ _ _ _ _ _ _ _)).
  fold r. rewrite Hshape.
  destruct (Qlt_bool r 0.3); [split; reflexivity|].
  simpl. unfold drawText.
  destruct (Qlt_bool (r * 2) 1); split; reflexivity.
Qed.

(** C3. At spacing 5 with sizes from 0 to 20%, a cell of brightness 1 has
    radius 0.48: not below the skip threshold 0.3, yet its font size 0.96
    is below 1. The SVG export emits a [<text>] element for the cell and
    the raster pass draws nothing for it. *)
Theorem svg_emits_glyph_raster_skips :
  (cellRadius [1%Q] 1 (density exGlyphs * 0.48)
     (minSize (mapping exGlyphs) / 100) (maxSize (mapping exGlyphs) / 100)
     (invert (mapping exGlyphs)) 0 0 == 0.48)%Q /\
  renderGrid exGlyphs [1%Q] 1 1 = [] /\
  toSVG exGlyphs 5 5 [1%Q] 1 1 =
    [SvgOpen 5 5; SvgBackground 5 5 "#000000";
     SvgText 2.5 2.5 1.0 "#ffffff" "A"; SvgClose] /\
  rasterDraws exGlyphs [1%Q] 1 0 0 = false /\
  svgEmits exGlyphs [1%Q] 1 0 0 = true.
Proof. repeat split; vm_compute; reflexivity. Qed.

(** ** Inversion *)

Lemma gridAt_complement (grid : list Q) (cols rows row col : Z) :
  length grid = Z.to_nat (cols * rows) ->
  0 <= row < rows -> 0 <= col < cols ->
  gridAt ((fun b => 1 - b)%Q <$> grid) (row * cols + col) =
  (1 - gridAt grid (row * cols + col))%Q.
Proof.
  intros Hlen Hrow Hcol. unfold gridAt. rewrite list_lookup_fmap.
  destruct (lookup_lt_is_Some_2 grid (Z.to_nat (row * cols + col))) as [b ->].
  { rewrite Hlen. apply cell_index_lt; assumption. }
  reflexivity.
Qed.

Lemma cellRadius_complement (grid : list Q) (cols rows : Z)
    (maxRadius minScale maxScale : Q) (row col : Z) :
  length grid = Z.to_nat (cols * rows) ->
  0 <= row < rows -> 0 <= col < cols ->
  cellRadius grid cols maxRadius minScale maxScale true row col =
  cellRadius ((fun b => 1 - b)%Q <$> grid) cols maxRadius minScale maxScale
    false row col.
Proof.
  intros Hlen Hrow Hcol. unfold cellRadius.
  now rewrite (gridAt_complement grid cols rows row col).
Qed.

Lemma svgRadius_complement (grid : list Q) (cols rows : Z)
    (maxRadius minScale maxScale : Q) (row col : Z) :
  length grid = Z.to_nat (cols * rows) ->
  0 <= row < rows -> 0 <= col < cols ->
  svgRadius grid cols maxRadius minScale maxScale true row col =
  svgRadius ((fun b => 1 - b)%Q <$> grid) cols maxRadius minScale maxScale
    false row col.
Proof.
  intros Hlen Hrow Hcol. unfold svgRadius.
  now rewrite (gridAt_complement grid cols rows row col).
Qed.

(** C8. On a brightness grid of [cols * rows] cells, rendering with
    [invert = true] gives exactly what rendering with [invert = false]
    gives on the grid in which every cell [b] is replaced by [1 - b]: the
    same drawing commands from each raster loop, and the same elements from
    the SVG export. *)
Theorem invert_is_complement (state : AppState) (w h : Q) (grid : list Q)
    (cols rows : Z) :
  length grid = Z.to_nat (cols * rows) ->
  renderGrid (setInvert true state) grid cols rows =
  renderGrid (setInvert false state) ((fun b => 1 - b)%Q <$> grid) cols rows /\
  batchDrawCircles grid cols rows (density state) (density state * 0.48)
    (minSize (mapping state) / 100) (maxSize (mapping state) / 100) true =
  batchDrawCircles ((fun b => 1 - b)%Q <$> grid) cols rows (density state)
    (density state * 0.48)
    (minSize (mapping state) / 100) (maxSize (mapping state) / 100) false /\
  toSVG (setInvert true state) w h grid cols rows =
  toSVG (setInvert false state) w h ((fun b => 1 - b)%Q <$> grid) cols rows.
Proof.
  intros Hlen.
  assert (Hcircles : forall spacing maxRadius minScale maxScale,
    batchDrawCircles grid cols rows spacing maxRadius minScale maxScale true =
    batchDrawCircles ((fun b => 1 - b)%Q <$> grid) cols rows spacing maxRadius
      minScale maxScale false).
  { intros. unfold batchDrawCircles. f_equal. f_equal.
    apply forRange_ext. intros row t Hrow.
    apply forRange_ext. intros col t' Hcol.
    unfold batchCircleCell.
    now rewrite (cellRadius_complement grid cols rows _ _ _ row col). }
  split; [|split].
  - unfold renderGrid. simpl. destruct (shape state).
    + apply Hcircles.
    + apply forRange_ext. intros row t Hrow.
      apply forRange_ext. intros col t' Hcol.
      unfold renderCell. simpl.
      now rewrite (cellRadius_complement grid cols rows _ _ _ row col).
    + unfold batchDrawTriangles. f_equal. f_equal.
      apply forRange_ext. intros row t Hrow.
      apply forRange_ext. intros col t' Hcol.
      unfold batchTriangleCell.
      now rewrite (cellRadius_complement grid cols rows _ _ _ row col).
    + apply forRange_ext. intros row t Hrow.
      apply forRange_ext. intros col t' Hcol.
      unfold renderCell. simpl.
      now rewrite (cellRadius_complement grid cols rows _ _ _ row col).
    + apply forRange_ext. intros row t Hrow.
      apply forRange_ext. intros col t' Hcol.
      unfold renderCell. simpl.
      now rewrite (cellRadius_complement grid cols rows _ _ _ row col).
  - apply Hcircles.
  - unfold toSVG. simpl. f_equal.
    apply forRange_ext. intros row t Hrow.
    apply forRange_ext. intros col t' Hcol.
    unfold svgCell. simpl.
    now rewrite (svgRadius_complement grid cols rows _ _ _ row col).
Qed.

Lemma invert_is_complement_witness :
  renderGrid (setInvert true exDiscs) [1; 0]%Q 2 1 =
  renderGrid (setInvert false exDiscs) [0; 1]%Q 2 1 /\
  renderGrid (setInvert true exDiscs) [1; 0]%Q 2 1 =
  [Fill [MoveTo 39.600000000 10.0; Arc 30.0 10.0 9.60000000 0 TWO_PI]]%Q.
Proof.
  destruct (invert_is_complement exDiscs 40 20 [1; 0]%Q 2 1 eq_refl)
    as (Hrender & _ & _).
  split.
  - rewrite Hrender. vm_compute. reflexivity.
  - rewrite Hrender. vm_compute. reflexivity.
Defined.

(** ** Loops that may throw *)

(** A loop whose body returns and keeps the invariant at every iteration
    returns, and the invariant holds of its result. *)
Lemma forRangeM_invariant {S : Type} (P : Z -> S -> Prop) (n : Z)
    (body : Z -> S -> option S) (s : S) :
  0 <= n -> P 0 s ->
  (forall i t, 0 <= i < n -> P i t -> exists t', body i t = Some t' /\ P (i + 1) t') ->
  exists t, forRangeM n body s = Some t /\ P n t.
Proof.
  intros Hn H0 Hstep. unfold forRangeM.
  apply (forRange_invariant (fun k acc => exists t, acc = Some t /\ P k t)).
  - exact Hn.
  - eauto.
  - intros i acc Hi (t & -> & Ht). simpl. now apply Hstep.
Qed.

(** ** parseSTL: the binary layout *)

Lemma getUint32_in_range (buffer : list Z) (byteOffset : Z) :
  0 <= byteOffset -> byteOffset + 4 <= Z.of_nat (length buffer) ->
  is_Some (getUint32 buffer byteOffset).
Proof.
  intros Hlo Hhi. unfold getUint32.
  destruct (Z.ltb_spec byteOffset 0); [lia|].
  destruct (lookup_lt_is_Some_2 buffer (Z.to_nat byteOffset)) as [b0 ->]; [lia|].
  destruct (lookup_lt_is_Some_2 buffer (Z.to_nat byteOffset + 1)) as [b1 ->]; [lia|].
  destruct (lookup_lt_is_Some_2 buffer (Z.to_nat byteOffset + 2)) as [b2 ->]; [lia|].
  destruct (lookup_lt_is_Some_2 buffer (Z.to_nat byteOffset + 3)) as [b3 ->]; [lia|].
  simpl. eauto.
Qed.

Lemma setTriple_length (a : list float32) (idx : Z) (x y z : float32) :
  length (setTriple a idx x y z) = length a.
Proof. unfold setTriple. now rewrite !length_insert. Qed.

Lemma setTriple_other (a : list float32) (idx : Z) (x y z : float32) (j : nat) :
  0 <= idx -> ~ (idx <= Z.of_nat j < idx + 3) ->
  setTriple a idx x y z !! j = a !! j.
Proof.
  intros Hidx Hj. unfold setTriple.
  rewrite !list_lookup_insert_ne by lia. reflexivity.
Qed.

Lemma setTriple_component (a : list float32) (idx : Z) (x y z : float32) (c : Z) :
  0 <= idx -> idx + 3 <= Z.of_nat (length a) -> 0 <= c < 3 ->
  setTriple a idx x y z !! Z.to_nat (idx + c) =
  Some (if c =? 0 then x else if c =? 1 then y else z).
Proof.
  intros Hidx Hlen Hc. unfold setTriple.
  assert (Hcases : c = 0 \/ c = 1 \/ c = 2) by lia.
  destruct Hcases as [-> | [-> | ->]]; simpl.
  - rewrite !list_lookup_insert_ne by lia.
    rewrite Z.add_0_r. apply list_lookup_insert_eq. lia.
  - rewrite list_lookup_insert_ne by lia.
    apply list_lookup_insert_eq. rewrite length_insert. lia.
  - apply list_lookup_insert_eq. rewrite !length_insert. lia.
Qed.

(** One triangle: the record at [84 + 50 i] is read, its normal goes to
    each of the three vertices, and nothing else of the arrays changes. *)
Lemma stlTriangle_spec (buffer : list Z) (count i : Z)
    (vertices normals : list float32) :
  0 <= i < count ->
  84 + 50 * count <= Z.of_nat (length buffer) ->
  Z.of_nat (length vertices) = 9 * count ->
  Z.of_nat (length normals) = 9 * count ->
  exists vertices' normals',
    stlTriangle buffer i (vertices, normals) = Some (vertices', normals') /\
    length vertices' = length vertices /\ length normals' = length normals /\
    (forall j : nat, ~ (9 * i <= Z.of_nat j < 9 * i + 9) ->
       vertices' !! j = vertices !! j /\ normals' !! j = normals !! j) /\
    (forall v c, 0 <= v < 3 -> 0 <= c < 3 ->
       vertices' !! Z.to_nat (i * 9 + v * 3 + c) =
         getFloat32 buffer (84 + i * 50 + 12 + v * 12 + c * 4) /\
       normals' !! Z.to_nat (i * 9 + v * 3 + c) =
         getFloat32 buffer (84 + i * 50 + c * 4)).
Proof.
  intros Hi Hbuf Hvl Hnl. unfold stlTriangle, getFloat32. cbv zeta.
  destruct (getUint32_in_range buffer (84 + i * 50)) as [nx Hnx]; [lia..|].
  destruct (getUint32_in_range buffer (84 + i * 50 + 4)) as [ny Hny]; [lia..|].
  destruct (getUint32_in_range buffer (84 + i * 50 + 8)) as [nz Hnz]; [lia..|].
  rewrite Hnx, Hny, Hnz. simpl.
  match goal with
  | |- context [forRangeM 3 ?body ?s] =>
      destruct (forRangeM_invariant
        (fun k '(vs, ns) =>
           length vs = length vertices /\ length ns = length normals /\
           (forall j : nat, ~ (9 * i <= Z.of_nat j < 9 * i + 3 * k) ->
              vs !! j = vertices !! j /\ ns !! j = normals !! j) /\
           (forall v c, 0 <= v < k -> 0 <= c < 3 ->
              vs !! Z.to_nat (i * 9 + v * 3 + c) =
                getUint32 buffer (84 + i * 50 + 12 + v * 12 + c * 4) /\
              ns !! Z.to_nat (i * 9 + v * 3 + c) =
                getUint32 buffer (84 + i * 50 + c * 4)))
        3 body s) as ([vs ns] & Hloop & Hvs & Hns & Hother & Hset)
  end.
  - lia.
  - repeat split; intros; lia.
  - intros v [vs ns] Hv (Hvs & Hns & Hother & Hset).
    destruct (getUint32_in_range buffer (84 + i * 50 + 12 + v * 12)) as [x Hx]; [lia..|].
    destruct (getUint32_in_range buffer (84 + i * 50 + 12 + v * 12 + 4)) as [y Hy]; [lia..|].
    destruct (getUint32_in_range buffer (84 + i * 50 + 12 + v * 12 + 8)) as [z Hz]; [lia..|].
    rewrite Hx, Hy, Hz. simpl.
    eexists (_, _). split; [reflexivity|]. simpl.
    rewrite !setTriple_length. split; [exact Hvs|]. split; [exact Hns|]. split.
    + intros j Hj. rewrite !setTriple_other by lia. apply Hother. lia.
    + intros v' c Hv' Hc. destruct (Z.eq_dec v' v) as [->|Hne].
      * rewrite !setTriple_component by lia.
        assert (Hcases : c = 0 \/ c = 1 \/ c = 2) by lia.
        destruct Hcases as [-> | [-> | ->]]; simpl;
          rewrite ?Z.add_0_r; auto.
      * rewrite !setTriple_other by lia. apply Hset; lia.
  - rewrite Hloop. exists vs, ns. split; [reflexivity|].
    split; [exact Hvs|]. split; [exact Hns|]. split; [|exact Hset].
    intros j Hj. apply Hother. lia.
Qed.

Lemma getUint32_bounds (buffer : list Z) (byteOffset value : Z) :
  bytes buffer -> getUint32 buffer byteOffset = Some value ->
  0 <= value < 2 ^ 32.
Proof.
  intros Hb. unfold getUint32, bytes in *. rewrite Forall_lookup in Hb.
  destruct (byteOffset <? 0); [discriminate|].
  destruct (buffer !! Z.to_nat byteOffset) as [b0|] eqn:E0; [|discriminate].
  destruct (buffer !! (Z.to_nat byteOffset + 1)%nat) as [b1|] eqn:E1; [|discriminate].
  destruct (buffer !! (Z.to_nat byteOffset + 2)%nat) as [b2|] eqn:E2; [|discriminate].
  destruct (buffer !! (Z.to_nat byteOffset + 3)%nat) as [b3|] eqn:E3; [|discriminate].
  simpl. intros [= <-].
  apply Hb in E0, E1, E2, E3. lia.
Qed.

(** Decoding the binary variant: the function returns, the two arrays have
    nine entries for each declared triangle, and every entry is the number
    read at its place in the triangle's record. *)
Lemma parseSTL_binary_cells
    (parseSTLAscii : list Z -> BufferGeometry float32)
    (buffer : list Z) (count : Z) :
  bytes buffer ->
  take 5 buffer <> solid ->
  getUint32 buffer 80 = Some count ->
  84 + 50 * count <= Z.of_nat (length buffer) ->
  exists vertices normals,
    parseSTL parseSTLAscii buffer =
      Some (mkBufferGeometry vertices (NormalAttribute normals) None) /\
    Z.of_nat (length vertices) = 9 * count /\
    Z.of_nat (length normals) = 9 * count /\
    forall i v c, 0 <= i < count -> 0 <= v < 3 -> 0 <= c < 3 ->
      vertices !! Z.to_nat (i * 9 + v * 3 + c) =
        getFloat32 buffer (84 + i * 50 + 12 + v * 12 + c * 4) /\
      normals !! Z.to_nat (i * 9 + v * 3 + c) =
        getFloat32 buffer (84 + i * 50 + c * 4).
Proof.
  intros Hbytes Hmagic Hcount Hlen.
  pose proof (getUint32_bounds buffer 80 count Hbytes Hcount) as Hrange.
  unfold parseSTL.
  destruct (Nat.ltb_spec (length buffer) 5); [lia|].
  rewrite bool_decide_eq_false_2 by exact Hmagic.
  rewrite Hcount. simpl.
  destruct (forRangeM_invariant
    (fun k '(vs, ns) =>
       Z.of_nat (length vs) = 9 * count /\ Z.of_nat (length ns) = 9 * count /\
       forall i v c, 0 <= i < k -> 0 <= v < 3 -> 0 <= c < 3 ->
         vs !! Z.to_nat (i * 9 + v * 3 + c) =
           getFloat32 buffer (84 + i * 50 + 12 + v * 12 + c * 4) /\
         ns !! Z.to_nat (i * 9 + v * 3 + c) =
           getFloat32 buffer (84 + i * 50 + c * 4))
    count (stlTriangle buffer)
    (replicate (Z.to_nat (count * 9)) 0, replicate (Z.to_nat (count * 9)) 0))
    as ([vs ns] & Hloop & Hvs & Hns & Hset).
  - lia.
  - rewrite !length_replicate. repeat split; intros; lia.
  - intros k [vs ns] Hk (Hvs & Hns & Hset).
    destruct (stlTriangle_spec buffer count k vs ns Hk Hlen Hvs Hns)
      as (vs' & ns' & Hstep & Hvs' & Hns' & Hother & Hnew).
    exists (vs', ns'). split; [exact Hstep|].
    split; [lia|]. split; [lia|].
    intros i v c Hi Hv Hc. destruct (Z.eq_dec i k) as [->|Hne].
    + apply Hnew; assumption.
    + destruct (Hother (Z.to_nat (i * 9 + v * 3 + c))) as [-> ->]; [lia|].
      apply Hset; lia.
  - rewrite Hloop. simpl. exists vs, ns. split; [reflexivity|].
    split; [lia|]. split; [lia|]. exact Hset.
Qed.

Lemma getUint32_agree (buffer buffer' : list Z) (byteOffset : Z) :
  0 <= byteOffset ->
  (forall j : nat, byteOffset <= Z.of_nat j < byteOffset + 4 ->
     buffer' !! j = buffer !! j) ->
  getUint32 buffer' byteOffset = getUint32 buffer byteOffset.
Proof.
  intros Hlo Hsame. unfold getUint32.
  destruct (byteOffset <? 0); [reflexivity|].
  rewrite !Hsame by lia. reflexivity.
Qed.

(** Each position of the two arrays is a coordinate of a vertex of a
    triangle. *)
Lemma array_position_is_coordinate (count : Z) (j : nat) :
  Z.of_nat j < 9 * count ->
  exists i v c, 0 <= i < count /\ 0 <= v < 3 /\ 0 <= c < 3 /\
    j = Z.to_nat (i * 9 + v * 3 + c).
Proof.
  intros Hj.
  exists (Z.of_nat j / 9), (Z.of_nat j mod 9 / 3), (Z.of_nat j mod 9 mod 3).
  pose proof (Z.div_mod (Z.of_nat j) 9 ltac:(lia)) as H1.
  pose proof (Z.mod_pos_bound (Z.of_nat j) 9 ltac:(lia)) as H2.
  pose proof (Z.div_mod (Z.of_nat j mod 9) 3 ltac:(lia)) as H3.
  pose proof (Z.mod_pos_bound (Z.of_nat j mod 9) 3 ltac:(lia)) as H4.
  set (q := Z.of_nat j / 9) in *. set (r := Z.of_nat j mod 9) in *.
  set (q2 := r / 3) in *. set (r2 := r mod 3) in *.
  clearbody q r q2 r2.
  split; [lia|]. split; [lia|]. split; [lia|]. lia.
Qed.

(** C6. A binary mesh buffer (one that does not start with ["solid"]) whose
    little-endian count field at offset 80 declares [count] triangles, and
    which holds their records, decodes to exactly [count] triangles: nine
    position numbers and nine normal numbers each. Triangle [i] is read from
    the 50-byte record at [84 + 50 i]: its normal from bytes 0 to 11, the
    coordinate [c] of its vertex [v] from the four bytes at
    [12 + 12 v + 4 c]; each of its three vertices carries the stored
    normal; and bytes 48 and 49 of a record are ignored: changing them
    changes nothing of the result. *)
Theorem parseSTL_binary_layout
    (parseSTLAscii : list Z -> BufferGeometry float32)
    (buffer : list Z) (count : Z) :
  bytes buffer ->
  take 5 buffer <> solid ->
  getUint32 buffer 80 = Some count ->
  84 + 50 * count <= Z.of_nat (length buffer) ->
  (exists vertices normals,
     parseSTL parseSTLAscii buffer =
       Some (mkBufferGeometry vertices (NormalAttribute normals) None) /\
     Z.of_nat (length vertices) = 3 * 3 * count /\
     Z.of_nat (length normals) = 3 * 3 * count /\
     forall i v c, 0 <= i < count -> 0 <= v < 3 -> 0 <= c < 3 ->
       exists normal_c vertex_c,
         getFloat32 buffer (84 + i * 50 + c * 4) = Some normal_c /\
         getFloat32 buffer (84 + i * 50 + 12 + v * 12 + c * 4) = Some vertex_c /\
         vertices !! Z.to_nat (i * 9 + v * 3 + c) = Some vertex_c /\
         normals !! Z.to_nat (i * 9 + v * 3 + c) = Some normal_c) /\
  (forall buffer',
     bytes buffer' -> length buffer' = length buffer ->
     (forall j : nat, ~ attributeByte count j -> buffer' !! j = buffer !! j) ->
     parseSTL parseSTLAscii buffer' = parseSTL parseSTLAscii buffer).
Proof.
  intros Hbytes Hmagic Hcount Hlen.
  pose proof (getUint32_bounds buffer 80 count Hbytes Hcount) as Hrange.
  destruct (parseSTL_binary_cells parseSTLAscii buffer count
              Hbytes Hmagic Hcount Hlen) as (vs & ns & Hparse & Hvs & Hns & Hset).
  split.
  - exists vs, ns. split; [exact Hparse|]. split; [lia|]. split; [lia|].
    intros i v c Hi Hv Hc.
    destruct (getUint32_in_range buffer (84 + i * 50 + c * 4)) as [n Hn]; [lia..|].
    destruct (getUint32_in_range buffer (84 + i * 50 + 12 + v * 12 + c * 4))
      as [x Hx]; [lia..|].
    exists n, x. unfold getFloat32 in *.
    destruct (Hset i v c Hi Hv Hc) as [-> ->]. auto.
  - intros buffer' Hbytes' Hlen' Hsame.
    assert (Hread : forall off, 0 <= off ->
              (forall i, 0 <= i < count -> off + 4 <= 84 + i * 50 + 48 \/
                                          84 + i * 50 + 50 <= off) ->
              getUint32 buffer' off = getUint32 buffer off).
    { intros off Hoff Hfree. apply getUint32_agree; [exact Hoff|].
      intros j Hj. apply Hsame. intros (i & Hi & Hpos).
      specialize (Hfree i Hi). lia. }
    assert (Hmagic' : take 5 buffer' <> solid).
    { replace (take 5 buffer') with (take 5 buffer); [exact Hmagic|].
      apply list_eq. intros j.
      destruct (Nat.lt_ge_cases j 5) as [Hj|Hj].
      - rewrite !lookup_take_lt by exact Hj. symmetry. apply Hsame.
        intros (i & Hi & Hpos). lia.
      - now rewrite !lookup_take_ge by exact Hj. }
    assert (Hcount' : getUint32 buffer' 80 = Some count).
    { rewrite Hread; [exact Hcount|lia|]. intros i Hi. lia. }
    destruct (parseSTL_binary_cells parseSTLAscii buffer' count
                Hbytes' Hmagic' Hcount' ltac:(lia))
      as (vs' & ns' & Hparse' & Hvs' & Hns' & Hset').
    rewrite Hparse, Hparse'. f_equal.
    assert (Hcells : forall j : nat, vs' !! j = vs !! j /\ ns' !! j = ns !! j).
    { intros j. destruct (Z.lt_ge_cases (Z.of_nat j) (9 * count)) as [Hj|Hj].
      - destruct (array_position_is_coordinate count j Hj)
          as (i & v & c & Hi & Hv & Hc & ->).
        destruct (Hset i v c Hi Hv Hc) as [-> ->].
        destruct (Hset' i v c Hi Hv Hc) as [-> ->].
        unfold getFloat32. split; apply Hread; lia.
      - rewrite !lookup_ge_None_2 by lia. auto. }
    f_equal; [|f_equal]; apply list_eq; intros j; apply Hcells.
Qed.

Lemma exStl_bytes : bytes exStl.
Proof. unfold bytes. apply Forall_forall. intros b Hb.
  apply list_elem_of_In in Hb. vm_compute in Hb.
  repeat (destruct Hb as [<- | Hb]; [lia|]). contradiction.
Qed.

Lemma parseSTL_binary_layout_witness :
  exists vertices normals,
    parseSTL (fun _ => mkBufferGeometry [] ComputeVertexNormals None) exStl =
      Some (mkBufferGeometry vertices (NormalAttribute normals) None) /\
    Z.of_nat (length vertices) = 3 * 3 * 1 /\
    vertices !! 8%nat = Some 12 /\ normals !! 8%nat = Some 3.
Proof.
  destruct (parseSTL_binary_layout
              (fun _ => mkBufferGeometry [] ComputeVertexNormals None)
              exStl 1 exStl_bytes) as ((vs & ns & Hparse & Hvs & _ & Hcell) & _).
  - vm_compute. discriminate.
  - reflexivity.
  - vm_compute. discriminate.
  - exists vs, ns. split; [exact Hparse|]. split; [exact Hvs|].
    destruct (Hcell 0 2 2) as (n & x & Hn & Hx & Hvx & Hnn); [lia..|].
    vm_compute in Hn, Hx. injection Hn as <-. injection Hx as <-.
    split; [exact Hvx | exact Hnn].
Defined.

(** ** parseOBJ: face lines *)

Lemma forFromTo_invariant {S : Type} (P : Z -> S -> Prop) (lo hi : Z)
    (body : Z -> S -> S) (s : S) :
  lo <= hi -> P lo s ->
  (forall i t, lo <= i < hi -> P i t -> P (i + 1) (body i t)) ->
  P hi (forFromTo lo hi body s).
Proof.
  intros Hle H0 Hstep. unfold forFromTo.
  replace hi with (lo + (hi - lo)) at 1 by lia.
  apply (forRange_invariant (fun k t => P (lo + k) t)); [lia| |].
  - now rewrite Z.add_0_r.
  - intros k t Hk Ht. rewrite Z.add_assoc. apply Hstep; [lia|exact Ht].
Qed.

Lemma forFromTo_empty {S : Type} (lo hi : Z) (body : Z -> S -> S) (s : S) :
  hi <= lo -> forFromTo lo hi body s = s.
Proof. intros Hle. unfold forFromTo. apply forRange_nonpos. lia. Qed.

(** The references of a face line are resolved one by one, in order. *)
Lemma faceVertices_map (vertexCount : nat) (keyword : string)
    (refs : list string) :
  faceVertices vertexCount (keyword :: refs) =
  resolveReference vertexCount <$> refs.
Proof.
  unfold faceVertices.
  assert (H : forFromTo 1 (Z.of_nat (length (keyword :: refs)))
                (fun i faceVerts =>
                   faceVerts ++
                   [resolveIndex vertexCount
                      (parseInt (default EmptyString
                         (head (splitOn "/"%char
                            (part (keyword :: refs) (Z.to_nat i))))))]) [] =
              resolveReference vertexCount <$> take (Z.to_nat (Z.of_nat (length (keyword :: refs)) - 1)) refs).
  { apply (forFromTo_invariant
      (fun k acc => acc = resolveReference vertexCount <$> take (Z.to_nat (k - 1)) refs)).
    - simpl length. lia.
    - reflexivity.
    - intros i acc Hi ->. simpl length in Hi.
      destruct (lookup_lt_is_Some_2 refs (Z.to_nat (i - 1))) as [r Hr]; [lia|].
      replace (Z.to_nat (i + 1 - 1)) with (Datatypes.S (Z.to_nat (i - 1))) by lia.
      rewrite (take_S_r _ _ _ Hr), fmap_app. simpl. f_equal. f_equal.
      unfold resolveReference, part.
      replace (Z.to_nat i) with (Datatypes.S (Z.to_nat (i - 1))) by lia.
      simpl. now rewrite Hr. }
  rewrite H. simpl length.
  now rewrite firstn_all2 by lia.
Qed.

(** The fan loop appends one triangle for each [i] from 1 to [n - 2]. *)
Lemma fanTriangles_flat_map (faceVerts indices0 : list (option Z)) :
  fanTriangles faceVerts indices0 =
  indices0 ++ flat_map (fanTriangle faceVerts) (seq 1 (length faceVerts - 2)).
Proof.
  unfold fanTriangles.
  destruct (Nat.lt_ge_cases (length faceVerts) 2) as [Hshort|Hlong].
  { rewrite forFromTo_empty by lia.
    replace (length faceVerts - 2)%nat with 0%nat by lia.
    simpl. now rewrite app_nil_r. }
  replace (length faceVerts - 2)%nat
    with (Z.to_nat (Z.of_nat (length faceVerts) - 1 - 1)) by lia.
  apply (forFromTo_invariant
    (fun k acc => acc = indices0 ++
       flat_map (fanTriangle faceVerts) (seq 1 (Z.to_nat (k - 1))))).
  - lia.
  - simpl. now rewrite app_nil_r.
  - intros i acc Hi ->.
    replace (Z.to_nat (i + 1 - 1)) with (Datatypes.S (Z.to_nat (i - 1))) by lia.
    rewrite seq_S, flat_map_app, app_assoc. simpl.
    replace (Z.of_nat (Datatypes.S (Z.to_nat (i - 1)))) with i by lia.
    reflexivity.
Qed.

Lemma fan_length (faceVerts : list (option Z)) (l : list nat) :
  length (flat_map (fanTriangle faceVerts) l) = (3 * length l)%nat.
Proof.
  induction l as [|i l IH]; [reflexivity|].
  simpl. rewrite IH. lia.
Qed.

(** C7. A face line that lists [n] vertex references appends exactly
    [n - 2] triangles to the index list, [(v0, vi, vi+1)] for [i] from 1 to
    [n - 2], all rooted at the face's first vertex; reference [k] is the
    integer before its first [/], counted from 1 when it is positive and
    from the end of the vertices read so far when it is negative. *)
Theorem face_fan_triangulation (F : Type) (parseFloat : string -> F)
    (st : ObjState F) (line : string) (refs : list string) :
  splitWhite false EmptyString (trim line) = "f"%string :: refs ->
  (3 <= length refs)%nat ->
  let vertexCount := length (tempVerts st) in
  let faceVerts := resolveReference vertexCount <$> refs in
  indices (objLine parseFloat st line) =
    indices st ++
    flat_map (fun i => [faceVert faceVerts 0; faceVert faceVerts (Z.of_nat i);
                        faceVert faceVerts (Z.of_nat i + 1)])
      (seq 1 (length refs - 2)) /\
  length (indices (objLine parseFloat st line)) =
    (length (indices st) + 3 * (length refs - 2))%nat /\
  tempVerts (objLine parseFloat st line) = tempVerts st /\
  (forall k reference idx,
     refs !! k = Some reference ->
     parseInt (default EmptyString (head (splitOn "/"%char reference))) = Some idx ->
     (0 < idx -> faceVert faceVerts (Z.of_nat k) = Some (idx - 1)) /\
     (idx < 0 -> faceVert faceVerts (Z.of_nat k) = Some (Z.of_nat vertexCount + idx))).
Proof.
  intros Hparts Hn vertexCount faceVerts.
  assert (Hline : objLine parseFloat st line =
                  mkObjState (tempVerts st) (tempNormals st)
                    (fanTriangles faceVerts (indices st))).
  { unfold objLine. rewrite Hparts. simpl part. simpl.
    now rewrite faceVertices_map. }
  assert (Hfv : length faceVerts = length refs) by apply length_fmap.
  rewrite Hline. cbn [indices tempVerts].
  rewrite fanTriangles_flat_map, Hfv.
  split; [reflexivity|]. split.
  - rewrite length_app, fan_length, length_seq. reflexivity.
  - split; [reflexivity|].
    intros k reference idx Hk Hidx. unfold faceVert, faceVerts.
    rewrite Nat2Z.id, list_lookup_fmap, Hk. simpl.
    unfold resolveReference. rewrite Hidx. simpl.
    split; intros Hsign.
    + destruct (Z.ltb_spec 0 idx); [reflexivity|lia].
    + destruct (Z.ltb_spec 0 idx); [lia|reflexivity].
Qed.

Lemma face_fan_triangulation_witness :
  indices (objLine (fun s => s) exObjState exFaceLine) =
  [Some 0; Some 1; Some 1; Some 0; Some 1; Some 0] /\
  length (indices (objLine (fun s => s) exObjState exFaceLine)) = 6%nat.
Proof.
  destruct (face_fan_triangulation string (fun s => s) exObjState exFaceLine
              ["1/1/1"; "2//2"; "-1"; "-2"]%string eq_refl)
    as (Hidx & Hlen & _).
  - simpl. lia.
  - split; [rewrite Hidx; reflexivity | rewrite Hlen; reflexivity].
Defined.

(** ** End to end: a uniform white source *)

(** Spacing 20 on a 100-by-100 viewport over a white source: 25 cells of
    brightness 1, and 25 discs of radius [0.48 * 20 = 9.6]. *)
Example white_source_discs :
  exists res cache',
    computeBrightnessGrid emptyCache exWhite 100 100 20 1 0 None 0
      = Some (res, cache') /\
    cols res = 5 /\ rows res = 5 /\
    Forall (fun b => (b == 1)%Q) (grid res) /\
    exists batch,
      renderGrid exDiscs (grid res) (cols res) (rows res) = [Fill batch] /\
      length batch = 50%nat /\
      Forall (fun op => match op with
                        | Arc _ _ r _ _ => (r == 9.6)%Q
                        | _ => True
                        end) batch.
Proof.
  destruct (computeBrightnessGrid emptyCache exWhite 100 100 20 1 0 None 0)
    as [[res cache']|] eqn:E; [|vm_compute in E; discriminate].
  vm_compute in E. injection E as <- <-.
  eexists _, _. split; [reflexivity|]. simpl cols. simpl rows. simpl grid.
  split; [reflexivity|]. split; [reflexivity|]. split.
  - repeat constructor.
  - eexists. split; [vm_compute; reflexivity|].
    split; [reflexivity|]. repeat constructor.
Qed.

(** The same with [invert = true]: every radius is 0 and no disc is
    drawn. *)
Example white_source_inverted :
  exists res cache',
    computeBrightnessGrid emptyCache exWhite 100 100 20 1 0 None 0
      = Some (res, cache') /\
    renderGrid (setInvert true exDiscs) (grid res) (cols res) (rows res)
      = [Fill []].
Proof.
  destruct (computeBrightnessGrid emptyCache exWhite 100 100 20 1 0 None 0)
    as [[res cache']|] eqn:E; [|vm_compute in E; discriminate].
  vm_compute in E. injection E as <- <-.
  eexists _, _. split; [reflexivity|]. vm_compute. reflexivity.
Qed.

(* ================================================================== *)
(** * Part III. Further properties of the engine                       *)
(* ================================================================== *)

(** ** GifPlayer: loading, and driving the sequencer from the render loop *)

(** [load] refuses an empty frame list. Given well-formed frames it returns
    a well-formed player that shows frame 0: index 0, the clock at [now], a
    composite surface of the logical screen size that is frame 0's patch
    painted over transparent pixels. *)
Theorem load_shows_first_frame (blend : Pixel -> Pixel -> Pixel)
    (fs : list DecompressedFrame) (w h : Z) (now : Q) (p : GifPlayer)
    (first : DecompressedFrame) :
  Forall wf_frame fs -> fs !! 0%nat = Some first ->
  load blend [] w h now p = None /\
  exists p',
    load blend fs w h now p = Some p' /\ wf_player p' /\
    frames p' = fs /\ currentIndex p' = 0%nat /\ lastFrameTime p' = now /\
    cv_width (getCurrentFrame p') = w /\ cv_height (getCurrentFrame p') = h /\
    forall x y,
      cv_px (getCurrentFrame p') x y = paintFrame blend w h first transparent x y.
Proof.
  intros Hfs Hfirst. split; [reflexivity|].
  unfold load.
  destruct fs as [|f fs']; [discriminate|]. simpl length. simpl Nat.eqb. cbv iota.
  set (p0 := mkGifPlayer (f :: fs') 0 now
               (clearRect (blankCanvas w h) 0 0 w h)
               (patchCanvas p) None (cachedPatchW p) (cachedPatchH p) w h).
  destruct (renderFrame_wf blend p0 0 first Hfs I Hfirst)
    as (p' & fc & Hr & Hd & Hf & Hi & Ht & Hc & Hw & Hh & Hpx).
  exists p'. split; [exact Hr|].
  split.
  { unfold wf_player. rewrite Hf, Hi. simpl. split; [exact Hfs|]. split; [lia|exact Hc]. }
  split; [exact Hf|]. split; [exact Hi|]. split; [exact Ht|].
  split; [exact Hw|]. split; [exact Hh|].
  intros x y. unfold getCurrentFrame. rewrite Hpx.
  unfold disposePrevious in Hd. simpl in Hd. injection Hd as <-.
  simpl. destruct (inRect 0 0 w h x y); reflexivity.
Qed.

Lemma load_shows_first_frame_witness :
  exists p',
    load exBlend [exRed; exGreen] 2 1 0 newGifPlayer = Some p' /\
    currentIndex p' = 0%nat /\
    cv_px (getCurrentFrame p') 0 0 = (255, 0, 0, 255) /\
    cv_px (getCurrentFrame p') 1 0 = transparent.
Proof.
  destruct (load_shows_first_frame exBlend [exRed; exGreen] 2 1 0 newGifPlayer
              exRed) as (_ & p' & Hload & _ & _ & Hidx & _ & _ & _ & Hpx).
  - repeat constructor.
  - reflexivity.
  - exists p'. split; [exact Hload|]. split; [exact Hidx|].
    split; rewrite Hpx; reflexivity.
Defined.

(** One call of [advance] on a well-formed player returns, and keeps the
    frame list and the size of the composite surface. *)
Lemma advance_total (blend : Pixel -> Pixel -> Pixel) (now : Q) (p : GifPlayer) :
  wf_player p ->
  exists p',
    advance blend now p = Some p' /\ wf_player p' /\ frames p' = frames p /\
    cv_width (frameCanvas p') = cv_width (frameCanvas p) /\
    cv_height (frameCanvas p') = cv_height (frameCanvas p).
Proof.
  intros Hwf.
  destruct (Nat.leb_spec (length (frames p)) 1) as [Hle|Hgt].
  { exists p. rewrite advance_static by assumption. auto. }
  destruct (lookup_lt_is_Some_2 (frames p) (currentIndex p)) as [frame Hfr].
  { apply Hwf. }
  destruct (Qlt_le_dec (now - lastFrameTime p) (inject_Z (frameDelay frame)))
    as [Hlt|Hdue].
  - exists p. rewrite (advance_wait _ _ _ _ Hfr Hlt). auto.
  - destruct Hwf as (Hfs & Hidx & Hc).
    assert (Hnext : ((currentIndex p + 1) mod length (frames p) < length (frames p))%nat).
    { apply Nat.mod_upper_bound. lia. }
    destruct (lookup_lt_is_Some_2 _ _ Hnext) as [target Htarget].
    destruct (renderFrame_wf blend
                (setCurrentIndex ((currentIndex p + 1) mod length (frames p))%nat p)
                ((currentIndex p + 1) mod length (frames p))%nat target
                Hfs Hc Htarget)
      as (p2 & fc & Hr & Hd & Hf2 & Hi2 & Ht2 & Hc2 & Hw2 & Hh2 & Hpx).
    exists (setLastFrameTime now p2). split.
    { unfold advance.
      destruct (Nat.leb_spec (length (frames p)) 1); [lia|].
      rewrite Hfr. simpl. apply Qle_bool_iff in Hdue. rewrite Hdue.
      simpl in Hr |- *. rewrite Hr. reflexivity. }
    simpl in *. split.
    { unfold wf_player, cache_ok in *. simpl. rewrite Hf2, Hi2. auto. }
    auto.
Qed.

(** Driving a well-formed player through any sequence of ticks never
    throws: the player stays well formed (its index stays below the frame
    count), and neither the frame list nor the size of the composite surface
    changes. *)
Theorem advanceAll_keeps_player (blend : Pixel -> Pixel -> Pixel)
    (nows : list Q) (p : GifPlayer) :
  wf_player p ->
  exists p',
    advanceAll blend nows p = Some p' /\ wf_player p' /\
    frames p' = frames p /\ frameCount p' = frameCount p /\
    (currentIndex p' < frameCount p')%nat /\
    cv_width (getCurrentFrame p') = cv_width (getCurrentFrame p) /\
    cv_height (getCurrentFrame p') = cv_height (getCurrentFrame p).
Proof.
  unfold advanceAll, frameCount, getCurrentFrame.
  revert p. induction nows as [|now nows IH]; intros p Hwf.
  - exists p. simpl. repeat split; try reflexivity; apply Hwf.
  - destruct (advance_total blend now p Hwf) as (p1 & Hadv & Hwf1 & Hf1 & Hw1 & Hh1).
    destruct (IH p1 Hwf1) as (p' & Hall & Hwf' & Hf' & Hn' & Hi' & Hw' & Hh').
    exists p'. simpl. rewrite Hadv. simpl. split; [exact Hall|].
    split; [exact Hwf'|]. rewrite Hf', Hw', Hh', Hf1, Hw1, Hh1.
    repeat split; try reflexivity. rewrite <- Hf1, <- Hf'. exact Hi'.
Qed.

Lemma advanceAll_keeps_player_witness :
  exists p',
    advanceAll exBlend [50; 100; 120; 200; 1000]%Q exPlayer0 = Some p' /\
    frameCount p' = 2%nat /\ (currentIndex p' < 2)%nat.
Proof.
  destruct (advanceAll_keeps_player exBlend [50; 100; 120; 200; 1000]%Q
              exPlayer0 exPlayer0_wf) as (p' & Hall & _ & _ & Hn & Hi & _).
  exists p'. split; [exact Hall|]. split; [exact Hn|].
  rewrite Hn in Hi. exact Hi.
Defined.

(** Painting is compositing, not replacement: inside the frame's rectangle
    an opaque patch pixel becomes the pixel of the composite surface, and a
    fully transparent patch pixel lets through what was on the surface after
    the disposal of the previous frame. *)
Theorem renderFrame_patch_pixels (blend : Pixel -> Pixel -> Pixel)
    (p : GifPlayer) (index : nat) (frame : DecompressedFrame) (fc : Canvas)
    (x y : Z) :
  Forall wf_frame (frames p) -> cache_ok p ->
  frames p !! index = Some frame ->
  disposePrevious p index = Some fc ->
  inCanvas (frameCanvas p) x y = true ->
  inRect (dims_left (dims frame)) (dims_top (dims frame))
    (dims_width (dims frame)) (dims_height (dims frame)) x y = true ->
  let src := framePixel frame (x - dims_left (dims frame))
               (y - dims_top (dims frame)) in
  exists p',
    renderFrame blend index p = Some p' /\
    (pixelAlpha src = 255 -> cv_px (frameCanvas p') x y = src) /\
    (pixelAlpha src = 0 -> cv_px (frameCanvas p') x y = cv_px fc x y).
Proof.
  intros Hfs Hc Hfr Hd Hcanvas Hrect src.
  destruct (renderFrame_wf blend p index frame Hfs Hc Hfr)
    as (p' & fc' & Hr & Hd' & _ & _ & _ & _ & _ & _ & Hpx).
  assert (fc' = fc) as -> by congruence.
  exists p'. split; [exact Hr|].
  unfold inCanvas in Hcanvas.
  split; intros Ha; rewrite Hpx; unfold paintFrame;
    rewrite Hcanvas, Hrect; simpl; fold src; unfold sourceOver; rewrite Ha;
    reflexivity.
Qed.

Lemma renderFrame_patch_pixels_witness :
  exists p',
    renderFrame exBlend 1 exPlayer0 = Some p' /\
    cv_px (frameCanvas p') 1 0 = (0, 255, 0, 255).
Proof.
  destruct (renderFrame_patch_pixels exBlend exPlayer0 1 exGreen
              (frameCanvas exPlayer0) 1 0
              (proj1 exPlayer0_wf) (proj2 (proj2 exPlayer0_wf))
              eq_refl eq_refl eq_refl eq_refl) as (p' & Hr & Hopaque & _).
  exists p'. split; [exact Hr|]. apply Hopaque. reflexivity.
Defined.

(** A step of the sequencer touches only the rectangle of the frame it
    paints and, when it disposes, the rectangle of the frame shown before:
    every other pixel of the composite surface is left as it was. *)
Theorem advance_untouched_pixels (blend : Pixel -> Pixel -> Pixel) (now : Q)
    (p p' : GifPlayer) (cur next : DecompressedFrame) (x y : Z) :
  wf_player p ->
  advance blend now p = Some p' ->
  frames p !! currentIndex p = Some cur ->
  frames p !! ((currentIndex p + 1) mod length (frames p))%nat = Some next ->
  inRect (dims_left (dims cur)) (dims_top (dims cur))
    (dims_width (dims cur)) (dims_height (dims cur)) x y = false ->
  inRect (dims_left (dims next)) (dims_top (dims next))
    (dims_width (dims next)) (dims_height (dims next)) x y = false ->
  cv_px (frameCanvas p') x y = cv_px (frameCanvas p) x y.
Proof.
  intros Hwf Hadv Hcur Hnext Hout_cur Hout_next.
  destruct (Nat.leb_spec (length (frames p)) 1) as [Hle|Hgt].
  { rewrite advance_static in Hadv by assumption. now injection Hadv as <-. }
  destruct (Qlt_le_dec (now - lastFrameTime p) (inject_Z (frameDelay cur)))
    as [Hlt|Hdue].
  { rewrite (advance_wait _ _ _ _ Hcur Hlt) in Hadv. now injection Hadv as <-. }
  destruct (advance_due blend now p cur Hwf Hgt Hcur Hdue)
    as (q & target & fc & Hq & Htarget & Hd & _ & _ & _ & _ & Hpx).
  assert (q = p') as -> by congruence.
  assert (target = next) as -> by congruence.
  rewrite Hpx. unfold paintFrame. rewrite Hout_next, andb_false_r.
  unfold disposePrevious in Hd.
  destruct (Nat.ltb_spec 0 ((currentIndex p + 1) mod length (frames p))%nat)
    as [Hpos|Hzero]; [|now injection Hd as <-].
  assert (Hprev : ((currentIndex p + 1) mod length (frames p) - 1)%nat
                  = currentIndex p).
  { destruct Hwf as (_ & Hidx & _).
    destruct (Nat.eq_dec (currentIndex p + 1)%nat (length (frames p))) as [E|E].
    - rewrite E, Nat.Div0.mod_same in Hpos. lia.
    - rewrite Nat.mod_small by lia. lia. }
  rewrite Hprev, Hcur in Hd. simpl in Hd.
  destruct (disposalType cur =? 2); injection Hd as <-; [|reflexivity].
  simpl. now rewrite Hout_cur.
Qed.

Lemma advance_untouched_pixels_witness :
  exists p',
    advance exBlend 1500 exWide1 = Some p' /\
    currentIndex p' = 2%nat /\
    inCanvas (frameCanvas exWide1) 0 0 = true /\
    cv_px (frameCanvas exWide1) 0 0 = (255, 0, 0, 255) /\
    cv_px (frameCanvas p') 0 0 = (255, 0, 0, 255).
Proof.
  destruct (advance exBlend 1500 exWide1) as [p'|] eqn:Hadv;
    [|vm_compute in Hadv; discriminate].
  exists p'. split; [reflexivity|].
  split; [vm_compute in Hadv; injection Hadv as <-; reflexivity|].
  split; [reflexivity|]. split; [reflexivity|].
  rewrite (advance_untouched_pixels exBlend 1500 exWide1 p' exGreenMs exBlueMs
             0 0 exWide1_wf Hadv eq_refl eq_refl eq_refl eq_refl).
  reflexivity.
Defined.

(** ** computeBrightnessGrid: dimensions, degenerate media, the samples *)

Lemma Qdiv_le_mult (a b c : Q) : (0 < b -> a / b <= c -> a <= c * b)%Q.
Proof.
  intros Hb H.
  apply (Qmult_le_compat_r _ _ b) in H; [|apply Qlt_le_weak; exact Hb].
  assert (E : (a / b * b == a)%Q).
  { field. intros E. rewrite E in Hb. exact (Qlt_irrefl _ Hb). }
  now rewrite E in H.
Qed.

Lemma Qlt_div_mult (a b c : Q) : (0 < b -> c < a / b -> c * b < a)%Q.
Proof.
  intros Hb H.
  apply (Qmult_lt_compat_r _ _ b Hb) in H.
  assert (E : (a / b * b == a)%Q).
  { field. intros E. rewrite E in Hb. exact (Qlt_irrefl _ Hb). }
  now rewrite E in H.
Qed.

(** For media of non-zero size the grid has [cols = ceil(W / spacing)]
    columns and [rows = ceil(H / spacing)] rows, hence [cols * rows]
    entries; the cells cover the viewport, and the last column and the last
    row start inside it. *)
Theorem computeBrightnessGrid_dimensions (cache : GridCache)
    (media : MediaElement)
    (canvasWidth canvasHeight spacing contrast brightness : Q)
    (mediaTransform : option MediaTransform) (bgBrightness : Q) :
  gridCache_ok cache ->
  (0 < spacing)%Q -> (0 <= canvasWidth)%Q -> (0 <= canvasHeight)%Q ->
  fst (getMediaSize media) <> 0 -> snd (getMediaSize media) <> 0 ->
  exists res cache',
    computeBrightnessGrid cache media canvasWidth canvasHeight spacing
      contrast brightness mediaTransform bgBrightness = Some (res, cache') /\
    cols res = Qceiling (canvasWidth / spacing) /\
    rows res = Qceiling (canvasHeight / spacing) /\
    length (grid res) = Z.to_nat (cols res * rows res) /\
    (inject_Z (cols res - 1) * spacing < canvasWidth
       <= inject_Z (cols res) * spacing)%Q /\
    (inject_Z (rows res - 1) * spacing < canvasHeight
       <= inject_Z (rows res) * spacing)%Q.
Proof.
  intros Hc Hs Hw Hh HmW HmH.
  destruct (computeBrightnessGrid_cells cache media canvasWidth canvasHeight
              spacing contrast brightness mediaTransform bgBrightness
              Hc Hs Hw Hh) as (res & cache' & E & _ & _ & _ & Hlen & _).
  exists res, cache'. split; [exact E|].
  assert (Hdims : cols res = Qceiling (canvasWidth / spacing) /\
                  rows res = Qceiling (canvasHeight / spacing)).
  { unfold computeBrightnessGrid in E.
    destruct (getMediaSize media) as [mediaW mediaH]. simpl in HmW, HmH.
    destruct (Z.eqb_spec mediaW 0); [contradiction|].
    destruct (Z.eqb_spec mediaH 0); [contradiction|]. simpl in E.
    destruct (transformedArea mediaW mediaH canvasWidth canvasHeight mediaTransform)
      as [[[fx fy] sw] sh].
    destruct (getGridBuffer cache _) as [[b k]|]; [|discriminate].
    simpl in E. injection E as <- _. simpl. auto. }
  destruct Hdims as [Hcols Hrows].
  split; [exact Hcols|]. split; [exact Hrows|]. split; [exact Hlen|].
  rewrite Hcols, Hrows. repeat split.
  - apply Qlt_div_mult; [exact Hs | apply Qceiling_lt].
  - apply Qdiv_le_mult; [exact Hs | apply Qle_ceiling].
  - apply Qlt_div_mult; [exact Hs | apply Qceiling_lt].
  - apply Qdiv_le_mult; [exact Hs | apply Qle_ceiling].
Qed.

Lemma computeBrightnessGrid_dimensions_witness :
  exists res cache',
    computeBrightnessGrid emptyCache exWhite 105 100 20 1 0 None 0
      = Some (res, cache') /\
    cols res = 6 /\ rows res = 5 /\ length (grid res) = 30%nat.
Proof.
  destruct (computeBrightnessGrid_dimensions emptyCache exWhite 105 100 20 1 0
              None 0 emptyCache_ok)
    as (res & cache' & E & Hcols & Hrows & Hlen & _);
    try reflexivity; try (vm_compute; discriminate).
  exists res, cache'. split; [exact E|].
  rewrite Hlen, Hcols, Hrows. repeat split; reflexivity.
Defined.

(** Media of zero width or zero height: an empty grid, no columns and no
    rows, and the cached buffer is not touched; the raster pass then draws
    no shape and the export holds the background alone. *)
Theorem computeBrightnessGrid_degenerate_media (cache : GridCache)
    (media : MediaElement)
    (canvasWidth canvasHeight spacing contrast brightness : Q)
    (mediaTransform : option MediaTransform) (bgBrightness : Q)
    (state : AppState) :
  fst (getMediaSize media) = 0 \/ snd (getMediaSize media) = 0 ->
  exists res,
    computeBrightnessGrid cache media canvasWidth canvasHeight spacing
      contrast brightness mediaTransform bgBrightness = Some (res, cache) /\
    grid res = [] /\ cols res = 0 /\ rows res = 0 /\
    (renderGrid state (grid res) (cols res) (rows res) = [] \/
     renderGrid state (grid res) (cols res) (rows res) = [Fill []]) /\
    toSVG state canvasWidth canvasHeight (grid res) (cols res) (rows res) =
      [SvgOpen canvasWidth canvasHeight;
       SvgBackground canvasWidth canvasHeight (background (colors state));
       SvgClose].
Proof.
  intros Hzero. unfold computeBrightnessGrid.
  destruct (getMediaSize media) as [mediaW mediaH]. simpl in Hzero.
  assert (Hif : (mediaW =? 0) || (mediaH =? 0) = true).
  { destruct Hzero as [-> | ->]; [reflexivity | apply orb_true_r]. }
  rewrite Hif. eexists. split; [reflexivity|]. simpl.
  repeat split.
  unfold renderGrid. destruct (shape state); auto.
Qed.

Lemma computeBrightnessGrid_degenerate_media_witness :
  exists res,
    computeBrightnessGrid emptyCache (HTMLVideoElement 0 0 []) 100 100 20 1 0
      None 0 = Some (res, emptyCache) /\
    grid res = [].
Proof.
  destruct (computeBrightnessGrid_degenerate_media emptyCache
              (HTMLVideoElement 0 0 []) 100 100 20 1 0 None 0 exDiscs)
    as (res & E & Hgrid & _).
  - left. reflexivity.
  - exists res. split; [exact E | exact Hgrid].
Defined.

Lemma computeBrightnessGrid_cache_independent_witness :
  fst <$> computeBrightnessGrid emptyCache exHalf 30 10 10 1 0 None (1 # 2) =
  fst <$> computeBrightnessGrid (mkGridCache (Some [7; 7; 7]%Q) 3) exHalf
            30 10 10 1 0 None (1 # 2).
Proof.
  apply (computeBrightnessGrid_cache_independent emptyCache
           (mkGridCache (Some [7; 7; 7]%Q) 3) exHalf 30 10 10 1 0 None (1 # 2));
    try reflexivity; try exact I; vm_compute; discriminate.
Defined.

Lemma clamp01_monotone (x y : Q) : (x <= y -> clamp01 x <= clamp01 y)%Q.
Proof.
  intros Hxy. unfold clamp01.
  destruct (Qlt_bool x 0) eqn:Ex0; destruct (Qlt_bool y 0) eqn:Ey0;
    destruct (Qlt_bool 1 x) eqn:Ex1; destruct (Qlt_bool 1 y) eqn:Ey1;
    repeat match goal with
           | H : Qlt_bool _ _ = true |- _ => apply Qlt_bool_iff in H
           | H : Qlt_bool _ _ = false |- _ =>
               apply not_true_iff_false in H; rewrite Qlt_bool_iff in H;
               apply Qnot_lt_le in H
           end; lra.
Qed.

(** With a contrast that is not negative the adjustment keeps the order of
    luminances, and a larger brightness offset never darkens a cell. *)
Theorem adjust_monotone (contrast brightness brightness' lum lum' : Q) :
  (0 <= contrast -> lum <= lum' -> brightness <= brightness' ->
   adjust contrast brightness lum <= adjust contrast brightness' lum')%Q.
Proof.
  intros Hc Hl Hb. unfold adjust. apply clamp01_monotone.
  assert (H1 : ((lum - 0.5) * contrast <= (lum' - 0.5) * contrast)%Q).
  { apply Qmult_le_compat_r; [lra | exact Hc]. }
  assert (H2 : (brightness / 255 <= brightness' / 255)%Q).
  { unfold Qdiv. apply Qmult_le_compat_r; [exact Hb | discriminate]. }
  set (u := (brightness / 255)%Q) in *. set (u' := (brightness' / 255)%Q) in *.
  set (v := ((lum - 0.5) * contrast)%Q) in *.
  set (v' := ((lum' - 0.5) * contrast)%Q) in *.
  lra.
Qed.

Lemma adjust_monotone_witness :
  (adjust 2 0 (1 # 4) <= adjust 2 10 (1 # 2))%Q.
Proof.
  apply adjust_monotone; vm_compute; discriminate.
Defined.

Lemma clamp01_id (x : Q) : (0 <= x <= 1)%Q -> clamp01 x = x.
Proof.
  intros [H0 H1]. unfold clamp01, Qlt_bool.
  apply Qle_bool_iff in H0, H1. now rewrite H0, H1.
Qed.

Lemma luminance_bounds (pixels : list Z) (idx : Z) :
  0 <= byteAt pixels idx <= 255 ->
  0 <= byteAt pixels (idx + 1) <= 255 ->
  0 <= byteAt pixels (idx + 2) <= 255 ->
  (0 <= luminance pixels idx <= 1)%Q.
Proof.
  intros [Hr0 Hr1] [Hg0 Hg1] [Hb0 Hb1]. unfold luminance.
  rewrite Zle_Qle in Hr0, Hr1, Hg0, Hg1, Hb0, Hb1.
  set (r := inject_Z (byteAt pixels idx)) in *.
  set (g := inject_Z (byteAt pixels (idx + 1))) in *.
  set (b := inject_Z (byteAt pixels (idx + 2))) in *.
  change (inject_Z 0) with 0%Q in *. change (inject_Z 255) with 255%Q in *.
  split.
  - apply Qle_shift_div_l; [reflexivity|]. lra.
  - apply Qle_shift_div_r; [reflexivity|]. lra.
Qed.

(** With contrast 1 and brightness 0 the cell of an opaque pixel is the
    luminance of the pixel, a number of [0, 1] that is 1 for white and 0 for
    black: the weights of the three channels add up to 1. *)
Theorem sampleCell_default_adjustment (pixels : list Z) (mediaW mediaH : Z)
    (area : Q * Q * Q * Q) (spacing bgBrightness : Q) (row col : Z) :
  let mx := fst (mediaCoord mediaW mediaH area spacing row col) in
  let my := snd (mediaCoord mediaW mediaH area spacing row col) in
  let idx := (my * mediaW + mx) * 4 in
  outOfBounds mediaW mediaH mx my = false ->
  255 <= byteAt pixels (idx + 3) ->
  0 <= byteAt pixels idx <= 255 ->
  0 <= byteAt pixels (idx + 1) <= 255 ->
  0 <= byteAt pixels (idx + 2) <= 255 ->
  (sampleCell pixels mediaW mediaH area spacing 1 0 bgBrightness row col
     == luminance pixels idx)%Q /\
  (0 <= luminance pixels idx <= 1)%Q /\
  (byteAt pixels idx = 255 -> byteAt pixels (idx + 1) = 255 ->
   byteAt pixels (idx + 2) = 255 -> (luminance pixels idx == 1)%Q) /\
  (byteAt pixels idx = 0 -> byteAt pixels (idx + 1) = 0 ->
   byteAt pixels (idx + 2) = 0 -> (luminance pixels idx == 0)%Q).
Proof.
  intros mx my idx Hin Ha Hr Hg Hb.
  pose proof (luminance_bounds pixels idx Hr Hg Hb) as Hlum.
  split; [|split; [exact Hlum|split]].
  - unfold sampleCell. subst mx my idx.
    destruct (mediaCoord mediaW mediaH area spacing row col) as [mx my].
    simpl fst in *. simpl snd in *. rewrite Hin.
    destruct (Z.ltb_spec (byteAt pixels ((my * mediaW + mx) * 4 + 3)) 10); [lia|].
    destruct (Z.ltb_spec (byteAt pixels ((my * mediaW + mx) * 4 + 3)) 255); [lia|].
    unfold adjust.
    set (l := luminance pixels ((my * mediaW + mx) * 4)) in *.
    assert (E : ((l - 0.5) * 1 + 0.5 + 0 / 255 == l)%Q) by field.
    rewrite clamp01_id; [exact E|]. rewrite E. exact Hlum.
  - intros E1 E2 E3. unfold luminance. rewrite E1, E2, E3. reflexivity.
  - intros E1 E2 E3. unfold luminance. rewrite E1, E2, E3. reflexivity.
Qed.

Lemma sampleCell_default_adjustment_witness :
  (sampleCell (mediaPixels exWhite) 1 1 (transformedArea 1 1 100 100 None)
     20 1 0 0 2 3 == 1)%Q.
Proof.
  assert (Hbyte : 0 <= 255 <= 255) by lia.
  destruct (sampleCell_default_adjustment (mediaPixels exWhite) 1 1
              (transformedArea 1 1 100 100 None) 20 0 2 3
              eq_refl (Z.le_refl 255) Hbyte Hbyte Hbyte)
    as (Hcell & _ & Hwhite & _).
  rewrite Hcell. apply Hwhite; reflexivity.
Defined.






(** ** Shapes: cells, sizes, and the export beside the raster pass *)

Lemma svg_raster_same_cells_witness :
  svgEmits exDiscs [1; 0]%Q 2 0 0 = rasterDraws exDiscs [1; 0]%Q 2 0 0 /\
  svgEmits exDiscs [1; 0]%Q 2 0 1 = rasterDraws exDiscs [1; 0]%Q 2 0 1.
Proof.
  split; apply svg_raster_same_cells; discriminate.
Defined.

Lemma cellRadius_bounds (grid : list Q) (cols : Z)
    (maxRadius minScale maxScale : Q) (inv : bool) (row col : Z) :
  (0 <= maxRadius)%Q ->
  (0 <= cellRadius grid cols maxRadius minScale maxScale inv row col
     <= maxRadius)%Q.
Proof.
  intros Hm. unfold cellRadius.
  set (cs := clamp01 _). destruct (clamp01_bounds
    (minScale + (if inv then 1 - gridAt grid (row * cols + col)
                 else gridAt grid (row * cols + col)) * (maxScale - minScale)))
    as [H0 H1]. fold cs in H0, H1.
  split.
  - apply Qmult_le_0_compat; assumption.
  - rewrite <- (Qmult_1_r maxRadius) at 2.
    rewrite !(Qmult_comm maxRadius).
    apply Qmult_le_compat_r; assumption.
Qed.

(** Every shape fits its cell: for a spacing that is not negative the
    radius lies between 0 and [0.48 * spacing], so the square of half-side
    [r] around the cell centre, which holds the disc, the square and the
    triangle of the cell, stays inside the cell's own square of the grid. *)
Theorem shape_stays_in_cell (state : AppState) (grid : list Q) (cols : Z)
    (row col : Z) :
  (0 <= density state)%Q ->
  let spacing := density state in
  let r := cellRadius grid cols (spacing * 0.48)
             (minSize (mapping state) / 100) (maxSize (mapping state) / 100)
             (invert (mapping state)) row col in
  let cx := (inject_Z col * spacing + spacing * 0.5)%Q in
  let cy := (inject_Z row * spacing + spacing * 0.5)%Q in
  (0 <= r <= 0.48 * spacing)%Q /\
  (inject_Z col * spacing <= cx - r)%Q /\
  (cx + r <= inject_Z (col + 1) * spacing)%Q /\
  (inject_Z row * spacing <= cy - r)%Q /\
  (cy + r <= inject_Z (row + 1) * spacing)%Q /\
  (r * SQRT3 / 2 <= r)%Q.
Proof.
  intros Hs spacing r cx cy.
  assert (Hm : (0 <= spacing * 0.48)%Q) by (fold spacing in Hs; lra).
  destruct (cellRadius_bounds grid cols (spacing * 0.48)
              (minSize (mapping state) / 100) (maxSize (mapping state) / 100)
              (invert (mapping state)) row col Hm) as [H0 H1].
  fold r in H0, H1. subst cx cy.
  rewrite !inject_Z_plus. change (inject_Z 1) with 1%Q.
  set (c := inject_Z col). set (w := inject_Z row).
  assert (Hcs : (c * spacing + spacing == (c + 1) * spacing)%Q) by ring.
  assert (Hws : (w * spacing + spacing == (w + 1) * spacing)%Q) by ring.
  set (cs := (c * spacing)%Q) in *. set (ws := (w * spacing)%Q) in *.
  set (c1 := ((c + 1) * spacing)%Q) in *. set (w1 := ((w + 1) * spacing)%Q) in *.
  clearbody r. repeat split; try lra.
  unfold SQRT3, Qdiv. change (/ 2)%Q with (1 # 2)%Q. lra.
Qed.

Lemma shape_stays_in_cell_witness :
  (0 <= cellRadius [1; 0]%Q 2 (20 * 0.48) (0 / 100) (100 / 100) false 0 0
     <= 0.48 * 20)%Q.
Proof.
  destruct (shape_stays_in_cell exDiscs [1; 0]%Q 2 0 0) as (Hr & _).
  - vm_compute. discriminate.
  - exact Hr.
Defined.

(** Size follows brightness: when [minSize <= maxSize] a brighter cell
    never gets a smaller shape than a darker one, and with [invert] it never
    gets a larger one. *)
Theorem cellRadius_monotone (grid : list Q) (cols : Z)
    (maxRadius minScale maxScale : Q) (row col row' col' : Z) :
  (0 <= maxRadius)%Q -> (minScale <= maxScale)%Q ->
  (gridAt grid (row * cols + col) <= gridAt grid (row' * cols + col'))%Q ->
  (cellRadius grid cols maxRadius minScale maxScale false row col <=
   cellRadius grid cols maxRadius minScale maxScale false row' col')%Q /\
  (cellRadius grid cols maxRadius minScale maxScale true row' col' <=
   cellRadius grid cols maxRadius minScale maxScale true row col)%Q.
Proof.
  intros Hm Hscale Hb. unfold cellRadius.
  set (b := gridAt grid (row * cols + col)) in *.
  set (b' := gridAt grid (row' * cols + col')) in *.
  assert (Hd : (0 <= maxScale - minScale)%Q) by lra.
  assert (H1 : (b * (maxScale - minScale) <= b' * (maxScale - minScale))%Q).
  { apply Qmult_le_compat_r; assumption. }
  assert (H2 : ((1 - b') * (maxScale - minScale)
                <= (1 - b) * (maxScale - minScale))%Q).
  { apply Qmult_le_compat_r; [lra | assumption]. }
  split; rewrite !(Qmult_comm maxRadius);
    (apply Qmult_le_compat_r; [|exact Hm]); apply clamp01_monotone.
  - set (u := (b * (maxScale - minScale))%Q) in *.
    set (u' := (b' * (maxScale - minScale))%Q) in *. lra.
  - set (u := ((1 - b) * (maxScale - minScale))%Q) in *.
    set (u' := ((1 - b') * (maxScale - minScale))%Q) in *. lra.
Qed.

Lemma cellRadius_monotone_witness :
  (cellRadius [1 # 4; 3 # 4]%Q 2 (48 # 5) 0 1 false 0 0 <=
   cellRadius [1 # 4; 3 # 4]%Q 2 (48 # 5) 0 1 false 0 1)%Q.
Proof.
  assert (H0 : (0 <= 48 # 5)%Q) by (vm_compute; discriminate).
  assert (H1 : (0 <= 1)%Q) by (vm_compute; discriminate).
  assert (H2 : (gridAt [1 # 4; 3 # 4]%Q (0 * 2 + 0)
                <= gridAt [1 # 4; 3 # 4]%Q (0 * 2 + 1))%Q)
    by (vm_compute; discriminate).
  exact (proj1 (cellRadius_monotone [1 # 4; 3 # 4]%Q 2 (48 # 5) 0 1 0 0 0 1
                  H0 H1 H2)).
Defined.

Lemma fold_left_append {A B : Type} (f : B -> list A) (l : list B)
    (init : list A) :
  fold_left (fun acc i => acc ++ f i) l init = init ++ flat_map f l.
Proof.
  revert init. induction l as [|i l IH]; intros init; simpl.
  - now rewrite app_nil_r.
  - now rewrite IH, app_assoc.
Qed.

Lemma forRange_append {A : Type} (n : Z) (f : Z -> list A) (init : list A) :
  forRange n (fun i acc => acc ++ f i) init =
  init ++ flat_map (fun i => f (Z.of_nat i)) (seq 0 (Z.to_nat n)).
Proof.
  unfold forRange.
  apply (fold_left_append (fun i => f (Z.of_nat i))).
Qed.

(** Two nested loops that append visit the cells row by row. *)
Lemma forRange_cells {A : Type} (rows cols : Z) (f : Z -> Z -> list A)
    (init : list A) :
  forRange rows (fun row acc =>
    forRange cols (fun col acc => acc ++ f row col) acc) init =
  init ++ flat_map (fun cell => f (fst cell) (snd cell)) (gridCells rows cols).
Proof.
  rewrite (forRange_ext rows _
             (fun row acc => acc ++
                flat_map (fun col => f row (Z.of_nat col)) (seq 0 (Z.to_nat cols)))).
  2:{ intros row acc _. apply forRange_append. }
  rewrite forRange_append. f_equal. unfold gridCells.
  induction (seq 0 (Z.to_nat rows)) as [|row l IH]; [reflexivity|].
  simpl. rewrite flat_map_app, IH. f_equal. clear IH.
  induction (seq 0 (Z.to_nat cols)) as [|col l' IH']; [reflexivity|].
  simpl. now rewrite IH'.
Qed.

Lemma svgCell_at_most_one (state : AppState) (grid : list Q) (cols : Z)
    (row col : Z) :
  svgCell state grid cols row col = [] \/
  exists element, svgCell state grid cols row col = [element].
Proof.
  unfold svgCell. cbv zeta.
  match goal with
  | |- context [Qlt_bool ?r 0.3] => destruct (Qlt_bool r 0.3)
  end; [left; reflexivity|]. right.
  destruct (shape state); eauto.
  destruct (customShape (customSvgPath state) (customSvgViewBox state))
    as [[pathData viewBox]|]; eauto.
Qed.

Lemma flat_map_length_filter {A B : Type} (f : A -> list B) (keep : A -> bool)
    (l : list A) :
  (forall x, (keep x = false /\ f x = []) \/
             (keep x = true /\ exists y, f x = [y])) ->
  length (flat_map f l) = length (List.filter keep l).
Proof.
  intros Hf. induction l as [|x l IH]; [reflexivity|].
  simpl. rewrite length_app, IH.
  destruct (Hf x) as [[-> ->] | [-> [y ->]]]; reflexivity.
Qed.

(** The export is the opening element, the background rectangle, then one
    element for each cell that is not skipped, row by row, and the closing
    element: its length is 3 plus the number of cells it emits for. *)
Theorem toSVG_one_element_per_visible_cell (state : AppState) (w h : Q)
    (grid : list Q) (cols rows : Z) :
  toSVG state w h grid cols rows =
    [SvgOpen w h; SvgBackground w h (background (colors state))] ++
    flat_map (fun cell => svgCell state grid cols (fst cell) (snd cell))
      (gridCells rows cols) ++
    [SvgClose] /\
  length (toSVG state w h grid cols rows) =
    (3 + length (List.filter
                   (fun cell => svgEmits state grid cols (fst cell) (snd cell))
                   (gridCells rows cols)))%nat /\
  length (gridCells rows cols) = (Z.to_nat rows * Z.to_nat cols)%nat.
Proof.
  assert (Hsvg : toSVG state w h grid cols rows =
    [SvgOpen w h; SvgBackground w h (background (colors state))] ++
    flat_map (fun cell => svgCell state grid cols (fst cell) (snd cell))
      (gridCells rows cols) ++ [SvgClose]).
  { unfold toSVG. rewrite forRange_cells. now rewrite <- app_assoc. }
  split; [exact Hsvg|]. split.
  - rewrite Hsvg. rewrite !length_app. simpl.
    rewrite (flat_map_length_filter _
               (fun cell => svgEmits state grid cols (fst cell) (snd cell))).
    + lia.
    + intros [row col]. unfold svgEmits. simpl.
      destruct (svgCell_at_most_one state grid cols row col) as [E | [e E]];
        rewrite E; eauto.
  - unfold gridCells.
    assert (Hl : forall l : list nat,
      length (flat_map (fun row =>
                map (fun col => (Z.of_nat row, Z.of_nat col))
                  (seq 0 (Z.to_nat cols))) l) = (length l * Z.to_nat cols)%nat).
    { induction l as [|row l IH]; [reflexivity|].
      simpl. now rewrite length_app, length_map, length_seq, IH. }
    now rewrite Hl, length_seq.
Qed.

(** [toFixed] is off by at most half a unit of its last digit. *)
Lemma toFixed_error (digits : nat) (x : Q) :
  (Qabs (toFixed digits x - x) <= (1 # 2) / inject_Z (10 ^ Z.of_nat digits))%Q.
Proof.
  unfold toFixed.
  set (s := inject_Z (10 ^ Z.of_nat digits)).
  assert (Hs : (0 < s)%Q).
  { subst s. rewrite <- (Zlt_Qlt 0). apply Z.pow_pos_nonneg; lia. }
  assert (Hs' : ~ (s == 0)%Q).
  { intros E. rewrite E in Hs. exact (Qlt_irrefl _ Hs). }
  set (a := Qabs x).
  set (n := Qfloor (a * s + (1 # 2))).
  pose proof (Qfloor_le (a * s + (1 # 2))) as Hle. fold n in Hle.
  pose proof (Qlt_floor (a * s + (1 # 2))) as Hlt. fold n in Hlt.
  rewrite inject_Z_plus in Hlt. change (inject_Z 1) with 1%Q in Hlt.
  assert (Hup : (inject_Z n / s <= a + (1 # 2) / s)%Q).
  { apply Qle_shift_div_r; [exact Hs|].
    setoid_replace ((a + (1 # 2) / s) * s)%Q with (a * s + (1 # 2))%Q
      using relation Qeq by (field; exact Hs').
    exact Hle. }
  assert (Hlo : (a - (1 # 2) / s <= inject_Z n / s)%Q).
  { apply Qle_shift_div_l; [exact Hs|].
    setoid_replace ((a - (1 # 2) / s) * s)%Q with (a * s - (1 # 2))%Q
      using relation Qeq by (field; exact Hs').
    lra. }
  set (e := ((1 # 2) / s)%Q) in *. set (v := (inject_Z n / s)%Q) in *.
  apply Qabs_Qle_condition.
  destruct (Qlt_bool x 0) eqn:Ex.
  - apply Qlt_bool_iff in Ex.
    assert (Ea : (a == - x)%Q) by (apply Qabs_neg; lra).
    rewrite Ea in Hup, Hlo. lra.
  - apply not_true_iff_false in Ex. rewrite Qlt_bool_iff in Ex.
    apply Qnot_lt_le in Ex.
    assert (Ea : (a == x)%Q) by (apply Qabs_pos; exact Ex).
    rewrite Ea in Hup, Hlo. lra.
Qed.

Lemma toFixed_1_error (x y : Q) :
  (x == y)%Q -> (Qabs (toFixed 1 x - y) <= 1 # 20)%Q.
Proof.
  intros E. rewrite <- E. apply (toFixed_error 1 x).
Qed.

(** The exported circle matches the disc of the raster pass: it is emitted
    for the same cell, and its centre and its radius, printed with one
    decimal, differ from those of the disc by at most 0.05. *)
Theorem svg_circle_matches_disc (state : AppState) (grid : list Q) (cols : Z)
    (row col : Z) :
  shape state = circle ->
  rasterDraws state grid cols row col = true ->
  exists cx cy r cx' cy' r',
    rasterCell state grid cols row col =
      Batched [MoveTo (cx + r) cy; Arc cx cy r 0 TWO_PI] /\
    svgCell state grid cols row col =
      [SvgCircle cx' cy' r' (foreground (colors state))] /\
    (Qabs (cx' - cx) <= 1 # 20)%Q /\
    (Qabs (cy' - cy) <= 1 # 20)%Q /\
    (Qabs (r' - r) <= 1 # 20)%Q.
Proof.
  intros Hshape Hdraws.
  unfold rasterDraws in Hdraws. unfold rasterCell, svgCell in *.
  rewrite Hshape in *. unfold batchCircleCell in *. cbv zeta in *.
  rewrite (Qlt_bool_compat _ _ _ (svgRadius_cellRadius _ _ _ _ _ _ _ _)).
  set (r := cellRadius grid cols (density state * 0.48)
              (minSize (mapping state) / 100) (maxSize (mapping state) / 100)
              (invert (mapping state)) row col) in *.
  destruct (Qlt_bool r 0.3); [discriminate|].
  eexists _, _, r, _, _, _.
  split; [reflexivity|]. split; [reflexivity|].
  split; [|split].
  - apply toFixed_1_error. field.
  - apply toFixed_1_error. field.
  - apply toFixed_1_error. apply svgRadius_cellRadius.
Qed.

Lemma svg_circle_matches_disc_witness :
  exists r', svgCell exDiscs [1; 0]%Q 2 0 0 =
               [SvgCircle 10.0 10.0 r' "#ffffff"] /\
             (Qabs (r' - 9.6) <= 1 # 10)%Q.
Proof.
  destruct (svg_circle_matches_disc exDiscs [1; 0]%Q 2 0 0 eq_refl eq_refl)
    as (cx & cy & r & cx' & cy' & r' & Hraster & Hsvg & _ & _ & Hr).
  vm_compute in Hsvg. injection Hsvg as <- <- <-.
  eexists. split; [vm_compute; reflexivity|].
  vm_compute. discriminate.
Defined.

(** ** The render loop *)

Lemma runTicks_from (ticks : list (bool * Z)) (r : ShapetoneRenderer) (n : nat) :
  fold_left (fun acc tick =>
               let '(r', rendered) := loop (fst tick) (snd tick) (fst acc) in
               (r', if rendered then S (snd acc) else snd acc))
    ticks (r, n) =
  (fst (runTicks ticks r), (n + snd (runTicks ticks r))%nat).
Proof.
  unfold runTicks. revert r n.
  induction ticks as [|tick ticks IH]; intros r n; simpl.
  - now rewrite Nat.add_0_r.
  - destruct (loop (fst tick) (snd tick) r) as [r' [|]]; simpl.
    + rewrite (IH r' (S n)), (IH r' 1%nat). simpl. f_equal. lia.
    + rewrite (IH r' n), (IH r' 0%nat). reflexivity.
Qed.

Lemma runTicks_cons (tick : bool * Z) (ticks : list (bool * Z))
    (r : ShapetoneRenderer) :
  runTicks (tick :: ticks) r =
  (fst (runTicks ticks (fst (loop (fst tick) (snd tick) r))),
   ((if snd (loop (fst tick) (snd tick) r) then 1 else 0)
    + snd (runTicks ticks (fst (loop (fst tick) (snd tick) r))))%nat).
Proof.
  unfold runTicks at 1. simpl.
  destruct (loop (fst tick) (snd tick) r) as [r' [|]]; simpl;
    apply runTicks_from.
Qed.

(** A static source costs nothing while idle: with an image (or no media)
    and nothing animating, a running renderer calls [render] once if it is
    dirty and never again, however many ticks follow; the dirty flag is
    clear afterwards. *)
Theorem static_source_renders_once (ticks : list (bool * Z))
    (r : ShapetoneRenderer) :
  running r = true ->
  animatedType (mediaType r) = false ->
  Forall (fun tick => fst tick = false) ticks ->
  ticks <> [] ->
  snd (runTicks ticks r) = (if dirty r then 1 else 0)%nat /\
  dirty (fst (runTicks ticks r)) = false /\
  running (fst (runTicks ticks r)) = true.
Proof.
  intros Hrun Hstatic Hquiet Hne.
  revert r Hrun Hstatic Hne.
  induction ticks as [|[animating id] ticks IH]; intros r Hrun Hstatic Hne;
    [contradiction|].
  apply Forall_cons in Hquiet. destruct Hquiet as [Hq Hquiet]. simpl in Hq. subst.
  rewrite runTicks_cons. cbn [fst snd].
  assert (Hloop : loop false id r =
                  (mkShapetoneRenderer (running r) false id (mediaType r), dirty r)).
  { unfold loop. rewrite Hrun, Hstatic. simpl negb. cbv iota.
    rewrite !orb_false_r. destruct (dirty r) eqn:Hd; reflexivity. }
  rewrite Hloop. cbn [fst snd].
  destruct ticks as [|tick ticks].
  - destruct (dirty r); simpl; auto.
  - destruct (IH Hquiet (mkShapetoneRenderer (running r) false id (mediaType r)))
      as (Hn & Hd' & Hr'); [exact Hrun | exact Hstatic | discriminate |].
    rewrite Hn, Hd', Hr'. cbn [dirty]. rewrite Nat.add_0_r. auto.
Qed.

Lemma static_source_renders_once_witness :
  snd (runTicks [(false, 1); (false, 2); (false, 3)]
         (mkShapetoneRenderer true true 0 (Some image))) = 1%nat.
Proof.
  destruct (static_source_renders_once [(false, 1); (false, 2); (false, 3)]
              (mkShapetoneRenderer true true 0 (Some image)) eq_refl eq_refl)
    as (Hn & _).
  - repeat constructor.
  - discriminate.
  - exact Hn.
Defined.

(** An animated source is redrawn at every tick: with media of type video,
    gif or obj3d (a GIF of a single frame included), or while
    [isAnimating()] holds, a running renderer calls [render] once per tick;
    a stopped renderer never does. *)
Theorem animated_source_renders_every_tick (ticks : list (bool * Z))
    (r : ShapetoneRenderer) :
  (running r = true ->
   animatedType (mediaType r) = true \/
   Forall (fun tick => fst tick = true) ticks ->
   snd (runTicks ticks r) = length ticks) /\
  (running r = false -> runTicks ticks r = (r, 0%nat)).
Proof.
  split.
  - intros Hrun Hanim. revert r Hrun Hanim.
    induction ticks as [|[animating id] ticks IH]; intros r Hrun Hanim;
      [reflexivity|].
    rewrite runTicks_cons. cbn [fst snd].
    assert (Hredraw : dirty r || animatedType (mediaType r) || animating = true).
    { destruct Hanim as [Ht | Hall].
      - rewrite Ht, orb_true_r. reflexivity.
      - apply Forall_cons in Hall. destruct Hall as [Ha _]. simpl in Ha.
        subst. apply orb_true_r. }
    assert (Hloop : loop animating id r =
                    (mkShapetoneRenderer (running r) false id (mediaType r), true)).
    { unfold loop. rewrite Hrun, Hredraw. reflexivity. }
    rewrite Hloop. cbn [fst snd length].
    rewrite IH; [reflexivity | exact Hrun |].
    destruct Hanim as [Ht | Hall]; [left; exact Ht | right].
    apply Forall_cons in Hall. tauto.
  - intros Hstop. induction ticks as [|[animating id] ticks IH]; [reflexivity|].
    rewrite runTicks_cons. cbn [fst snd].
    unfold loop. rewrite Hstop. cbn [negb fst snd]. rewrite IH. reflexivity.
Qed.

Lemma animated_source_renders_every_tick_witness :
  snd (runTicks [(false, 1); (false, 2); (false, 3)]
         (mkShapetoneRenderer true false 0 (Some gif))) = 3%nat /\
  runTicks [(true, 1); (true, 2)] (stop (mkShapetoneRenderer true true 7 (Some gif)))
    = (stop (mkShapetoneRenderer true true 7 (Some gif)), 0%nat).
Proof.
  split.
  - exact (proj1 (animated_source_renders_every_tick
                    [(false, 1); (false, 2); (false, 3)]
                    (mkShapetoneRenderer true false 0 (Some gif)))
             eq_refl (or_introl eq_refl)).
  - exact (proj2 (animated_source_renders_every_tick
                    [(true, 1); (true, 2)]
                    (stop (mkShapetoneRenderer true true 7 (Some gif))))
             eq_refl).
Defined.

(** ** parseSTL: buffers that are too short *)

Lemma getUint32_out_of_range (buffer : list Z) (byteOffset : Z) :
  Z.of_nat (length buffer) < byteOffset + 4 ->
  getUint32 buffer byteOffset = None.
Proof.
  intros Hshort. unfold getUint32.
  destruct (Z.ltb_spec byteOffset 0); [reflexivity|].
  destruct (buffer !! Z.to_nat byteOffset); [|reflexivity].
  destruct (buffer !! (Z.to_nat byteOffset + 1)%nat); [|reflexivity].
  destruct (buffer !! (Z.to_nat byteOffset + 2)%nat); [|reflexivity].
  rewrite (lookup_ge_None_2 buffer (Z.to_nat byteOffset + 3)) by lia.
  reflexivity.
Qed.

(** A loop one of whose iterations throws, whatever it is handed, throws. *)
Lemma forRangeM_fails {S : Type} (n i : Z) (body : Z -> S -> option S) (s : S) :
  0 <= i < n -> (forall t, body i t = None) -> forRangeM n body s = None.
Proof.
  intros Hi Hfail. unfold forRangeM.
  apply (forRange_invariant (fun k acc => i < k -> acc = None) n
           (fun j acc => acc ≫= body j) (Some s)); [lia | lia | | lia].
  intros j acc Hj IH Hlt.
  destruct (Z.eq_dec j i) as [->|Hne].
  - destruct acc as [t|]; [apply Hfail | reflexivity].
  - rewrite IH by lia. reflexivity.
Qed.

Lemma stlTriangle_truncated (buffer : list Z) (i : Z)
    (arrays : list float32 * list float32) :
  0 <= i -> Z.of_nat (length buffer) < 84 + i * 50 + 48 ->
  stlTriangle buffer i arrays = None.
Proof.
  intros Hi Hshort. unfold stlTriangle, getFloat32. cbv zeta.
  destruct (getUint32 buffer (84 + i * 50)) as [nx|]; [|reflexivity].
  destruct (getUint32 buffer (84 + i * 50 + 4)) as [ny|]; [|reflexivity].
  destruct (getUint32 buffer (84 + i * 50 + 8)) as [nz|]; [|reflexivity].
  simpl. apply (forRangeM_fails 3 2); [lia|].
  intros [vs ns].
  destruct (getUint32 buffer (84 + i * 50 + 12 + 2 * 12)) as [x|]; [|reflexivity].
  destruct (getUint32 buffer (84 + i * 50 + 12 + 2 * 12 + 4)) as [y|]; [|reflexivity].
  rewrite (getUint32_out_of_range buffer (84 + i * 50 + 12 + 2 * 12 + 8)) by lia.
  reflexivity.
Qed.

Lemma stlTriangle_returns (buffer : list Z) (i : Z)
    (arrays : list float32 * list float32) :
  0 <= i -> 84 + i * 50 + 48 <= Z.of_nat (length buffer) ->
  is_Some (stlTriangle buffer i arrays).
Proof.
  intros Hi Hlen. unfold stlTriangle, getFloat32. cbv zeta.
  destruct (getUint32_in_range buffer (84 + i * 50)) as [nx ->]; [lia..|].
  destruct (getUint32_in_range buffer (84 + i * 50 + 4)) as [ny ->]; [lia..|].
  destruct (getUint32_in_range buffer (84 + i * 50 + 8)) as [nz ->]; [lia..|].
  simpl.
  match goal with
  | |- is_Some (forRangeM 3 ?body ?s) =>
      destruct (forRangeM_invariant (fun _ _ => True) 3 body s) as (t & -> & _)
  end; [lia | exact I | | eauto].
  intros v [vs ns] Hv _.
  destruct (getUint32_in_range buffer (84 + i * 50 + 12 + v * 12)) as [x ->]; [lia..|].
  destruct (getUint32_in_range buffer (84 + i * 50 + 12 + v * 12 + 4)) as [y ->]; [lia..|].
  destruct (getUint32_in_range buffer (84 + i * 50 + 12 + v * 12 + 8)) as [z ->]; [lia..|].
  simpl. eauto.
Qed.

(** Exactly which binary buffers [parseSTL] decodes. A buffer that does not
    start with ["solid"] is decoded if and only if its count field at
    offset 80 can be read and either declares no triangle or the buffer
    reaches byte 48 of the last declared record; the two attribute bytes of
    the last record may be missing. Any shorter buffer (fewer than 84
    bytes, or cut inside a declared triangle) makes the function throw. *)
Theorem parseSTL_returns_iff
    (parseSTLAscii : list Z -> BufferGeometry float32) (buffer : list Z) :
  bytes buffer ->
  take 5 buffer <> solid ->
  (is_Some (parseSTL parseSTLAscii buffer) <->
   exists count, getUint32 buffer 80 = Some count /\
     (count = 0 \/ 84 + 50 * count - 2 <= Z.of_nat (length buffer))).
Proof.
  intros Hbytes Hmagic. unfold parseSTL.
  destruct (Nat.ltb_spec (length buffer) 5) as [Hshort|Hlong].
  { split; [intros [g Hg]; discriminate|].
    intros (count & Hcount & _).
    rewrite getUint32_out_of_range in Hcount by lia. discriminate. }
  rewrite bool_decide_eq_false_2 by exact Hmagic.
  destruct (getUint32 buffer 80) as [count|] eqn:Hcount; simpl.
  2:{ split; [intros [g Hg]; discriminate | intros (c & Hc & _); discriminate]. }
  pose proof (getUint32_bounds buffer 80 count Hbytes Hcount) as Hrange.
  set (arrays := (replicate (Z.to_nat (count * 9)) 0,
                  replicate (Z.to_nat (count * 9)) 0)).
  destruct (Z_le_gt_dec (84 + 50 * count - 2) (Z.of_nat (length buffer)))
    as [Hfits|Hcut].
  - destruct (forRangeM_invariant (fun _ _ => True) count
                (stlTriangle buffer) arrays) as ([vs ns] & Hloop & _);
      [lia | exact I | |].
    + intros i t Hi _.
      destruct (stlTriangle_returns buffer i t) as [t' Ht']; [lia..|]. eauto.
    + rewrite Hloop. simpl. split; [eauto|]. intros _. eauto.
  - destruct (Z.eq_dec count 0) as [->|Hpos].
    + unfold forRangeM. rewrite forRange_nonpos by lia. simpl.
      split; [eauto|]. intros _. eauto.
    + rewrite (forRangeM_fails count (count - 1)); [| lia |].
      * simpl. split; [intros [g Hg]; discriminate|].
        intros (c & [= <-] & [Hc|Hc]); lia.
      * intros t. apply stlTriangle_truncated; lia.
Qed.

Lemma parseSTL_returns_iff_witness :
  is_Some (parseSTL (fun _ => mkBufferGeometry [] ComputeVertexNormals None)
             (take 132 exStl)) /\
  parseSTL (fun _ => mkBufferGeometry [] ComputeVertexNormals None)
    (take 131 exStl) = None.
Proof.
  split.
  - apply (proj2 (parseSTL_returns_iff
                    (fun _ => mkBufferGeometry [] ComputeVertexNormals None)
                    (take 132 exStl)
                    ltac:(unfold bytes; vm_compute; repeat constructor; discriminate)
                    ltac:(vm_compute; discriminate))).
    exists 1. split; [reflexivity|]. right. vm_compute. discriminate.
  - destruct (parseSTL (fun _ => mkBufferGeometry [] ComputeVertexNormals None)
                (take 131 exStl)) as [g|] eqn:E; [|reflexivity].
    destruct (proj1 (parseSTL_returns_iff
                       (fun _ => mkBufferGeometry [] ComputeVertexNormals None)
                       (take 131 exStl)
                       ltac:(unfold bytes; vm_compute; repeat constructor; discriminate)
                       ltac:(vm_compute; discriminate)))
      as (count & Hcount & Hlen).
    + rewrite E. eauto.
    + vm_compute in Hcount. injection Hcount as <-.
      destruct Hlen as [Hc|Hc]; [discriminate|].
      vm_compute in Hc. contradiction Hc. reflexivity.
Defined.

(** ** parseOBJ: the indices of the result *)

Lemma resolveReference_in_range_iff (vertexCount : nat) (reference : string) :
  indexInRange vertexCount (resolveReference vertexCount reference) <->
  referenceInRange vertexCount reference.
Proof.
  unfold indexInRange, referenceInRange, resolveReference, resolveIndex.
  destruct (parseInt _) as [k|]; split.
  - intros (z & [= <-] & Hz). exists k. split; [reflexivity|].
    destruct (Z.ltb_spec 0 k); lia.
  - intros (k' & [= <-] & Hk). eexists. split; [reflexivity|].
    destruct (Z.ltb_spec 0 k); lia.
  - intros (z & Hz & _). discriminate.
  - intros (k & Hk & _). discriminate.
Qed.

Lemma indexInRange_mono (n m : nat) (i : option Z) :
  (n <= m)%nat -> indexInRange n i -> indexInRange m i.
Proof. intros Hle (z & -> & Hz). exists z. split; [reflexivity|lia]. Qed.

Lemma faceVert_lookup (faceVerts : list (option Z)) (j : nat) (i : option Z) :
  faceVerts !! j = Some i -> faceVert faceVerts (Z.of_nat j) = i.
Proof. intros H. unfold faceVert. now rewrite Nat2Z.id, H. Qed.

(** The corners of the triangles of a fan are entries of the face. *)
Lemma fan_corners (faceVerts : list (option Z)) (P : option Z -> Prop) :
  Forall P faceVerts ->
  Forall P (flat_map (fanTriangle faceVerts) (seq 1 (length faceVerts - 2))).
Proof.
  intros Hall. rewrite Forall_flat_map, Forall_forall.
  intros i Hi. apply elem_of_seq in Hi. rewrite Forall_lookup in Hall.
  destruct (lookup_lt_is_Some_2 faceVerts 0) as [a Ha]; [lia|].
  destruct (lookup_lt_is_Some_2 faceVerts i) as [b Hb]; [lia|].
  destruct (lookup_lt_is_Some_2 faceVerts (Datatypes.S i)) as [c Hc]; [lia|].
  unfold fanTriangle.
  replace (Z.of_nat i + 1) with (Z.of_nat (Datatypes.S i)) by lia.
  change 0 with (Z.of_nat 0).
  rewrite (faceVert_lookup _ 0 a Ha), (faceVert_lookup _ i b Hb),
    (faceVert_lookup _ (Datatypes.S i) c Hc).
  repeat constructor; eauto.
Qed.

(** Each entry of a face of three references or more is a corner of a
    triangle of its fan. *)
Lemma fan_covers (faceVerts : list (option Z)) (P : option Z -> Prop) :
  (3 <= length faceVerts)%nat ->
  Forall P (flat_map (fanTriangle faceVerts) (seq 1 (length faceVerts - 2))) ->
  Forall P faceVerts.
Proof.
  intros Hlen Hall. rewrite Forall_flat_map, Forall_forall in Hall.
  rewrite Forall_lookup. intros j x Hj.
  pose proof (lookup_lt_Some _ _ _ Hj) as Hlt.
  destruct (Nat.eq_dec j 0%nat) as [->|Hj0].
  - specialize (Hall 1%nat). rewrite elem_of_seq in Hall.
    specialize (Hall ltac:(lia)). unfold fanTriangle in Hall.
    apply Forall_cons in Hall. destruct Hall as [H0 _].
    change 0 with (Z.of_nat 0) in H0.
    now rewrite (faceVert_lookup _ 0 x Hj) in H0.
  - destruct (Nat.eq_dec j (length faceVerts - 1)%nat) as [Hlast|Hmid].
    + specialize (Hall (j - 1)%nat). rewrite elem_of_seq in Hall.
      specialize (Hall ltac:(lia)). unfold fanTriangle in Hall.
      replace (Z.of_nat (j - 1) + 1) with (Z.of_nat j) in Hall by lia.
      apply Forall_cons in Hall. destruct Hall as [_ Hall].
      apply Forall_cons in Hall. destruct Hall as [_ Hall].
      apply Forall_cons in Hall. destruct Hall as [H2 _].
      now rewrite (faceVert_lookup _ j x Hj) in H2.
    + specialize (Hall j). rewrite elem_of_seq in Hall.
      specialize (Hall ltac:(lia)). unfold fanTriangle in Hall.
      apply Forall_cons in Hall. destruct Hall as [_ Hall].
      apply Forall_cons in Hall. destruct Hall as [H1 _].
      now rewrite (faceVert_lookup _ j x Hj) in H1.
Qed.

Lemma part_head (parts : list string) (keyword : string) :
  keyword <> EmptyString -> part parts 0 = keyword ->
  exists refs, parts = keyword :: refs.
Proof.
  intros Hne Hk. destruct parts as [|p refs]; [now symmetry in Hk|].
  exists refs. unfold part in Hk. simpl in Hk. now subst.
Qed.

(** What a line does to the state, by its kind. *)
Lemma objLine_cases {F : Type} (parseFloat : string -> F) (st : ObjState F)
    (line : string) :
  (exists v, tempVerts (objLine parseFloat st line) = tempVerts st ++ [v] /\
             tempNormals (objLine parseFloat st line) = tempNormals st /\
             indices (objLine parseFloat st line) = indices st) \/
  (exists n, tempVerts (objLine parseFloat st line) = tempVerts st /\
             tempNormals (objLine parseFloat st line) = tempNormals st ++ [n] /\
             indices (objLine parseFloat st line) = indices st) \/
  (exists refs,
     splitWhite false EmptyString (trim line) = "f"%string :: refs /\
     tempVerts (objLine parseFloat st line) = tempVerts st /\
     tempNormals (objLine parseFloat st line) = tempNormals st /\
     indices (objLine parseFloat st line) =
       indices st ++
       flat_map (fanTriangle (resolveReference (length (tempVerts st)) <$> refs))
         (seq 1 (length refs - 2))) \/
  objLine parseFloat st line = st.
Proof.
  unfold objLine.
  set (parts := splitWhite false EmptyString (trim line)).
  destruct (String.eqb (part parts 0) "v" && (4 <=? length parts)%nat) eqn:Ev.
  { left. eexists. repeat split. }
  destruct (String.eqb (part parts 0) "vn" && (4 <=? length parts)%nat) eqn:En.
  { right. left. eexists. repeat split. }
  destruct (String.eqb (part parts 0) "f") eqn:Ef.
  - right. right. left. apply String.eqb_eq in Ef.
    destruct (part_head parts "f"%string ltac:(discriminate) Ef) as [refs Hparts].
    exists refs. split; [exact Hparts|]. cbn [tempVerts tempNormals indices].
    split; [reflexivity|]. split; [reflexivity|].
    rewrite Hparts, faceVertices_map, fanTriangles_flat_map, length_fmap.
    reflexivity.
  - right. right. right. reflexivity.
Qed.

Lemma objLine_keeps_indices_in_range {F : Type} (parseFloat : string -> F)
    (st : ObjState F) (line : string) :
  Forall (indexInRange (length (tempVerts st))) (indices st) ->
  (forall refs,
     splitWhite false EmptyString (trim line) = "f"%string :: refs ->
     Forall (referenceInRange (length (tempVerts st))) refs) ->
  Forall (indexInRange (length (tempVerts (objLine parseFloat st line))))
    (indices (objLine parseFloat st line)).
Proof.
  intros Hst Hrefs.
  destruct (objLine_cases parseFloat st line)
    as [(v & -> & _ & ->) | [(n & -> & _ & ->) | [(refs & Hp & -> & _ & ->) | ->]]].
  - eapply Forall_impl; [exact Hst|].
    intros i. apply indexInRange_mono. rewrite length_app. lia.
  - exact Hst.
  - apply Forall_app. split; [exact Hst|].
    specialize (Hrefs refs Hp).
    pose proof (fan_corners (resolveReference (length (tempVerts st)) <$> refs)
                  (indexInRange (length (tempVerts st)))) as Hfan.
    rewrite length_fmap in Hfan. apply Hfan.
    apply Forall_fmap. eapply Forall_impl; [exact Hrefs|].
    intros r Hr. now apply resolveReference_in_range_iff.
  - exact Hst.
Qed.

Lemma flatten_length {F : Type} (triples : list (F * F * F)) :
  length (flatten F triples) = (3 * length triples)%nat.
Proof.
  unfold flatten. induction triples as [|[[x y] z] l IH]; [reflexivity|].
  cbn. cbn in IH. rewrite IH. lia.
Qed.

Lemma fold_objLine_indices_in_range {F : Type} (parseFloat : string -> F)
    (lines : list string) (st : ObjState F) :
  Forall (indexInRange (length (tempVerts st))) (indices st) ->
  facesReferToEarlierVertices parseFloat st lines ->
  Forall (indexInRange
            (length (tempVerts (fold_left (objLine parseFloat) lines st))))
    (indices (fold_left (objLine parseFloat) lines st)).
Proof.
  revert st. induction lines as [|line lines IH]; intros st Hst Hvalid;
    [exact Hst|].
  simpl. apply IH.
  - apply objLine_keeps_indices_in_range; [exact Hst|].
    intros refs Hp. exact (Hvalid [] line lines refs eq_refl Hp).
  - intros before l after refs Hsplit Hp.
    apply (Hvalid (line :: before) l after refs); [|exact Hp].
    simpl. now rewrite Hsplit.
Qed.

(** A text whose face lines only refer to vertices defined above them
    (by positive references up to the number of vertices read so far, or
    negative ones down to minus that number) is parsed into a geometry whose
    every index addresses a vertex: it is a number [z], not [NaN] and not
    negative, and the three coordinates of vertex [z] lie within the
    position array. *)
Theorem parseOBJ_indices_in_range (F : Type) (parseFloat : string -> F)
    (text : string) :
  facesReferToEarlierVertices parseFloat (mkObjState [] [] [])
    (splitOn "010"%char text) ->
  exists idx,
    index (parseOBJ parseFloat text) = Some idx /\
    Forall (fun i => exists z, i = Some z /\ 0 <= z /\
              3 * z + 2 < Z.of_nat (length (position (parseOBJ parseFloat text))))
      idx.
Proof.
  intros Hvalid. unfold parseOBJ. cbn [index position].
  eexists. split; [reflexivity|].
  pose proof (fold_objLine_indices_in_range parseFloat (splitOn "010"%char text)
                (mkObjState [] [] []) (Forall_nil_2 _) Hvalid) as Hall.
  eapply Forall_impl; [exact Hall|].
  intros i (z & -> & Hz). exists z. split; [reflexivity|].
  rewrite flatten_length. lia.
Qed.

Lemma parseOBJ_indices_in_range_witness :
  index (parseOBJ (fun s => s) exObjText) =
    Some [Some 0; Some 1; Some 2; Some 0; Some 1; Some 2; Some 0; Some 2; Some 3] /\
  length (position (parseOBJ (fun s => s) exObjText)) = 12%nat.
Proof.
  assert (Hvalid : facesReferToEarlierVertices (fun s : string => s)
                     (mkObjState [] [] []) (splitOn "010"%char exObjText)).
  { intros before line after refs Hsplit Hparts.
    vm_compute in Hsplit.
    repeat (destruct before as [|? before]; simpl in Hsplit;
            [injection Hsplit as <- <-; vm_compute in Hparts;
             first [discriminate Hparts | injection Hparts as <-]
            |injection Hsplit as <- Hsplit]);
      try (destruct before; discriminate Hsplit);
      repeat constructor; eexists; (split; [vm_compute; reflexivity|]);
      vm_compute; intuition discriminate. }
  destruct (parseOBJ_indices_in_range string (fun s => s) exObjText Hvalid)
    as (idx & Hidx & _).
  split; reflexivity.
Defined.

(** A face line of three references or more appends indices that all
    address a vertex if and only if every one of its references is in
    range. So a reference 0, a reference beyond the vertices read so far, or
    one that is not a number, each puts an index outside the vertices (or
    [NaN]) into the geometry; the line is not rejected. *)
Theorem face_indices_valid_iff (F : Type) (parseFloat : string -> F)
    (st : ObjState F) (line : string) (refs : list string) :
  splitWhite false EmptyString (trim line) = "f"%string :: refs ->
  (3 <= length refs)%nat ->
  (Forall (indexInRange (length (tempVerts st)))
     (drop (length (indices st)) (indices (objLine parseFloat st line))) <->
   Forall (referenceInRange (length (tempVerts st))) refs).
Proof.
  intros Hparts Hlen.
  destruct (objLine_cases parseFloat st line)
    as [(v & Hv & _ & _) | [(n & _ & Hn & _) | [(refs' & Hp & _ & _ & Hidx) | Hst]]].
  - exfalso. unfold objLine in Hv. rewrite Hparts in Hv. simpl in Hv.
    apply (f_equal length) in Hv. rewrite length_app in Hv. simpl in Hv. lia.
  - exfalso. unfold objLine in Hn. rewrite Hparts in Hn. simpl in Hn.
    apply (f_equal length) in Hn. rewrite length_app in Hn. simpl in Hn. lia.
  - rewrite Hparts in Hp. injection Hp as <-.
    rewrite Hidx, drop_app_length.
    set (faceVerts := resolveReference (length (tempVerts st)) <$> refs).
    assert (Hfv : length faceVerts = length refs) by apply length_fmap.
    rewrite <- Hfv. split.
    + intros Hall. apply fan_covers in Hall; [|lia].
      unfold faceVerts in Hall.
      rewrite (Forall_fmap (resolveReference (length (tempVerts st)))) in Hall.
      eapply Forall_impl; [exact Hall|].
      intros r Hr. now apply resolveReference_in_range_iff.
    + intros Hall. apply fan_corners. unfold faceVerts. apply Forall_fmap.
      eapply Forall_impl; [exact Hall|].
      intros r Hr. now apply resolveReference_in_range_iff.
  - exfalso. pose proof (f_equal indices Hst) as Hi.
    unfold objLine in Hi. rewrite Hparts in Hi. simpl in Hi.
    rewrite faceVertices_map, fanTriangles_flat_map, length_fmap in Hi.
    apply (f_equal length) in Hi.
    rewrite length_app, fan_length, length_seq in Hi. lia.
Qed.

Lemma face_indices_valid_iff_witness :
  ~ Forall (indexInRange 2)
      (indices (objLine (fun s => s) exObjState "f 1 2 0"%string)) /\
  indices (objLine (fun s => s) exObjState "f 1 2 0"%string) =
    [Some 0; Some 1; Some 2].
Proof.
  split; [|reflexivity].
  intros Hall.
  pose proof (proj1 (face_indices_valid_iff string (fun s => s) exObjState
                       "f 1 2 0"%string ["1"; "2"; "0"]%string eq_refl
                       ltac:(simpl; lia)) Hall) as Hrefs.
  apply Forall_cons in Hrefs. destruct Hrefs as [_ Hrefs].
  apply Forall_cons in Hrefs. destruct Hrefs as [_ Hrefs].
  apply Forall_cons in Hrefs. destruct Hrefs as [(k & Hk & Hrange) _].
  vm_compute in Hk. injection Hk as <-. simpl in Hrange. lia.
Defined.

Lemma fold_objLine_triples {F : Type} (parseFloat : string -> F)
    (lines : list string) (st : ObjState F) :
  (exists nt, length (indices st) = (3 * nt)%nat) ->
  exists nt,
    length (indices (fold_left (objLine parseFloat) lines st)) = (3 * nt)%nat.
Proof.
  revert st. induction lines as [|line lines IH]; intros st Hst; [exact Hst|].
  simpl. apply IH. destruct Hst as [nt Hnt].
  destruct (objLine_cases parseFloat st line)
    as [(v & _ & _ & ->) | [(n & _ & _ & ->) | [(refs & _ & _ & _ & ->) | ->]]];
    try (exists nt; exact Hnt).
  exists (nt + (length refs - 2))%nat.
  rewrite length_app, fan_length, length_seq, Hnt. lia.
Qed.

(** Whatever the text, the geometry [parseOBJ] builds is made of whole
    triples: three position numbers per vertex, three indices per triangle
    (a face line of fewer than three references adds none), and a normal
    attribute, when one is set, that is not empty and has as many numbers as
    the positions. *)
Theorem parseOBJ_whole_triples (F : Type) (parseFloat : string -> F)
    (text : string) :
  exists nv nt idx,
    length (position (parseOBJ parseFloat text)) = (3 * nv)%nat /\
    index (parseOBJ parseFloat text) = Some idx /\
    length idx = (3 * nt)%nat /\
    match normal (parseOBJ parseFloat text) with
    | NormalAttribute normals =>
        length normals = (3 * nv)%nat /\ (0 < nv)%nat
    | ComputeVertexNormals => True
    end.
Proof.
  unfold parseOBJ. cbn [position index normal].
  set (st := fold_left (objLine parseFloat) (splitOn "010"%char text)
               (mkObjState [] [] [])).
  destruct (fold_objLine_triples parseFloat (splitOn "010"%char text)
              (mkObjState [] [] [])) as [nt Hnt]; [exists 0%nat; reflexivity|].
  fold st in Hnt.
  exists (length (tempVerts st)), nt, (indices st).
  split; [apply flatten_length|]. split; [reflexivity|]. split; [exact Hnt|].
  destruct (Nat.ltb_spec 0 (length (tempNormals st))) as [Hpos|]; [|exact I].
  destruct (Nat.eqb_spec (length (flatten F (tempNormals st)))
              (length (flatten F (tempVerts st)))) as [Heq|]; [|exact I].
  rewrite !flatten_length in Heq. rewrite flatten_length. lia.
Qed.

(** ** load3DObject: the choice of the parser *)

Lemma splitOn_append_sep (sep : ascii) (s1 s2 : string) :
  exists p ps,
    splitOn sep (s1 ++ String sep s2)%string = (p :: ps) ++ splitOn sep s2.
Proof.
  induction s1 as [|c r (p & ps & IH)]; simpl.
  - rewrite Ascii.eqb_refl. exists EmptyString, []. reflexivity.
  - destruct (Ascii.eqb c sep).
    + exists EmptyString, (p :: ps). rewrite IH. reflexivity.
    + rewrite IH. simpl. exists (String c p), ps. reflexivity.
Qed.

Lemma splitOn_no_sep (sep : ascii) (s : string) :
  Forall (fun c => c <> sep) (list_ascii_of_string s) ->
  splitOn sep s = [s].
Proof.
  induction s as [|c r IH]; intros Hfree; [reflexivity|].
  simpl in Hfree. apply Forall_cons in Hfree. destruct Hfree as [Hc Hr].
  simpl. destruct (Ascii.eqb_spec c sep); [contradiction|].
  rewrite (IH Hr). reflexivity.
Qed.

(** The extension is the text after the last dot, in lower case; a name
    without a dot is its own extension. *)
Lemma extension_suffix (stem e : string) :
  Forall (fun c => c <> "."%char) (list_ascii_of_string e) ->
  extension (stem ++ String "."%char e)%string = toLowerCase e /\
  extension e = toLowerCase e.
Proof.
  intros Hfree. unfold extension. split.
  - destruct (splitOn_append_sep "."%char stem e) as (p & ps & ->).
    rewrite (splitOn_no_sep _ _ Hfree).
    rewrite last_last. reflexivity.
  - rewrite (splitOn_no_sep _ _ Hfree). reflexivity.
Qed.

(** Which files [load3DObject] accepts. With [e] the text after the last
    dot of the file's name (the whole name when it has no dot), the load
    succeeds exactly when [e] is [obj] in any mix of cases, whatever the
    content, or [stl] in any mix of cases with a content that [parseSTL]
    decodes. A successful load leaves a fresh mesh, not yet in the scene and
    unrotated, and resets the automatic rotation to 0. *)
Theorem load3DObject_accepts (F : Type) (parseFloat : string -> F)
    (parseSTLAscii : list Z -> BufferGeometry float32)
    (file : File) (stem e : string) (st : ObjectLoader F) :
  Forall (fun c => c <> "."%char) (list_ascii_of_string e) ->
  file_name file = (stem ++ String "."%char e)%string \/ file_name file = e ->
  (is_Some (load3DObject parseFloat parseSTLAscii file st) <->
   toLowerCase e = "obj"%string \/
   (toLowerCase e = "stl"%string /\
    is_Some (parseSTL parseSTLAscii (file_arrayBuffer file)))) /\
  (forall st', load3DObject parseFloat parseSTLAscii file st = Some st' ->
     has3DObject st' = true /\ (autoRotationY st' == 0)%Q /\
     scene st' = scene st /\
     exists g, currentMesh st' = Some (mkMesh g false 0 0)).
Proof.
  intros Hfree Hname.
  assert (Hext : extension (file_name file) = toLowerCase e).
  { destruct (extension_suffix stem e Hfree) as [H1 H2].
    destruct Hname as [-> | ->]; assumption. }
  unfold load3DObject. rewrite Hext. split.
  - destruct (String.eqb_spec (toLowerCase e) "obj") as [Hobj|Hnobj].
    { simpl. split; [auto | eauto]. }
    destruct (String.eqb_spec (toLowerCase e) "stl") as [Hstl|Hnstl].
    + destruct (parseSTL parseSTLAscii (file_arrayBuffer file)) as [g|]; simpl.
      * split; [intros _; right; eauto | eauto].
      * split; [intros [x Hx]; discriminate|].
        intros [Ho | [_ [x Hx]]]; [contradiction | discriminate].
    + simpl. split; [intros [x Hx]; discriminate|].
      intros [Ho | [Hs _]]; contradiction.
  - intros st' Hload.
    destruct (if String.eqb (toLowerCase e) "obj"
              then Some (ObjGeometry (parseOBJ parseFloat (file_text file)))
              else if String.eqb (toLowerCase e) "stl"
                   then StlGeometry <$>
                        parseSTL parseSTLAscii (file_arrayBuffer file)
                   else None) as [g|]; [|discriminate].
    simpl in Hload. injection Hload as <-. simpl.
    split; [reflexivity|]. split; [reflexivity|]. split; [reflexivity|].
    eauto.
Qed.

Lemma load3DObject_accepts_witness :
  is_Some (load3DObject (fun s => s)
             (fun _ => mkBufferGeometry [] ComputeVertexNormals None)
             (mkFile "cube.v2.OBJ" EmptyString []) initialObjectLoader) /\
  load3DObject (fun s => s)
    (fun _ => mkBufferGeometry [] ComputeVertexNormals None)
    (mkFile "cube.Stl" EmptyString (take 131 exStl)) initialObjectLoader = None.
Proof.
  split.
  - apply (proj2 (proj1 (load3DObject_accepts string (fun s => s)
             (fun _ => mkBufferGeometry [] ComputeVertexNormals None)
             (mkFile "cube.v2.OBJ" EmptyString []) "cube.v2" "OBJ"
             initialObjectLoader
             ltac:(repeat constructor; discriminate)
             (or_introl eq_refl)))).
    left. reflexivity.
  - destruct (load3DObject (fun s => s)
                (fun _ => mkBufferGeometry [] ComputeVertexNormals None)
                (mkFile "cube.Stl" EmptyString (take 131 exStl))
                initialObjectLoader) as [st'|] eqn:E; [|reflexivity].
    destruct (proj1 (proj1 (load3DObject_accepts string (fun s => s)
                (fun _ => mkBufferGeometry [] ComputeVertexNormals None)
                (mkFile "cube.Stl" EmptyString (take 131 exStl)) "cube" "Stl"
                initialObjectLoader
                ltac:(repeat constructor; discriminate)
                (or_introl eq_refl))))
      as [Hobj | [_ [g Hg]]].
    + rewrite E. eauto.
    + discriminate Hobj.
    + vm_compute in Hg. discriminate Hg.
Defined.

(** ** render3DToCanvas: rotation *)

Lemma renderCalls_state {F : Type} (calls : list RenderCall)
    (st : ObjectLoader F) (mesh : Mesh F) :
  currentMesh st = Some mesh ->
  exists mesh',
    currentMesh (renderCalls calls st) = Some mesh' /\
    geometry mesh' = geometry mesh /\
    (autoRotationY (renderCalls calls st) ==
     autoRotationY st + ROTATION_SPEED * inject_Z (Z.of_nat (autoRotateCount calls)))%Q.
Proof.
  revert st mesh. induction calls as [|c calls IH]; intros st mesh Hmesh.
  - exists mesh. split; [exact Hmesh|]. split; [reflexivity|].
    unfold autoRotateCount. simpl. ring.
  - unfold renderCalls. simpl. fold (renderCalls calls (fst (renderCall c st))).
    assert (Hstep : currentMesh (fst (renderCall c st)) =
                    Some (mkMesh (geometry mesh) true (call_manualRotX c)
                            ((if call_autoRotate c
                              then autoRotationY st + ROTATION_SPEED
                              else autoRotationY st) + call_manualRotY c)%Q) /\
                    autoRotationY (fst (renderCall c st)) =
                    (if call_autoRotate c
                     then autoRotationY st + ROTATION_SPEED
                     else autoRotationY st)%Q).
    { unfold renderCall, render3DToCanvas. rewrite Hmesh. split; reflexivity. }
    destruct Hstep as [Hm1 Ha1].
    destruct (IH (fst (renderCall c st)) _ Hm1) as (mesh' & Hm' & Hg' & Hrot).
    exists mesh'. split; [exact Hm'|]. split; [exact Hg'|].
    rewrite Hrot, Ha1. unfold autoRotateCount. simpl.
    destruct (call_autoRotate c); simpl length.
    + rewrite Nat2Z.inj_succ, <- Z.add_1_r, inject_Z_plus. ring.
    + ring.
Qed.

(** Automatic rotation accumulates, manual rotation does not. While an
    object is loaded, the frame a call of [render3DToCanvas] returns shows
    it turned about the vertical axis by [ROTATION_SPEED] times the number
    of calls so far that asked for automatic rotation (this one included),
    plus the manual angle of this call alone; about the horizontal axis by
    the manual angle of this call alone. Earlier manual angles leave no
    trace. *)
Theorem render3D_rotation (F : Type) (calls : list RenderCall) (c : RenderCall)
    (st : ObjectLoader F) (mesh : Mesh F) :
  currentMesh st = Some mesh ->
  exists frame,
    snd (renderCall c (renderCalls calls st)) = Some frame /\
    frame_geometry frame = geometry mesh /\
    frame_width frame = call_width c /\ frame_height frame = call_height c /\
    frame_rotation_x frame = call_manualRotX c /\
    (frame_rotation_y frame ==
     autoRotationY st
     + ROTATION_SPEED * inject_Z (Z.of_nat (autoRotateCount (calls ++ [c])))
     + call_manualRotY c)%Q.
Proof.
  intros Hmesh.
  destruct (renderCalls_state calls st mesh Hmesh) as (mesh' & Hm' & Hg' & Hrot).
  unfold renderCall, render3DToCanvas. rewrite Hm'. cbn [snd].
  eexists. split; [reflexivity|].
  cbn [frame_geometry frame_width frame_height frame_rotation_x
       frame_rotation_y geometry rotation_x rotation_y].
  split; [exact Hg'|]. split; [reflexivity|]. split; [reflexivity|].
  split; [reflexivity|].
  assert (Hcount : autoRotateCount (calls ++ [c]) =
                   (autoRotateCount calls + if call_autoRotate c then 1 else 0)%nat).
  { unfold autoRotateCount. rewrite List.filter_app, length_app. simpl.
    destruct (call_autoRotate c); reflexivity. }
  rewrite Hcount, Nat2Z.inj_add, inject_Z_plus.
  destruct (call_autoRotate c); rewrite Hrot; simpl Z.of_nat.
  - change (inject_Z 1) with 1%Q. ring.
  - change (inject_Z 0) with 0%Q. ring.
Qed.

Lemma render3D_rotation_witness :
  exists frame : Frame3D string,
    snd (renderCall (mkRenderCall 512 512 true 0.1 0.2)
           (renderCalls [mkRenderCall 512 512 true 1 1;
                         mkRenderCall 512 512 false 2 2]
              (mkObjectLoader false
                 (Some (mkMesh (StlGeometry (mkBufferGeometry [] ComputeVertexNormals None))
                          false 0 0)) 0))) = Some frame /\
    (frame_rotation_y frame == 0.21)%Q.
Proof.
  destruct (render3D_rotation string
              [mkRenderCall 512 512 true 1 1; mkRenderCall 512 512 false 2 2]
              (mkRenderCall 512 512 true 0.1 0.2)
              (mkObjectLoader false
                 (Some (mkMesh (StlGeometry (mkBufferGeometry [] ComputeVertexNormals None))
                          false 0 0)) 0)
              _ eq_refl) as (frame & Hframe & _ & _ & _ & _ & Hy).
  exists frame. split; [exact Hframe|]. rewrite Hy. reflexivity.
Defined.

(** ** clear3DObject *)

(** [clear3DObject] removes the object only once the scene exists, and the
    scene is created by the first render. An object that has been loaded
    but never rendered survives [clear3DObject]: [has3DObject] still
    answers true. After one call of [render3DToCanvas], [clear3DObject]
    removes it, and further calls return [null] and change nothing. *)
Theorem clear3DObject_needs_scene (F : Type) (st : ObjectLoader F) :
  has3DObject st = true ->
  (scene st = false -> clear3DObject st = st) /\
  (scene st = true -> has3DObject (clear3DObject st) = false) /\
  (forall c c',
     let cleared := clear3DObject (fst (renderCall c st)) in
     has3DObject cleared = false /\ renderCall c' cleared = (cleared, None)).
Proof.
  intros Hhas. unfold has3DObject in Hhas.
  destruct (currentMesh st) as [mesh|] eqn:Hmesh; [|discriminate].
  split; [|split].
  - intros Hscene. unfold clear3DObject. now rewrite Hmesh, Hscene.
  - intros Hscene. unfold clear3DObject, has3DObject.
    now rewrite Hmesh, Hscene.
  - intros c c'. unfold renderCall, render3DToCanvas. rewrite Hmesh.
    cbn. split; reflexivity.
Qed.

Lemma clear3DObject_needs_scene_witness :
  has3DObject
    (clear3DObject
       (default initialObjectLoader
          (load3DObject (fun s : string => s)
             (fun _ => mkBufferGeometry [] ComputeVertexNormals None)
             (mkFile "cube.obj" exObjText []) initialObjectLoader))) = true.
Proof.
  destruct (load3DObject (fun s : string => s)
              (fun _ => mkBufferGeometry [] ComputeVertexNormals None)
              (mkFile "cube.obj" exObjText []) initialObjectLoader)
    as [st|] eqn:Hload; [|vm_compute in Hload; discriminate].
  vm_compute in Hload. injection Hload as <-. simpl default.
  match goal with
  | |- has3DObject (clear3DObject ?s) = true =>
      rewrite (proj1 (clear3DObject_needs_scene string s eq_refl) eq_refl)
  end.
  reflexivity.
Defined.

(** ** CanvasView: the wheel *)

Lemma Math_clamp_range (lo hi x : Q) :
  (lo <= hi -> lo <= Math_max lo (Math_min hi x) <= hi)%Q.
Proof.
  intros Hle. unfold Math_max, Math_min.
  repeat match goal with
         | |- context [Qlt_bool ?a ?b] => destruct (Qlt_bool a b) eqn:?
         end;
  repeat match goal with
         | H : Qlt_bool _ _ = true |- _ => apply Qlt_bool_iff in H
         | H : Qlt_bool _ _ = false |- _ =>
             apply not_true_iff_false in H; rewrite Qlt_bool_iff in H;
             apply Qnot_lt_le in H
         end; lra.
Qed.

Lemma handleWheel_step (metaKey : bool)
    (deltaY clientX clientY rectLeft rectTop : Q) (st : CanvasState) :
  (0 < view_scale (view st))%Q ->
  let st' := handleWheel metaKey deltaY clientX clientY rectLeft rectTop st in
  let mx := (clientX - rectLeft)%Q in
  let my := (clientY - rectTop)%Q in
  (0 < view_scale (view st'))%Q /\
  ((mx - view_offsetX (view st')) / view_scale (view st') ==
   (mx - view_offsetX (view st)) / view_scale (view st))%Q /\
  ((my - view_offsetY (view st')) / view_scale (view st') ==
   (my - view_offsetY (view st)) / view_scale (view st))%Q /\
  mt_offsetX (mediaTransform st') = mt_offsetX (mediaTransform st) /\
  mt_offsetY (mediaTransform st') = mt_offsetY (mediaTransform st) /\
  obj3dSettings st' = obj3dSettings st /\
  canvas_mediaType st' = canvas_mediaType st /\
  (if metaKey
   then view st' = view st /\
        (0.1 <= mt_scale (mediaTransform st') <= 20)%Q
   else mt_scale (mediaTransform st') = mt_scale (mediaTransform st) /\
        (0.1 <= view_scale (view st') <= 10)%Q).
Proof.
  intros Hpos st' mx my. subst st'. unfold handleWheel.
  destruct metaKey; cbv zeta;
    cbn [view mediaTransform obj3dSettings canvas_mediaType view_scale
         view_offsetX view_offsetY mt_scale mt_offsetX mt_offsetY].
  - split; [exact Hpos|]. split; [reflexivity|]. split; [reflexivity|].
    split; [reflexivity|]. split; [reflexivity|]. split; [reflexivity|].
    split; [reflexivity|]. split; [reflexivity|].
    apply Math_clamp_range. lra.
  - match goal with
    | |- context [Math_max 0.1 (Math_min 10 ?x)] =>
        pose proof (Math_clamp_range 0.1 10 x ltac:(lra)) as Hrange;
        set (newScale := Math_max 0.1 (Math_min 10 x)) in *
    end.
    clearbody newScale. fold mx my.
    split; [lra|]. split; [field; split; lra|]. split; [field; split; lra|].
    do 4 (split; [reflexivity|]). split; [reflexivity | exact Hrange].
Qed.

(** Zooming with the wheel keeps the point under the cursor where it is.
    Through any series of wheel events with the cursor held still, started
    from a view of positive scale, the content point shown under the
    cursor, [(cursor - offset) / scale] on each axis, never changes; the
    offsets of the media transform and the 3D settings are untouched. As
    soon as one event came without the command key the view scale lies in
    [0.1, 10], and as soon as one came with it the media scale lies in
    [0.1, 20]. *)
Theorem wheel_zoom_keeps_cursor_point (events : list (bool * Q))
    (clientX clientY rectLeft rectTop : Q) (st : CanvasState) :
  (0 < view_scale (view st))%Q ->
  let st' := wheels events clientX clientY rectLeft rectTop st in
  let mx := (clientX - rectLeft)%Q in
  let my := (clientY - rectTop)%Q in
  (0 < view_scale (view st'))%Q /\
  ((mx - view_offsetX (view st')) / view_scale (view st') ==
   (mx - view_offsetX (view st)) / view_scale (view st))%Q /\
  ((my - view_offsetY (view st')) / view_scale (view st') ==
   (my - view_offsetY (view st)) / view_scale (view st))%Q /\
  mt_offsetX (mediaTransform st') = mt_offsetX (mediaTransform st) /\
  mt_offsetY (mediaTransform st') = mt_offsetY (mediaTransform st) /\
  obj3dSettings st' = obj3dSettings st /\
  (Exists (fun e => fst e = false) events ->
   (0.1 <= view_scale (view st') <= 10)%Q) /\
  (Exists (fun e => fst e = true) events ->
   (0.1 <= mt_scale (mediaTransform st') <= 20)%Q).
Proof.
  intros Hpos st' mx my. subst st'. unfold wheels.
  revert Hpos. pattern events. apply rev_ind; clear events.
  - intros Hpos. simpl. split; [exact Hpos|].
    repeat (split; [reflexivity|]).
    split; intros H; inversion H.
  - intros [metaKey deltaY] events IH Hpos.
    rewrite fold_left_app. simpl fold_left.
    destruct (IH Hpos) as (Hp & Hx & Hy & Hox & Hoy & Ho & Hview & Hmedia).
    set (st1 := fold_left _ events st) in *.
    destruct (handleWheel_step metaKey deltaY clientX clientY rectLeft rectTop
                st1 Hp) as (Hp' & Hx' & Hy' & Hox' & Hoy' & Ho' & _ & Hmode).
    cbn [fst snd].
    split; [exact Hp'|]. split; [exact (Qeq_trans _ _ _ Hx' Hx)|].
    split; [exact (Qeq_trans _ _ _ Hy' Hy)|].
    split; [congruence|]. split; [congruence|]. split; [congruence|].
    destruct metaKey; destruct Hmode as [Hsame Hrange].
    + split; [|intros _; exact Hrange].
      intros Hex. rewrite Hsame. apply Hview.
      apply Exists_app in Hex. destruct Hex as [Hex|Hex]; [exact Hex|].
      apply Exists_cons in Hex. destruct Hex as [Hex|Hex];
        [discriminate | inversion Hex].
    + split; [intros _; exact Hrange|].
      intros Hex. rewrite Hsame. apply Hmedia.
      apply Exists_app in Hex. destruct Hex as [Hex|Hex]; [exact Hex|].
      apply Exists_cons in Hex. destruct Hex as [Hex|Hex];
        [discriminate | inversion Hex].
Qed.

Lemma wheel_zoom_keeps_cursor_point_witness :
  let st := mkCanvasState (Some image) (mkViewTransform 1 0 0)
              (mkMediaTransform 1 0 0) (mkObj3dSettings true 0 0 0) in
  let st' := wheels [(false, -1); (false, -1); (true, 1); (false, 1)]%Q
               110 60 10 10 st in
  ((100 - view_offsetX (view st')) / view_scale (view st') == 100)%Q /\
  ((50 - view_offsetY (view st')) / view_scale (view st') == 50)%Q.
Proof.
  intros st st'.
  destruct (wheel_zoom_keeps_cursor_point
              [(false, -1); (false, -1); (true, 1); (false, 1)]%Q
              110 60 10 10 st ltac:(reflexivity))
    as (_ & Hx & Hy & _).
  split.
  - etransitivity; [exact Hx|]. reflexivity.
  - etransitivity; [exact Hy|]. reflexivity.
Defined.

(** ** CanvasView: dragging *)

Lemma last_cons_default {A : Type} (p d : A) (ps : list A) :
  List.last (p :: ps) d = List.last ps p.
Proof.
  revert p d. induction ps as [|q ps IH]; intros p d; [reflexivity|].
  change (List.last (p :: q :: ps) d) with (List.last (q :: ps) d).
  rewrite (IH q d), (IH q p). reflexivity.
Qed.

(** What a series of moves does, by the flag that is set. *)
Lemma mouseMoves_effect (positions : list (Q * Q)) (ptr : Pointer)
    (st : CanvasState) :
  let s' := mouseMoves positions (ptr, st) in
  let p1 := List.last positions (lastX ptr, lastY ptr) in
  let dx := (fst p1 - lastX ptr)%Q in
  let dy := (snd p1 - lastY ptr)%Q in
  bKeyDown (fst s') = bKeyDown ptr /\ isPanning (fst s') = isPanning ptr /\
  isMediaPanning (fst s') = isMediaPanning ptr /\
  is3dRotating (fst s') = is3dRotating ptr /\
  canvas_mediaType (snd s') = canvas_mediaType st /\
  if is3dRotating ptr then
    view (snd s') = view st /\ mediaTransform (snd s') = mediaTransform st /\
    autoRotate (obj3dSettings (snd s')) = autoRotate (obj3dSettings st) /\
    obj3d_bgBrightness (obj3dSettings (snd s')) =
      obj3d_bgBrightness (obj3dSettings st) /\
    (rotationX (obj3dSettings (snd s')) ==
     rotationX (obj3dSettings st) + dy * 0.01)%Q /\
    (rotationY (obj3dSettings (snd s')) ==
     rotationY (obj3dSettings st) + dx * 0.01)%Q
  else if isMediaPanning ptr then
    view (snd s') = view st /\ obj3dSettings (snd s') = obj3dSettings st /\
    mt_scale (mediaTransform (snd s')) = mt_scale (mediaTransform st) /\
    (mt_offsetX (mediaTransform (snd s')) ==
     mt_offsetX (mediaTransform st) + dx)%Q /\
    (mt_offsetY (mediaTransform (snd s')) ==
     mt_offsetY (mediaTransform st) + dy)%Q
  else if isPanning ptr then
    mediaTransform (snd s') = mediaTransform st /\
    obj3dSettings (snd s') = obj3dSettings st /\
    view_scale (view (snd s')) = view_scale (view st) /\
    (view_offsetX (view (snd s')) == view_offsetX (view st) + dx)%Q /\
    (view_offsetY (view (snd s')) == view_offsetY (view st) + dy)%Q
  else snd s' = st.
Proof.
  revert ptr st. induction positions as [|[x y] positions IH]; intros ptr st.
  - cbv zeta. unfold mouseMoves. cbn [fold_left List.last fst snd].
    do 5 (split; [reflexivity|]).
    destruct (is3dRotating ptr); [|destruct (isMediaPanning ptr);
                                    [|destruct (isPanning ptr)]].
    + do 4 (split; [reflexivity|]). split; ring.
    + do 3 (split; [reflexivity|]). split; ring.
    + do 3 (split; [reflexivity|]). split; ring.
    + reflexivity.
  - cbv zeta. rewrite last_cons_default.
    unfold mouseMoves. simpl fold_left.
    fold (mouseMoves positions (handleMouseMove x y (ptr, st))).
    destruct (handleMouseMove x y (ptr, st)) as [ptr1 st1] eqn:Hmove.
    specialize (IH ptr1 st1). cbv zeta in IH.
    destruct IH as (Hb & Hp & Hm & Hr & Ht & Hmode).
    unfold handleMouseMove in Hmove.
    destruct (is3dRotating ptr) eqn:E3;
      [|destruct (isMediaPanning ptr) eqn:Em; [|destruct (isPanning ptr) eqn:Ep]];
      injection Hmove as <- <-;
      cbn [bKeyDown isPanning isMediaPanning is3dRotating lastX lastY
           canvas_mediaType view mediaTransform obj3dSettings] in *;
      rewrite ?E3, ?Em, ?Ep in Hmode;
      (split; [exact Hb|]); (split; [exact Hp|]); (split; [exact Hm|]);
      (split; [exact Hr|]); (split; [exact Ht|]).
    + destruct Hmode as (Hv & Hmt & Ha & Hbg & Hrx & Hry).
      cbn [autoRotate rotationX rotationY obj3d_bgBrightness] in *.
      repeat (split; [assumption|]). split.
      * rewrite Hrx. ring.
      * rewrite Hry. ring.
    + destruct Hmode as (Hv & Ho & Hs & Hx & Hy).
      cbn [mt_scale mt_offsetX mt_offsetY] in *.
      repeat (split; [assumption|]). split.
      * rewrite Hx. ring.
      * rewrite Hy. ring.
    + destruct Hmode as (Hmt & Ho & Hs & Hx & Hy).
      cbn [view_scale view_offsetX view_offsetY] in *.
      repeat (split; [assumption|]). split.
      * rewrite Hx. ring.
      * rewrite Hy. ring.
    + exact Hmode.
Qed.

(** A drag moves its target by the displacement of the pointer, and
    nothing else. From an idle pointer, pressing the button at [(x0, y0)]
    and moving through any positions to [(x1, y1)]: without the command
    key the view offset has moved by [(x1 - x0, y1 - y0)]; with it, the
    offset of the media transform has; with it and the B key held over a 3D
    object, the manual rotation has grown by [0.01 (y1 - y0)] about X and
    [0.01 (x1 - x0)] about Y. In each case the scales and the two other
    settings are untouched, whatever the path between the two points. Once
    the button is released, moves change nothing. *)
Theorem drag_follows_pointer (metaKey : bool) (x0 y0 : Q)
    (positions after : list (Q * Q)) (ptr : Pointer) (st : CanvasState) :
  idle ptr ->
  let s' := drag metaKey x0 y0 positions (ptr, st) in
  let p1 := List.last positions (x0, y0) in
  let dx := (fst p1 - x0)%Q in
  let dy := (snd p1 - y0)%Q in
  (if metaKey && bKeyDown ptr &&
      match canvas_mediaType st with Some obj3d => true | _ => false end
   then
     view (snd s') = view st /\ mediaTransform (snd s') = mediaTransform st /\
     autoRotate (obj3dSettings (snd s')) = autoRotate (obj3dSettings st) /\
     obj3d_bgBrightness (obj3dSettings (snd s')) =
       obj3d_bgBrightness (obj3dSettings st) /\
     (rotationX (obj3dSettings (snd s')) ==
      rotationX (obj3dSettings st) + dy * 0.01)%Q /\
     (rotationY (obj3dSettings (snd s')) ==
      rotationY (obj3dSettings st) + dx * 0.01)%Q
   else if metaKey then
     view (snd s') = view st /\ obj3dSettings (snd s') = obj3dSettings st /\
     mt_scale (mediaTransform (snd s')) = mt_scale (mediaTransform st) /\
     (mt_offsetX (mediaTransform (snd s')) ==
      mt_offsetX (mediaTransform st) + dx)%Q /\
     (mt_offsetY (mediaTransform (snd s')) ==
      mt_offsetY (mediaTransform st) + dy)%Q
   else
     mediaTransform (snd s') = mediaTransform st /\
     obj3dSettings (snd s') = obj3dSettings st /\
     view_scale (view (snd s')) = view_scale (view st) /\
     (view_offsetX (view (snd s')) == view_offsetX (view st) + dx)%Q /\
     (view_offsetY (view (snd s')) == view_offsetY (view st) + dy)%Q) /\
  snd (mouseMoves after (handleMouseUp (fst s'), snd s')) = snd s'.
Proof.
  intros (Hp & Hm & Hr) s' p1 dx dy. subst s' p1 dx dy. unfold drag.
  cbn [fst snd]. split.
  - unfold handleMouseDown.
    destruct (metaKey && bKeyDown ptr &&
              match canvas_mediaType st with Some obj3d => true | _ => false end);
      [|destruct metaKey];
      match goal with
      | |- context [mouseMoves positions (?ptr0, st)] =>
          pose proof (mouseMoves_effect positions ptr0 st) as Heff
      end;
      cbv zeta in Heff; destruct Heff as (_ & _ & _ & _ & _ & Hmode);
      cbn [is3dRotating isMediaPanning isPanning lastX lastY] in Hmode;
      rewrite ?Hr, ?Hm, ?Hp in Hmode |- *; exact Hmode.
  - match goal with
    | |- context [mouseMoves after (handleMouseUp (fst ?s1), snd ?s1)] =>
        pose proof (mouseMoves_effect after (handleMouseUp (fst s1)) (snd s1))
          as Hup
    end.
    cbv zeta in Hup. destruct Hup as (_ & _ & _ & _ & _ & Hup).
    exact Hup.
Qed.

Lemma drag_follows_pointer_witness :
  let st := mkCanvasState (Some image) (mkViewTransform 2 5 5)
              (mkMediaTransform 1 0 0) (mkObj3dSettings true 0 0 0) in
  let s' := drag false 10 10 [(12, 40); (-3, 7); (30, 20)]%Q
              (mkPointer false false false false 0 0, st) in
  (view_offsetX (view (snd s')) == 25)%Q /\
  (view_offsetY (view (snd s')) == 15)%Q /\
  view_scale (view (snd s')) = 2%Q.
Proof.
  intros st s'.
  destruct (drag_follows_pointer false 10 10 [(12, 40); (-3, 7); (30, 20)]%Q []
              (mkPointer false false false false 0 0) st
              (conj eq_refl (conj eq_refl eq_refl)))
    as ((_ & _ & Hs & Hx & Hy) & _).
  split; [|split].
  - etransitivity; [exact Hx|]. reflexivity.
  - etransitivity; [exact Hy|]. reflexivity.
  - exact Hs.
Defined.

(** ** computeBrightnessGrid: where the media is drawn *)

Lemma inject_Z_pos (z : Z) : 0 < z -> (0 < inject_Z z)%Q.
Proof. intros Hz. unfold Qlt. simpl. lia. Qed.

(** The media is fitted whole into the viewport, then scaled about its
    centre. For a media and a viewport of positive sizes, the fitted
    rectangle has the aspect ratio of the media, lies within the viewport,
    spans its full width or its full height, and is centred in it. The media
    transform scales this rectangle by [scale] about its centre and shifts
    it by the offset: the centre of the final draw area is the centre of the
    viewport moved by [(offsetX, offsetY)], whatever the scale. *)
Theorem media_fitted_then_scaled_about_centre (mediaW mediaH : Z)
    (canvasWidth canvasHeight : Q) (mediaTransform : option MediaTransform) :
  0 < mediaW -> 0 < mediaH -> (0 < canvasWidth)%Q -> (0 < canvasHeight)%Q ->
  let '(drawW, drawH, offsetX, offsetY) :=
    aspectFit mediaW mediaH canvasWidth canvasHeight in
  let '(finalOffsetX, finalOffsetY, scaledDrawW, scaledDrawH) :=
    transformedArea mediaW mediaH canvasWidth canvasHeight mediaTransform in
  let mt := default identityTransform mediaTransform in
  (drawW * inject_Z mediaH == drawH * inject_Z mediaW)%Q /\
  (0 < drawW <= canvasWidth)%Q /\ (0 < drawH <= canvasHeight)%Q /\
  (drawW = canvasWidth \/ drawH = canvasHeight) /\
  (offsetX == (canvasWidth - drawW) / 2)%Q /\
  (offsetY == (canvasHeight - drawH) / 2)%Q /\
  scaledDrawW = (drawW * mt_scale mt)%Q /\
  scaledDrawH = (drawH * mt_scale mt)%Q /\
  (finalOffsetX + scaledDrawW / 2 == canvasWidth / 2 + mt_offsetX mt)%Q /\
  (finalOffsetY + scaledDrawH / 2 == canvasHeight / 2 + mt_offsetY mt)%Q.
Proof.
  intros Hw Hh Hcw Hch.
  pose proof (inject_Z_pos mediaW Hw) as Ha.
  pose proof (inject_Z_pos mediaH Hh) as Hb.
  unfold transformedArea, aspectFit.
  set (a := inject_Z mediaW) in *. set (b := inject_Z mediaH) in *.
  set (mt := default identityTransform mediaTransform).
  clearbody a b mt.
  assert (Hab : (0 < a / b)%Q) by (apply Qlt_shift_div_l; lra).
  destruct (Qlt_bool (canvasWidth / canvasHeight) (a / b)) eqn:E.
  - apply Qlt_bool_iff in E.
    assert (Hlt : (canvasWidth * b < a * canvasHeight)%Q).
    { apply (Qlt_div_mult _ _ _ Hb) in E.
      apply (Qmult_lt_compat_r _ _ canvasHeight Hch) in E.
      assert (Eq : (canvasWidth / canvasHeight * b * canvasHeight ==
                    canvasWidth * b)%Q) by (field; lra).
      rewrite Eq in E. exact E. }
    assert (Hd : (canvasWidth / (a / b) == canvasWidth * b / a)%Q)
      by (field; split; lra).
    assert (Hdpos : (0 < canvasWidth * b / a)%Q).
    { apply Qlt_shift_div_l; [exact Ha|]. rewrite Qmult_0_l.
      apply Qmult_lt_0_compat; assumption. }
    assert (Hdle : (canvasWidth * b / a <= canvasHeight)%Q).
    { apply Qle_shift_div_r; [exact Ha|]. lra. }
    split; [field; split; lra|].
    split; [lra|]. split; [rewrite Hd; lra|].
    split; [left; reflexivity|].
    split; [field|]. split; [reflexivity|].
    split; [reflexivity|]. split; [reflexivity|].
    split; field; split; lra.
  - apply not_true_iff_false in E. rewrite Qlt_bool_iff in E.
    apply Qnot_lt_le in E.
    assert (Hle : (a * canvasHeight <= canvasWidth * b)%Q).
    { apply (Qdiv_le_mult _ _ _ Hb) in E.
      apply (Qmult_le_compat_r _ _ canvasHeight) in E; [|lra].
      assert (Eq : (canvasWidth / canvasHeight * b * canvasHeight ==
                    canvasWidth * b)%Q) by (field; lra).
      rewrite Eq in E. exact E. }
    assert (Hdpos : (0 < canvasHeight * (a / b))%Q)
      by (apply Qmult_lt_0_compat; assumption).
    assert (Hdle : (canvasHeight * (a / b) <= canvasWidth)%Q).
    { assert (Eq : (canvasHeight * (a / b) == a * canvasHeight / b)%Q)
        by (field; lra).
      rewrite Eq. apply Qle_shift_div_r; [exact Hb|]. lra. }
    split; [field; lra|].
    split; [lra|]. split; [lra|].
    split; [right; reflexivity|].
    split; [reflexivity|]. split; [field|].
    split; [reflexivity|]. split; [reflexivity|].
    split; field; lra.
Qed.

Lemma media_fitted_then_scaled_about_centre_witness :
  aspectFit 200 100 300 300 = (300, 300 / (inject_Z 200 / inject_Z 100),
                               0, (300 - 300 / (inject_Z 200 / inject_Z 100)) / 2)%Q /\
  (snd (fst (fst (aspectFit 200 100 300 300))) * inject_Z 200 ==
   300 * inject_Z 100)%Q.
Proof.
  pose proof (media_fitted_then_scaled_about_centre 200 100 300 300 None
                eq_refl eq_refl eq_refl eq_refl) as H.
  split; [reflexivity|].
  destruct (aspectFit 200 100 300 300) as [[[drawW drawH] offsetX] offsetY] eqn:Efit.
  destruct (transformedArea 200 100 300 300 None) as [[[fx fy] sw] sh].
  destruct H as (Haspect & _).
  vm_compute in Efit. injection Efit as <- <- <- <-.
  simpl fst. simpl snd. reflexivity.
Defined.

(** ** parseSTLAscii: matches and their order *)

Lemma literal_length (lit s rest : string) :
  literal lit s = Some rest ->
  (String.length rest + String.length lit = String.length s)%nat.
Proof.
  revert s. induction lit as [|a lit IH]; intros s H; simpl in H.
  - injection H as <-. simpl. lia.
  - destruct s as [|b s]; [discriminate|].
    destruct (Ascii.eqb a b); [|discriminate].
    apply IH in H. simpl. lia.
Qed.

Lemma span_length (cls : ascii -> bool) (s m rest : string) :
  span cls s = (m, rest) ->
  (String.length m + String.length rest = String.length s)%nat.
Proof.
  revert m rest. induction s as [|c s IH]; intros m rest H; simpl in H.
  - injection H as <- <-. reflexivity.
  - destruct (cls c).
    + destruct (span cls s) as [m' r'] eqn:E. injection H as <- <-.
      specialize (IH m' r' eq_refl). simpl. lia.
    + injection H as <- <-. reflexivity.
Qed.

Lemma oneOrMore_shorter (cls : ascii -> bool) (s m rest : string) :
  oneOrMore cls s = Some (m, rest) ->
  (String.length rest < String.length s)%nat.
Proof.
  unfold oneOrMore. destruct (span cls s) as [m' r'] eqn:E.
  apply span_length in E.
  destruct m' as [|c m']; [discriminate|].
  intros [= <- <-]. simpl in E. lia.
Qed.

Lemma threeNumbers_shorter (s rest : string) (c : string * string * string) :
  threeNumbers s = Some (c, rest) ->
  (String.length rest < String.length s)%nat.
Proof.
  unfold threeNumbers. intros H.
  destruct (oneOrMore isWhite s) as [[w1 s1]|] eqn:E1; [|discriminate].
  simpl in H.
  destruct (oneOrMore isNumberChar s1) as [[a s2]|] eqn:E2; [|discriminate].
  simpl in H.
  destruct (oneOrMore isWhite s2) as [[w2 s3]|] eqn:E3; [|discriminate].
  simpl in H.
  destruct (oneOrMore isNumberChar s3) as [[b s4]|] eqn:E4; [|discriminate].
  simpl in H.
  destruct (oneOrMore isWhite s4) as [[w3 s5]|] eqn:E5; [|discriminate].
  simpl in H.
  destruct (oneOrMore isNumberChar s5) as [[c' s6]|] eqn:E6; [|discriminate].
  simpl in H. injection H as <- <-.
  apply oneOrMore_shorter in E1, E2, E3, E4, E5, E6. lia.
Qed.

Lemma facePattern_shorter (s rest : string) (c : string * string * string) :
  facePattern s = Some (c, rest) ->
  (String.length rest < String.length s)%nat.
Proof.
  unfold facePattern, mbind, option_bind. intros H.
  destruct (literal "facet" s) as [s1|] eqn:E1; [|discriminate].
  destruct (oneOrMore isWhite s1) as [[w s2]|] eqn:E2; [|discriminate].
  destruct (literal "normal" s2) as [s3|] eqn:E3; [|discriminate].
  apply literal_length in E1, E3. apply oneOrMore_shorter in E2.
  apply threeNumbers_shorter in H. simpl String.length in E1, E3. lia.
Qed.

Lemma vertexPattern_shorter (s rest : string) (c : string * string * string) :
  vertexPattern s = Some (c, rest) ->
  (String.length rest < String.length s)%nat.
Proof.
  unfold vertexPattern, mbind, option_bind. intros H.
  destruct (literal "vertex" s) as [s1|] eqn:E1; [|discriminate].
  apply literal_length in E1. apply threeNumbers_shorter in H.
  simpl String.length in E1. lia.
Qed.

Section Matches.

Context {C : Type}.
Variable pattern : string -> option (C * string).
Hypothesis pattern_shorter : forall s rest c,
  pattern s = Some (c, rest) -> (String.length rest < String.length s)%nat.

Lemma search_shorter (s rest : string) (c : C) :
  search pattern s = Some (c, rest) ->
  (String.length rest < String.length s)%nat.
Proof.
  induction s as [|a s IH]; simpl.
  - destruct (pattern EmptyString) as [[c' r']|] eqn:E; [|discriminate].
    intros [= <- <-]. exact (pattern_shorter _ _ _ E).
  - destruct (pattern (String a s)) as [[c' r']|] eqn:E.
    + intros [= <- <-]. exact (pattern_shorter _ _ _ E).
    + intros H. apply IH in H. simpl. lia.
Qed.

Lemma matchesFrom_fuel (fuel fuel' : nat) (s : string) :
  (String.length s <= fuel)%nat -> (String.length s <= fuel')%nat ->
  matchesFrom pattern fuel s = matchesFrom pattern fuel' s.
Proof.
  revert fuel' s. induction fuel as [|fuel IH]; intros fuel' s H1 H2.
  - destruct s; [|simpl in H1; lia].
    destruct fuel'; [reflexivity|]. simpl.
    destruct (pattern EmptyString) as [[c r]|] eqn:E; [|reflexivity].
    apply pattern_shorter in E. simpl in E. lia.
  - destruct fuel' as [|fuel'].
    + destruct s; [|simpl in H2; lia]. simpl.
      destruct (pattern EmptyString) as [[c r]|] eqn:E; [|reflexivity].
      apply pattern_shorter in E. simpl in E. lia.
    + simpl. destruct (search pattern s) as [[c rest]|] eqn:E; [|reflexivity].
      apply search_shorter in E. f_equal. apply IH; lia.
Qed.

Lemma allMatches_unfold (s : string) :
  allMatches pattern s =
  match search pattern s with
  | Some (c, rest) => c :: allMatches pattern rest
  | None => []
  end.
Proof.
  unfold allMatches.
  destruct (search pattern s) as [[c rest]|] eqn:E.
  - pose proof (search_shorter _ _ _ E) as Hlt.
    destruct (String.length s) as [|n] eqn:Hn; [lia|].
    simpl. rewrite E. f_equal. apply matchesFrom_fuel; lia.
  - destruct (String.length s); simpl; [reflexivity|]. now rewrite E.
Qed.

Variable text : string.

(** Within one pass over the text, call [j] returns match [j] and leaves
    the later ones to come. *)
Lemma exec_pass (j : nat) :
  (j <= length (allMatches pattern text))%nat ->
  allMatches pattern (lastIndexAfter pattern text j) =
    drop j (allMatches pattern text) /\
  execResult pattern text j = allMatches pattern text !! j.
Proof.
  induction j as [|j IH]; intros Hj.
  - assert (H0 : allMatches pattern (lastIndexAfter pattern text 0) =
                 drop 0 (allMatches pattern text)) by reflexivity.
    split; [exact H0|].
    unfold execResult, exec. simpl lastIndexAfter.
    rewrite (allMatches_unfold text).
    destruct (search pattern text) as [[c rest]|]; reflexivity.
  - destruct IH as [IHm IHr]; [lia|].
    assert (Hstep : allMatches pattern (lastIndexAfter pattern text (Datatypes.S j)) =
                    drop (Datatypes.S j) (allMatches pattern text)).
    { simpl lastIndexAfter. unfold exec.
      rewrite (allMatches_unfold (lastIndexAfter pattern text j)) in IHm.
      destruct (search pattern (lastIndexAfter pattern text j))
        as [[c rest]|] eqn:E.
      - simpl. destruct (drop j (allMatches pattern text)) as [|d l] eqn:Ed;
          [discriminate|].
        injection IHm as _ Hrest. rewrite Hrest.
        replace (Datatypes.S j) with (j + 1)%nat by lia.
        rewrite <- drop_drop, Ed. reflexivity.
      - exfalso. symmetry in IHm. apply (f_equal length) in IHm.
        rewrite length_drop in IHm. simpl in IHm. lia. }
    split; [exact Hstep|].
    unfold execResult, exec.
    rewrite (allMatches_unfold (lastIndexAfter pattern text (Datatypes.S j)))
      in Hstep.
    destruct (search pattern (lastIndexAfter pattern text (Datatypes.S j)))
      as [[c rest]|] eqn:E; simpl.
    + destruct (drop (Datatypes.S j) (allMatches pattern text)) as [|d l] eqn:Ed;
        [discriminate|].
      injection Hstep as -> _.
      pose proof (f_equal (fun l => l !! 0%nat) Ed) as Hd. simpl in Hd.
      rewrite lookup_drop, Nat.add_0_r in Hd. now rewrite Hd.
    + symmetry. apply lookup_ge_None_2.
      symmetry in Hstep. apply (f_equal length) in Hstep.
      rewrite length_drop in Hstep. simpl in Hstep. lia.
Qed.

(** After the call that fails, the scan starts again from the start. *)
Lemma exec_wraps :
  lastIndexAfter pattern text (Datatypes.S (length (allMatches pattern text)))
  = text.
Proof.
  destruct (exec_pass (length (allMatches pattern text)) (le_n _)) as [Hm _].
  rewrite drop_all in Hm.
  rewrite (allMatches_unfold (lastIndexAfter pattern text _)) in Hm.
  simpl lastIndexAfter. unfold exec.
  destruct (search pattern _) as [[c rest]|]; [discriminate|reflexivity].
Qed.

Lemma lastIndexAfter_period (k : nat) :
  lastIndexAfter pattern text
    (k + Datatypes.S (length (allMatches pattern text))) =
  lastIndexAfter pattern text k.
Proof.
  induction k as [|k IH].
  - apply exec_wraps.
  - simpl. now rewrite IH.
Qed.

(** Call number [k] returns match number [k mod (m + 1)], where [m] is the
    number of matches in the text, and nothing when that is [m]. *)
Lemma execResult_cycle (k : nat) :
  execResult pattern text k =
  allMatches pattern text
    !! (k mod Datatypes.S (length (allMatches pattern text)))%nat.
Proof.
  set (m := length (allMatches pattern text)).
  induction k as [k IH] using lt_wf_ind.
  destruct (Nat.lt_ge_cases k (Datatypes.S m)) as [Hlt|Hge].
  - rewrite Nat.mod_small by exact Hlt.
    apply exec_pass. fold m. lia.
  - replace k with ((k - Datatypes.S m) + Datatypes.S m)%nat at 1 by lia.
    unfold execResult. unfold m at 2. rewrite lastIndexAfter_period.
    fold (execResult pattern text (k - Datatypes.S m)).
    rewrite IH by lia. f_equal.
    replace k with ((k - Datatypes.S m) + 1 * Datatypes.S m)%nat at 2 by lia.
    rewrite Nat.Div0.mod_add. reflexivity.
Qed.

End Matches.

(** ** parseSTLAscii: facets and their vertices *)

Lemma stlVertex_step {F : Type} (parseFloat : string -> F) (text : string)
    (n : string * string * string) (k : nat) (vs ns : list F) :
  stlVertex parseFloat text
    (let '(a, b, c) := n in (parseFloat a, parseFloat b, parseFloat c))
    (lastIndexAfter vertexPattern text k, vs, ns) =
  (lastIndexAfter vertexPattern text (Datatypes.S k),
   vs ++ match execResult vertexPattern text k with
         | Some v => captures parseFloat v
         | None => []
         end,
   ns ++ match execResult vertexPattern text k with
         | Some _ => captures parseFloat n
         | None => []
         end).
Proof.
  destruct n as [[a b] c]. unfold stlVertex, execResult. simpl lastIndexAfter.
  destruct (exec vertexPattern text (lastIndexAfter vertexPattern text k))
    as [[[[x y] z]|] vl']; simpl; rewrite ?app_nil_r; reflexivity.
Qed.

Lemma facet_of_call {A : Type} (pre rest : list A) (c : A) (i : nat) :
  (i < 3)%nat ->
  (pre ++ c :: rest) !! ((3 * length pre + i) / 3)%nat = Some c.
Proof.
  intros Hi.
  replace ((3 * length pre + i) / 3)%nat with (length pre).
  - rewrite lookup_app_r by lia. now rewrite Nat.sub_diag.
  - apply Nat.div_unique with (r := i); lia.
Qed.

Lemma facetLoop_spec {F : Type} (parseFloat : string -> F) (text : string)
    (remaining : list (string * string * string)) :
  forall (pre : list (string * string * string)) (fuel : nat)
         (faceMatch : option (string * string * string)) (faceLast : string)
         (vs ns : list F),
    allMatches facePattern text = pre ++ remaining ->
    remaining = match faceMatch with
                | Some c => c :: allMatches facePattern faceLast
                | None => []
                end ->
    (faceMatch <> None -> (String.length faceLast < fuel)%nat) ->
    facetLoop parseFloat fuel text faceMatch faceLast
      (lastIndexAfter vertexPattern text (3 * length pre), vs, ns) =
    Some (vs ++ flat_map (fun k =>
                   match execResult vertexPattern text k with
                   | Some v => captures parseFloat v
                   | None => []
                   end) (seq (3 * length pre) (3 * length remaining)),
          ns ++ flat_map (fun k =>
                   match execResult vertexPattern text k,
                         allMatches facePattern text !! (k / 3)%nat with
                   | Some _, Some n => captures parseFloat n
                   | _, _ => []
                   end) (seq (3 * length pre) (3 * length remaining))).
Proof.
  induction remaining as [|c rem IH];
    intros pre fuel faceMatch faceLast vs ns Hall Hrem Hfuel.
  - destruct faceMatch as [c|]; [discriminate|].
    destruct fuel; simpl; rewrite !app_nil_r; reflexivity.
  - destruct faceMatch as [c'|]; [|discriminate].
    injection Hrem as <- Hrem.
    destruct fuel as [|fuel]; [specialize (Hfuel ltac:(discriminate)); lia|].
    specialize (Hfuel ltac:(discriminate)).
    cbn [facetLoop].
    destruct c as [[a b] c3] eqn:Ec.
    change (parseFloat a, parseFloat b, parseFloat c3)
      with (let '(a, b, c) := (a, b, c3) in
            (parseFloat a, parseFloat b, parseFloat c)).
    rewrite <- Ec in *.
    assert (Hthree :
      forRange 3 (fun _ acc =>
                    stlVertex parseFloat text
                      (let '(a, b, c) := c in
                       (parseFloat a, parseFloat b, parseFloat c)) acc)
        (lastIndexAfter vertexPattern text (3 * length pre), vs, ns) =
      stlVertex parseFloat text
        (let '(a, b, c) := c in (parseFloat a, parseFloat b, parseFloat c))
        (stlVertex parseFloat text
           (let '(a, b, c) := c in (parseFloat a, parseFloat b, parseFloat c))
           (stlVertex parseFloat text
              (let '(a, b, c) := c in (parseFloat a, parseFloat b, parseFloat c))
              (lastIndexAfter vertexPattern text (3 * length pre), vs, ns))))
      by reflexivity.
    rewrite Hthree, !stlVertex_step. clear Hthree.
    set (k := (3 * length pre)%nat).
    assert (Hnext : exists faceMatch' faceLast',
              exec facePattern text faceLast = (faceMatch', faceLast') /\
              rem = match faceMatch' with
                    | Some c => c :: allMatches facePattern faceLast'
                    | None => []
                    end /\
              (faceMatch' <> None -> (String.length faceLast' < fuel)%nat)).
    { unfold exec.
      rewrite (allMatches_unfold facePattern facePattern_shorter faceLast) in Hrem.
      destruct (search facePattern faceLast) as [[c2 rest2]|] eqn:E.
      - exists (Some c2), rest2. split; [reflexivity|]. split; [now symmetry|].
        intros _. apply (search_shorter facePattern facePattern_shorter) in E.
        lia.
      - exists None, text. split; [reflexivity|]. split; [now symmetry|].
        intros H. now contradiction H. }
    destruct Hnext as (faceMatch' & faceLast' & -> & Hrem' & Hfuel').
    assert (Hpre : (3 * length (pre ++ [c]) = Datatypes.S (Datatypes.S (Datatypes.S k)))%nat).
    { rewrite length_app. simpl. unfold k. lia. }
    specialize (IH (pre ++ [c]) fuel faceMatch' faceLast').
    rewrite Hpre in IH. rewrite IH; [|now rewrite <- app_assoc|exact Hrem'|exact Hfuel'].
    replace (3 * length (c :: rem))%nat
      with (Datatypes.S (Datatypes.S (Datatypes.S (3 * length rem)))) by (simpl; lia).
    cbn [seq flat_map].
    assert (Hf0 : allMatches facePattern text !! (k / 3)%nat = Some c).
    { rewrite Hall. unfold k.
      replace (3 * length pre)%nat with (3 * length pre + 0)%nat by lia.
      apply facet_of_call. lia. }
    assert (Hf1 : allMatches facePattern text !! (Datatypes.S k / 3)%nat = Some c).
    { rewrite Hall. unfold k.
      replace (Datatypes.S (3 * length pre))%nat with (3 * length pre + 1)%nat by lia.
      apply facet_of_call. lia. }
    assert (Hf2 : allMatches facePattern text
                    !! (Datatypes.S (Datatypes.S k) / 3)%nat = Some c).
    { rewrite Hall. unfold k.
      replace (Datatypes.S (Datatypes.S (3 * length pre)))%nat
        with (3 * length pre + 2)%nat by lia.
      apply facet_of_call. lia. }
    rewrite Hf0, Hf1, Hf2. rewrite <- !app_assoc. reflexivity.
Qed.

Lemma flat_map_ext_Forall {A B : Type} (f g : A -> list B) (l : list A) :
  Forall (fun a => f a = g a) l -> flat_map f l = flat_map g l.
Proof.
  induction 1 as [|a l Ha _ IH]; [reflexivity|].
  simpl. now rewrite Ha, IH.
Qed.

Lemma flat_map_length_Forall {A B C : Type} (f : A -> list B)
    (g : A -> list C) (l : list A) :
  Forall (fun a => length (f a) = length (g a)) l ->
  length (flat_map f l) = length (flat_map g l).
Proof.
  induction 1 as [|a l Ha _ IH]; [reflexivity|].
  simpl. rewrite !length_app. now rewrite Ha, IH.
Qed.

Lemma flat_map_lookup_take {A B : Type} (f : A -> list B) (l : list A)
    (n : nat) :
  (n <= length l)%nat ->
  flat_map (fun k => match l !! k with Some v => f v | None => [] end)
    (seq 0 n) =
  flat_map f (take n l).
Proof.
  induction n as [|n IH]; intros Hn; [reflexivity|].
  destruct (lookup_lt_is_Some_2 l n) as [x Hx]; [lia|].
  rewrite seq_S, flat_map_app, IH by lia.
  rewrite (take_S_r _ _ _ Hx), flat_map_app. simpl. now rewrite Hx.
Qed.

Lemma flat_map_by_threes {A B : Type} (g : A -> list B) (all l : list A) :
  forall pre, all = pre ++ l ->
    flat_map (fun k => match all !! (k / 3)%nat with
                       | Some n => g n
                       | None => []
                       end) (seq (3 * length pre) (3 * length l)) =
    flat_map (fun n => g n ++ g n ++ g n) l.
Proof.
  induction l as [|c l IH]; intros pre Hall; [reflexivity|].
  replace (3 * length (c :: l))%nat
    with (Datatypes.S (Datatypes.S (Datatypes.S (3 * length l)))) by (simpl; lia).
  cbn [seq flat_map].
  pose proof (facet_of_call pre l c 0 ltac:(lia)) as H0.
  pose proof (facet_of_call pre l c 1 ltac:(lia)) as H1.
  pose proof (facet_of_call pre l c 2 ltac:(lia)) as H2.
  rewrite <- Hall in H0, H1, H2.
  replace (3 * length pre + 0)%nat with (3 * length pre)%nat in H0 by lia.
  replace (3 * length pre + 1)%nat with (Datatypes.S (3 * length pre)) in H1 by lia.
  replace (3 * length pre + 2)%nat
    with (Datatypes.S (Datatypes.S (3 * length pre))) in H2 by lia.
  rewrite H0, H1, H2.
  specialize (IH (pre ++ [c])). rewrite length_app in IH. simpl length in IH.
  replace (3 * (length pre + 1))%nat
    with (Datatypes.S (Datatypes.S (Datatypes.S (3 * length pre)))) in IH by lia.
  rewrite IH by (now rewrite <- app_assoc).
  now rewrite <- !app_assoc.
Qed.

Lemma captures_length {F : Type} (parseFloat : string -> F)
    (c : string * string * string) :
  length (captures parseFloat c) = 3%nat.
Proof. now destruct c as [[x y] z]. Qed.

(** Vertices go to facets by order of appearance, not by nesting. The
    function always returns. With [facets] the matches of the facet pattern
    and [vertices] those of the vertex pattern, each in text order, facet
    number [f] makes the calls [3 f], [3 f + 1], [3 f + 2] of the vertex
    scan, and call number [k] yields vertex number [k mod (m + 1)] of the
    text, or nothing when that is [m], the number of vertices: once the
    vertices are used up the scan starts again at the start of the text.
    Positions and normals always have the same length. When the text has
    three vertices at least for each facet, facet [f] gets the vertices
    [3 f], [3 f + 1], [3 f + 2] of the text, wherever they stand, each with
    the facet's normal, and vertices beyond [3 * facets] are dropped. *)
Theorem parseSTLAscii_vertices_by_order (F : Type) (parseFloat : string -> F)
    (text : string) :
  let facets := allMatches facePattern text in
  let vertices := allMatches vertexPattern text in
  let call := fun k : nat =>
    vertices !! (k mod Datatypes.S (length vertices))%nat in
  exists positions normals,
    parseSTLAscii parseFloat text =
      Some (mkBufferGeometry positions (NormalAttribute normals) None) /\
    positions =
      flat_map (fun k => match call k with
                         | Some v => captures parseFloat v
                         | None => []
                         end) (seq 0 (3 * length facets)) /\
    normals =
      flat_map (fun k => match call k, facets !! (k / 3)%nat with
                         | Some _, Some n => captures parseFloat n
                         | _, _ => []
                         end) (seq 0 (3 * length facets)) /\
    length normals = length positions /\
    ((3 * length facets <= length vertices)%nat ->
     positions =
       flat_map (captures parseFloat) (take (3 * length facets) vertices) /\
     normals =
       flat_map (fun n => captures parseFloat n ++ captures parseFloat n ++
                          captures parseFloat n) facets /\
     length positions = (9 * length facets)%nat).
Proof.
  intros facets vertices call.
  assert (Hloop :
    parseSTLAscii parseFloat text =
    Some (mkBufferGeometry
            (flat_map (fun k => match call k with
                                | Some v => captures parseFloat v
                                | None => []
                                end) (seq 0 (3 * length facets)))
            (NormalAttribute
               (flat_map (fun k => match call k, facets !! (k / 3)%nat with
                                   | Some _, Some n => captures parseFloat n
                                   | _, _ => []
                                   end) (seq 0 (3 * length facets))))
            None)).
  { unfold parseSTLAscii, exec.
    pose proof (allMatches_unfold facePattern facePattern_shorter text) as Hun.
    fold facets in Hun.
    pose proof (facetLoop_spec parseFloat text facets [] (String.length text))
      as Hspec.
    change (3 * length (@nil (string * string * string)))%nat with 0%nat in Hspec.
    change (lastIndexAfter vertexPattern text 0) with text in Hspec.
    destruct (search facePattern text) as [[c rest]|] eqn:E.
    - specialize (Hspec (Some c) rest [] [] eq_refl Hun).
      rewrite Hspec.
      + simpl. f_equal. f_equal.
        * apply flat_map_ext_Forall, Forall_forall. intros k _.
          now rewrite (execResult_cycle vertexPattern vertexPattern_shorter).
        * f_equal. apply flat_map_ext_Forall, Forall_forall. intros k _.
          now rewrite (execResult_cycle vertexPattern vertexPattern_shorter).
      + intros _. exact (search_shorter facePattern facePattern_shorter _ _ _ E).
    - specialize (Hspec None text [] [] eq_refl Hun).
      rewrite Hspec by (intros H; now contradiction H).
      simpl. f_equal. f_equal.
      * apply flat_map_ext_Forall, Forall_forall. intros k _.
        now rewrite (execResult_cycle vertexPattern vertexPattern_shorter).
      * f_equal. apply flat_map_ext_Forall, Forall_forall. intros k _.
        now rewrite (execResult_cycle vertexPattern vertexPattern_shorter). }
  eexists _, _. split; [exact Hloop|]. split; [reflexivity|].
  split; [reflexivity|]. split.
  - apply flat_map_length_Forall, Forall_forall. intros k Hk.
    apply elem_of_seq in Hk.
    destruct (call k) as [v|]; [|reflexivity].
    destruct (lookup_lt_is_Some_2 facets (k / 3)) as [n ->].
    + apply Nat.Div0.div_lt_upper_bound. lia.
    + now rewrite !captures_length.
  - intros Henough.
    assert (Hcall : Forall (fun k => call k = vertices !! k)
                      (seq 0 (3 * length facets))).
    { apply Forall_forall. intros k Hk. apply elem_of_seq in Hk.
      unfold call. rewrite Nat.mod_small by lia. reflexivity. }
    assert (Hpos :
      flat_map (fun k => match call k with
                         | Some v => captures parseFloat v
                         | None => []
                         end) (seq 0 (3 * length facets)) =
      flat_map (captures parseFloat) (take (3 * length facets) vertices)).
    { rewrite <- flat_map_lookup_take by exact Henough.
      apply flat_map_ext_Forall. eapply Forall_impl; [exact Hcall|].
      intros k ->. reflexivity. }
    split; [exact Hpos|]. split.
    + rewrite <- (flat_map_by_threes (captures parseFloat) facets facets [] eq_refl).
      apply flat_map_ext_Forall, Forall_forall. intros k Hk.
      apply elem_of_seq in Hk. cbn [length] in Hk.
      unfold call. rewrite Nat.mod_small by lia.
      destruct (lookup_lt_is_Some_2 vertices k) as [v ->]; [lia|].
      reflexivity.
    + rewrite Hpos. clear Hpos Hcall.
      assert (Hlen : forall l : list (string * string * string),
                length (flat_map (captures parseFloat) l) = (3 * length l)%nat).
      { induction l as [|c l IH]; [reflexivity|].
        simpl. rewrite length_app, captures_length, IH. lia. }
      rewrite Hlen, length_take. lia.
Qed.

Lemma parseSTLAscii_vertices_by_order_witness :
  parseSTLAscii (fun s => s) exStlText =
  Some (mkBufferGeometry
          ["0"; "0"; "0"; "1"; "0"; "0"; "0"; "1e0"; "0"]%string
          (NormalAttribute ["0"; "0"; "1"; "0"; "0"; "1"; "0"; "0"; "1"]%string)
          None).
Proof.
  destruct (parseSTLAscii_vertices_by_order string (fun s => s) exStlText)
    as (positions & normals & Hparse & Hpos & Hnorm & _ & Henough).
  destruct Henough as (Hp & Hn & _); [vm_compute; lia|].
  rewrite Hparse, Hp, Hn. reflexivity.
Defined.

(** ** GifPlayer: the pace of the animation *)

(** What one tick does to a well-formed player: nothing, or one step to
    the next frame, which needs the effective delay, 20 ms at least, to
    have passed since the last step. *)
Lemma advance_cases (blend : Pixel -> Pixel -> Pixel) (now : Q) (p : GifPlayer) :
  wf_player p ->
  advance blend now p = Some p \/
  exists p',
    advance blend now p = Some p' /\ wf_player p' /\
    frames p' = frames p /\
    currentIndex p' = ((currentIndex p + 1) mod length (frames p))%nat /\
    currentIndex p' <> currentIndex p /\
    lastFrameTime p' = now /\
    (20 <= now - lastFrameTime p)%Q.
Proof.
  intros Hwf.
  destruct (Nat.leb_spec (length (frames p)) 1) as [Hle|Hgt].
  { left. now apply advance_static. }
  destruct (lookup_lt_is_Some_2 (frames p) (currentIndex p)) as [frame Hfr].
  { apply Hwf. }
  destruct (Qlt_le_dec (now - lastFrameTime p) (inject_Z (frameDelay frame)))
    as [Hlt|Hdue].
  { left. exact (advance_wait blend now p frame Hfr Hlt). }
  right.
  destruct (advance_due blend now p frame Hwf Hgt Hfr Hdue)
    as (p' & target & fc & Hadv & _ & _ & Hidx & Htime & Hframes & Hwf' & _).
  exists p'. split; [exact Hadv|]. split; [exact Hwf'|]. split; [exact Hframes|].
  split; [exact Hidx|]. split; [|split; [exact Htime|]].
  - rewrite Hidx. destruct Hwf as (_ & Hi & _).
    destruct (Nat.eq_dec (currentIndex p + 1)%nat (length (frames p))) as [E|E].
    + rewrite E, Nat.Div0.mod_same. lia.
    + rewrite Nat.mod_small by lia. lia.
  - eapply Qle_trans; [|exact Hdue].
    unfold frameDelay. change 20%Q with (inject_Z 20).
    rewrite <- Zle_Qle. lia.
Qed.

Lemma advanceAll_cons (blend : Pixel -> Pixel -> Pixel) (now : Q)
    (nows : list Q) (p : GifPlayer) :
  advanceAll blend (now :: nows) p =
  match advance blend now p with
  | Some p' => advanceAll blend nows p'
  | None => None
  end.
Proof.
  unfold advanceAll. simpl. destruct (advance blend now p); [reflexivity|].
  simpl. induction nows as [|t nows IH]; [reflexivity|exact IH].
Qed.

Lemma gapsAtLeast_cons (d t : Q) (times : list Q) :
  gapsAtLeast d (t :: times) <->
  match times with
  | t' :: _ => (d <= t' - t)%Q /\ gapsAtLeast d times
  | [] => True
  end.
Proof. destruct times; reflexivity. Qed.

(** Frames are shown in order, one per tick at most, and never less than
    20 ms apart. Driving a well-formed player through any ticks returns;
    every change of the frame shown is a step to the next frame of the
    cycle, so that the final index is the initial one plus the number of
    changes, modulo the frame count, and no frame is skipped however late a
    tick comes; there are no more changes than ticks; and each change comes
    20 ms at least after the one before (and after the clock reading the
    player started with), whatever delays the file declares. *)
Theorem frames_advance_in_order_and_paced (blend : Pixel -> Pixel -> Pixel)
    (nows : list Q) (p : GifPlayer) :
  wf_player p ->
  exists p',
    advanceAll blend nows p = Some p' /\
    currentIndex p' =
      ((currentIndex p + length (frameChanges blend nows p))
       mod frameCount p)%nat /\
    (length (frameChanges blend nows p) <= length nows)%nat /\
    gapsAtLeast 20 (lastFrameTime p :: frameChanges blend nows p) /\
    lastFrameTime p' =
      List.last (frameChanges blend nows p) (lastFrameTime p).
Proof.
  unfold frameCount.
  revert p. induction nows as [|now nows IH]; intros p Hwf.
  - exists p. simpl. rewrite Nat.add_0_r.
    rewrite Nat.mod_small by apply Hwf. repeat split; auto.
  - destruct (advance_cases blend now p Hwf) as
      [Hsame | (p1 & Hadv & Hwf1 & Hf1 & Hidx & Hne & Htime & Hgap)].
    + destruct (IH p Hwf) as (p' & Hall & Hi & Hlen & Hgaps & Hlast).
      exists p'. rewrite advanceAll_cons. cbn [frameChanges].
      rewrite Hsame, Nat.eqb_refl. cbn [app length].
      split; [exact Hall|]. split; [exact Hi|]. split; [lia|].
      split; [exact Hgaps | exact Hlast].
    + destruct (IH p1 Hwf1) as (p' & Hall & Hi & Hlen & Hgaps & Hlast).
      exists p'. rewrite advanceAll_cons. cbn [frameChanges].
      rewrite Hadv. apply Nat.eqb_neq in Hne. rewrite Hne. cbn [app].
      split; [exact Hall|]. split; [|split; [cbn [length]; lia|split]].
      * rewrite Hi, Hidx, Hf1. cbn [length].
        rewrite Nat.Div0.add_mod_idemp_l. f_equal. lia.
      * rewrite Htime in Hgaps. split; [exact Hgap | exact Hgaps].
      * rewrite Hlast, Htime. rewrite last_cons_default. reflexivity.
Qed.

Lemma frames_advance_in_order_and_paced_witness :
  exists p',
    advanceAll exBlend [50; 100; 120; 200; 1000]%Q exPlayer0 = Some p' /\
    currentIndex p' = 1%nat /\
    frameChanges exBlend [50; 100; 120; 200; 1000]%Q exPlayer0
      = [100; 200; 1000]%Q.
Proof.
  destruct (frames_advance_in_order_and_paced exBlend
              [50; 100; 120; 200; 1000]%Q exPlayer0 exPlayer0_wf)
    as (p' & Hall & Hi & _).
  exists p'. split; [exact Hall|].
  assert (Hc : frameChanges exBlend [50; 100; 120; 200; 1000]%Q exPlayer0
               = [100; 200; 1000]%Q) by (vm_compute; reflexivity).
  split; [|exact Hc]. rewrite Hi, Hc. reflexivity.
Defined.

(** ** Custom shapes *)

Lemma Math_max_bounds (a b : Q) :
  (a <= Math_max a b /\ b <= Math_max a b)%Q.
Proof.
  unfold Math_max. destruct (Qlt_bool a b) eqn:E.
  - apply Qlt_bool_iff in E. split; lra.
  - apply not_true_iff_false in E. rewrite Qlt_bool_iff in E.
    apply Qnot_lt_le in E. split; lra.
Qed.

(** Scaling by [2 r / M] about the centre of a box whose sides are [M] at
    most keeps the points of the box within [r] of the centre. *)
Lemma scaled_box_within (r M side t c : Q) :
  (0 <= r -> 0 < M -> side <= M -> 0 <= t <= side ->
   Qabs (c + r * 2 / M * (t + - side / 2) - c) <= r)%Q.
Proof.
  intros Hr HM Hside Ht. apply Qabs_Qle_condition.
  set (s := (r * 2 / M)%Q).
  assert (Hs : (0 <= s)%Q).
  { unfold s. apply Qle_shift_div_l; [exact HM|]. lra. }
  assert (HsM : (s * M == r * 2)%Q) by (unfold s; field; lra).
  assert (Hup : (s * t <= s * M)%Q).
  { rewrite !(Qmult_comm s). apply Qmult_le_compat_r; lra. }
  assert (Hlo : (0 <= s * t)%Q) by (apply Qmult_le_0_compat; lra).
  assert (Hside' : (s * side <= s * M)%Q).
  { rewrite !(Qmult_comm s). apply Qmult_le_compat_r; lra. }
  assert (Hts : (s * t <= s * side)%Q).
  { rewrite !(Qmult_comm s). apply Qmult_le_compat_r; lra. }
  assert (E : (c + s * (t + - side / 2) - c ==
               s * t - (1 # 2) * (s * side))%Q) by field.
  rewrite E. set (a := (s * t)%Q) in *. set (b := (s * side)%Q) in *.
  set (m := (s * M)%Q) in *. clearbody a b m. split; lra.
Qed.

(** The rounding of the exported placement: a translation printed with one
    decimal and a scale printed with four move a point at [u] along an axis
    by 0.1 plus [u / 20000] at most. *)
Lemma placement_error (c c' s s' side u : Q) :
  (Qabs (c' - c) <= 1 # 20 -> s' == s -> 0 <= u ->
   Qabs (toFixed 1 (c' - side * s' / 2) + toFixed 4 s' * u
         - (c + s * (u + - side / 2)))
   <= (1 # 10) + u / 20000)%Q.
Proof.
  intros Hc Hs Hu.
  pose proof (toFixed_error 1 (c' - side * s' / 2)) as H1.
  pose proof (toFixed_error 4 s') as H4.
  apply Qabs_Qle_condition in Hc, H1, H4. apply Qabs_Qle_condition.
  set (T := toFixed 1 (c' - side * s' / 2)) in *.
  set (S4 := toFixed 4 s') in *. clearbody T S4.
  change ((1 # 2) / inject_Z (10 ^ Z.of_nat 1))%Q with (1 # 20)%Q in H1.
  change ((1 # 2) / inject_Z (10 ^ Z.of_nat 4))%Q with (1 # 20000)%Q in H4.
  assert (Hd : (- (u / 20000) <= (S4 - s') * u <= u / 20000)%Q).
  { split.
    - assert (H : ((- (1 # 20000)) * u <= (S4 - s') * u)%Q)
        by (apply Qmult_le_compat_r; lra).
      assert (E : (- (u / 20000) == (- (1 # 20000)) * u)%Q) by field.
      rewrite E. exact H.
    - assert (H : ((S4 - s') * u <= (1 # 20000) * u)%Q)
        by (apply Qmult_le_compat_r; lra).
      assert (E : (u / 20000 == (1 # 20000) * u)%Q) by field.
      rewrite E. exact H. }
  assert (E : (T + S4 * u - (c + s * (u + - side / 2)) ==
               (T - (c' - side * s' / 2)) + (c' - c) + (S4 - s') * u)%Q).
  { rewrite <- Hs. field. }
  rewrite E. set (d := ((S4 - s') * u)%Q) in *. clearbody d.
  split; lra.
Qed.

(** A custom shape fits its cell, and the export places it where the
    raster pass does. With a path and a view box of positive sides, the
    raster pass scales the box by [2 r / max(width, height)] about its
    centre and puts that centre on the cell centre, so that every point of
    the box lands within [r] of the cell centre on each axis; the exported
    path carries a translation printed with one decimal and a scale printed
    with four, under which a point [(u, v)] of the box lands within
    [0.1 + u / 20000] and [0.1 + v / 20000] of where the raster pass puts
    it. *)
Theorem custom_shape_fits_cell (state : AppState) (grid : list Q) (cols : Z)
    (row col : Z) (pathData : string) (viewBox : ViewBox) :
  shape state = custom ->
  customShape (customSvgPath state) (customSvgViewBox state)
    = Some (pathData, viewBox) ->
  (0 < vb_width viewBox)%Q -> (0 < vb_height viewBox)%Q ->
  rasterDraws state grid cols row col = true ->
  let spacing := density state in
  let r := cellRadius grid cols (spacing * 0.48)
             (minSize (mapping state) / 100) (maxSize (mapping state) / 100)
             (invert (mapping state)) row col in
  let cx := (inject_Z col * spacing + spacing * 0.5)%Q in
  let cy := (inject_Z row * spacing + spacing * 0.5)%Q in
  exists cmd e,
    rasterCell state grid cols row col = Drawn [cmd] /\
    svgCell state grid cols row col = [e] /\
    forall u v,
      (0 <= u <= vb_width viewBox)%Q -> (0 <= v <= vb_height viewBox)%Q ->
      exists x y x' y',
        canvasPoint cmd u v = Some (x, y) /\
        svgPoint e u v = Some (x', y') /\
        (Qabs (x - cx) <= r)%Q /\ (Qabs (y - cy) <= r)%Q /\
        (Qabs (x' - x) <= (1 # 10) + u / 20000)%Q /\
        (Qabs (y' - y) <= (1 # 10) + v / 20000)%Q.
Proof.
  intros Hshape Hcustom Hw Hh Hdraws spacing r cx cy.
  unfold rasterDraws in Hdraws.
  unfold rasterCell, renderCell, svgCell in *.
  rewrite Hshape in *. cbv zeta in *.
  rewrite (Qlt_bool_compat _ _ _ (svgRadius_cellRadius _ _ _ _ _ _ _ _)).
  fold spacing in Hdraws |- *. fold r in Hdraws |- *.
  destruct (Qlt_bool r 0.3) eqn:Hr; [discriminate|].
  apply not_true_iff_false in Hr. rewrite Qlt_bool_iff in Hr.
  apply Qnot_lt_le in Hr.
  unfold drawShape, drawCustomSvg. rewrite Hcustom.
  eexists _, _. split; [reflexivity|]. split; [reflexivity|].
  intros u v Hu Hv. unfold canvasPoint, svgPoint.
  eexists _, _, _, _. split; [reflexivity|]. split; [reflexivity|].
  destruct (Math_max_bounds (vb_width viewBox) (vb_height viewBox)) as [HMw HMh].
  set (M := Math_max (vb_width viewBox) (vb_height viewBox)) in *.
  assert (HM : (0 < M)%Q) by lra.
  pose proof (svgRadius_cellRadius grid cols (spacing * 0.48)
                (minSize (mapping state) / 100) (maxSize (mapping state) / 100)
                (invert (mapping state)) row col) as Hrs.
  fold r in Hrs.
  set (rs := svgRadius grid cols (spacing * 0.48)
               (minSize (mapping state) / 100) (maxSize (mapping state) / 100)
               (invert (mapping state)) row col) in *.
  assert (Hscale : (rs * 2 / M == r * 2 / M)%Q) by (rewrite Hrs; reflexivity).
  split; [|split; [|split]].
  - apply scaled_box_within; lra.
  - apply scaled_box_within; lra.
  - apply placement_error; [|exact Hscale|lra].
    apply toFixed_1_error. unfold cx. field.
  - apply placement_error; [|exact Hscale|lra].
    apply toFixed_1_error. unfold cy. field.
Qed.

Lemma custom_shape_fits_cell_witness :
  exists cmd e x y,
    rasterCell exCustom [1; 0]%Q 2 0 0 = Drawn [cmd] /\
    svgCell exCustom [1; 0]%Q 2 0 0 = [e] /\
    canvasPoint cmd 24 6 = Some (x, y) /\
    (Qabs (x - 10) <= 9.6)%Q /\ (Qabs (y - 10) <= 9.6)%Q.
Proof.
  destruct (custom_shape_fits_cell exCustom [1; 0]%Q 2 0 0
              "M0 0L24 6L0 12Z" (mkViewBox 24 12)
              eq_refl eq_refl eq_refl eq_refl eq_refl)
    as (cmd & e & Hraster & Hsvg & Hpoints).
  destruct (Hpoints 24%Q 6%Q ltac:(split; discriminate)
              ltac:(split; discriminate))
    as (x & y & x' & y' & Hc & _ & Hx & Hy & _).
  exists cmd, e, x, y. split; [exact Hraster|]. split; [exact Hsvg|].
  split; [exact Hc|]. split.
  - eapply Qle_trans; [|eapply Qle_trans; [exact Hx|]].
    + apply Qle_lteq. right. apply Qabs_wd.
      change (density exCustom) with 20%Q. change (inject_Z 0) with 0%Q.
      ring.
    + vm_compute. discriminate.
  - eapply Qle_trans; [|eapply Qle_trans; [exact Hy|]].
    + apply Qle_lteq. right. apply Qabs_wd.
      change (density exCustom) with 20%Q. change (inject_Z 0) with 0%Q.
      ring.
    + vm_compute. discriminate.
Defined.
